(** * Graph construction and scheduling of [GraphAutoModel]

    A shallow embedding of [autokeras/auto/auto_model.py] (the class
    [GraphAutoModel]) and of the graph-building part of
    [autokeras/hypermodel/hyper_block.py] ([HyperBlock.__call__]).

    Python objects live in a heap and are referred to by their identity, a
    natural number (the index of the object in the heap).  Python sets are
    [gset nat], Python dicts are [gmap nat _], Python lists are lists.
    Exceptions are the [Raise] results of an error monad; recursion and
    [while] loops take a fuel argument, and the entry points supply a fuel
    that is proved sufficient. *)

From stdpp Require Import gmap strings list fin_maps fin_sets relations sorting.

#[local] Set Warnings "-clear-no-such-hyp".


(** ** Exceptions and results *)

Inductive exn : Type :=
  | ValueError (msg : string)
  | KeyError (key : nat)
  | IndexError.

Inductive res (A : Type) : Type :=
  | Ok (a : A)
  | Raise (e : exn)
  | OutOfFuel.
Arguments Ok {A} a.
Arguments Raise {A} e.
Arguments OutOfFuel {A}.

#[global] Instance res_bind : MBind res := λ A B k r,
  match r with
  | Ok a => k a
  | Raise e => Raise e
  | OutOfFuel => OutOfFuel
  end.

(** A [for x in l: body] loop whose body may raise: the state is threaded
    through the elements in order, the first exception ends the loop. *)
Fixpoint for_each {A S} (l : list A) (s : S) (body : S → A → res S) : res S :=
  match l with
  | [] => Ok s
  | x :: l => s' ← body s x; for_each l s' body
  end.

(** [d[k]] on a dict: [KeyError] when the key is absent. *)
Definition getitem {V} (d : gmap nat V) (k : nat) : res V :=
  match d !! k with
  | Some v => Ok v
  | None => Raise (KeyError k)
  end.

(** A list comprehension whose element expression may raise. *)
Fixpoint comprehension {A B} (f : A → res B) (l : list A) : res (list B) :=
  match l with
  | [] => Ok []
  | x :: l => y ← f x; ys ← comprehension f l; Ok (y :: ys)
  end.

(** ** The object heap: nodes and blocks *)

Definition Shape := list nat.

Module HyperNode.
(** Modelled from the spec: the class [HyperNode] of
    [autokeras/hypermodel/hyper_node.py], which is not among the sources.
    Its attributes are the ones read and written by [GraphAutoModel] and
    [HyperBlock.__call__]: a lazily set shape, the blocks that produce the
    node and the blocks that consume it, in the order they were added. *)
Record t : Type := mk {
  shape : option Shape;
  in_hypermodels : list nat;
  out_hypermodels : list nat;
}.

(** [HyperNode()] *)
Definition new : t := mk None [] [].

Definition add_in_hypermodel (self : t) (hypermodel : nat) : t :=
  mk (shape self) (in_hypermodels self ++ [hypermodel]) (out_hypermodels self).

Definition add_out_hypermodel (self : t) (hypermodel : nat) : t :=
  mk (shape self) (in_hypermodels self) (out_hypermodels self ++ [hypermodel]).

Definition set_shape (self : t) (s : option Shape) : t :=
  mk s (in_hypermodels self) (out_hypermodels self).
End HyperNode.

Module HyperBlock.
(** [HyperBlock.__init__] leaves [inputs] and [outputs] at [None] until the
    block is called; a block that was never called is in no node's
    [out_hypermodels], so the empty list stands for [None]. *)
Record t : Type := mk {
  name : string;
  inputs : list nat;
  outputs : list nat;
  n_output_node : nat;
  output_shape : option Shape;
}.

Definition new (name : string) : t := mk name [] [] 1 None.

Definition set_output_shape (self : t) (s : option Shape) : t :=
  mk (name self) (inputs self) (outputs self) (n_output_node self) s.
End HyperBlock.

Record Heap : Type := mkHeap {
  nodes : list HyperNode.t;
  blocks : list HyperBlock.t;
}.

Definition empty_heap : Heap := mkHeap [] [].

(** Dereferencing.  A Python reference always denotes a live object; the
    defaults below are only reached by identities that no object has. *)
Definition node_at (h : Heap) (n : nat) : HyperNode.t :=
  default HyperNode.new (nodes h !! n).

Definition block_at (h : Heap) (b : nat) : HyperBlock.t :=
  default (HyperBlock.new EmptyString) (blocks h !! b).

Definition alloc_node (h : Heap) (nd : HyperNode.t) : Heap * nat :=
  (mkHeap (nodes h ++ [nd]) (blocks h), length (nodes h)).

Definition alloc_block (h : Heap) (b : HyperBlock.t) : Heap * nat :=
  (mkHeap (nodes h) (blocks h ++ [b]), length (blocks h)).

Definition update_node (h : Heap) (n : nat) (f : HyperNode.t → HyperNode.t) : Heap :=
  mkHeap (alter f n (nodes h)) (blocks h).

Definition update_block (h : Heap) (b : nat) (f : HyperBlock.t → HyperBlock.t) : Heap :=
  mkHeap (nodes h) (alter f b (blocks h)).

(** [HyperBlock.__call__(self, inputs)]: records the inputs, registers the
    block as a consumer of each of them, and creates [n_output_node] fresh
    output nodes produced by the block. *)
Fixpoint fresh_outputs (k : nat) (self : nat) (h : Heap) (acc : list nat) : Heap * list nat :=
  match k with
  | 0 => (h, acc)
  | S k =>
      let '(h, output_node) := alloc_node h HyperNode.new in
      let h := update_node h output_node (λ nd, HyperNode.add_in_hypermodel nd self) in
      fresh_outputs k self h (acc ++ [output_node])
  end.

Definition HyperBlock_call (h : Heap) (self : nat) (inputs : list nat) : Heap * list nat :=
  let h := update_block h self (λ b,
    HyperBlock.mk (HyperBlock.name b) inputs (HyperBlock.outputs b)
                  (HyperBlock.n_output_node b) (HyperBlock.output_shape b)) in
  let h := foldl (λ h input_node,
    update_node h input_node (λ nd, HyperNode.add_out_hypermodel nd self)) h inputs in
  let '(h, outs) := fresh_outputs (HyperBlock.n_output_node (block_at h self)) self h [] in
  let h := update_block h self (λ b,
    HyperBlock.mk (HyperBlock.name b) (HyperBlock.inputs b) outs
                  (HyperBlock.n_output_node b) (HyperBlock.output_shape b)) in
  (h, outs).

(** ** [GraphAutoModel] *)

Record GraphAutoModel : Type := mkModel {
  inputs : list nat;
  outputs : list nat;
  max_trials : Z;
  directory : string;
  _node_to_id : gmap nat nat;
  _nodes : list nat;
  _hypermodels : list nat;
  _hypermodel_to_id : gmap nat nat;
}.

Definition with_node_to_id (self : GraphAutoModel) (m : gmap nat nat) : GraphAutoModel :=
  mkModel (inputs self) (outputs self) (max_trials self) (directory self)
          m (_nodes self) (_hypermodels self) (_hypermodel_to_id self).

Definition with_nodes (self : GraphAutoModel) (l : list nat) : GraphAutoModel :=
  mkModel (inputs self) (outputs self) (max_trials self) (directory self)
          (_node_to_id self) l (_hypermodels self) (_hypermodel_to_id self).

Definition with_hypermodels (self : GraphAutoModel) (l : list nat) (m : gmap nat nat)
  : GraphAutoModel :=
  mkModel (inputs self) (outputs self) (max_trials self) (directory self)
          (_node_to_id self) (_nodes self) l m.

(** [_add_node] *)
Definition _add_node (self : GraphAutoModel) (input_node : nat) : GraphAutoModel :=
  match _node_to_id self !! input_node with
  | Some _ => self
  | None =>
      with_node_to_id self (<[input_node := size (_node_to_id self)]> (_node_to_id self))
  end.

Definition cycle_error : exn := ValueError "The network has a cycle."%string.
Definition not_connected_error : exn := ValueError "Inputs and outputs not connected."%string.
Definition missing_input_error (name : string) : exn :=
  ValueError ("A required input is missing for HyperModel " +:+ name +:+ ".")%string.

(** The two sets that [_search_network] receives by reference and mutates,
    together with [self]. *)
Record search_state : Type := mkSearch {
  ss_self : GraphAutoModel;
  in_stack_nodes : gset nat;
  visited_nodes : gset nat;
}.

(** [_search_network] *)
Fixpoint _search_network (fuel : nat) (h : Heap) (outputs : list nat)
    (input_node : nat) (st : search_state) : res search_state :=
  match fuel with
  | 0 => OutOfFuel
  | S fuel =>
      let st := mkSearch (ss_self st) (in_stack_nodes st) ({[input_node]} ∪ visited_nodes st) in
      let st := mkSearch (ss_self st) ({[input_node]} ∪ in_stack_nodes st) (visited_nodes st) in
      let outputs_reached := bool_decide (input_node ∈ outputs) in
      acc ←
        for_each (HyperNode.out_hypermodels (node_at h input_node)) (st, outputs_reached)
          (λ acc hypermodel,
            for_each (HyperBlock.outputs (block_at h hypermodel)) acc
              (λ (acc : search_state * bool) output_node,
                let '(st, outputs_reached) := acc in
                if decide (output_node ∈ in_stack_nodes st) then Raise cycle_error
                else
                  st ← (if decide (output_node ∈ visited_nodes st) then Ok st
                        else _search_network fuel h outputs output_node st);
                  Ok (st, if decide (output_node ∈ dom (_node_to_id (ss_self st)))
                          then true else outputs_reached)));
      let '(st, outputs_reached) := (acc : search_state * bool) in
      let st := if outputs_reached
                then mkSearch (_add_node (ss_self st) input_node)
                              (in_stack_nodes st) (visited_nodes st)
                else st in
      Ok (mkSearch (ss_self st) (in_stack_nodes st ∖ {[input_node]}) (visited_nodes st))
  end.

(** [_add_hypermodel] *)
Definition _add_hypermodel (h : Heap) (self : GraphAutoModel) (hypermodel : nat)
  : res GraphAutoModel :=
  let self :=
    if decide (hypermodel ∈ _hypermodels self) then self
    else
      let hypermodel_id := length (_hypermodels self) in
      with_hypermodels self (_hypermodels self ++ [hypermodel])
                       (<[hypermodel := hypermodel_id]> (_hypermodel_to_id self)) in
  let self := foldl _add_node self (HyperBlock.outputs (block_at h hypermodel)) in
  for_each (HyperBlock.inputs (block_at h hypermodel)) self
    (λ self input_node,
      if decide (input_node ∈ dom (_node_to_id self)) then Ok self
      else Raise (missing_input_error (HyperBlock.name (block_at h hypermodel)))).

(** The [while not queue.empty()] loop of [_build_network].  The queue is a
    FIFO: [put] appends, [get] takes the head. *)
Record order_state : Type := mkOrder {
  os_self : GraphAutoModel;
  os_visited : gset nat;
  os_queue : list nat;
}.

Definition enqueue_outputs (st : order_state) (outs : list nat) : order_state :=
  foldl (λ st output_node,
    if decide ((output_node ∉ os_visited st) ∧ (output_node ∈ dom (_node_to_id (os_self st))))
    then mkOrder (os_self st) ({[output_node]} ∪ os_visited st) (os_queue st ++ [output_node])
    else st) st outs.

Definition visit_hypermodel (h : Heap) (st : order_state) (hypermodel : nat) : res order_state :=
  if negb (existsb (λ output_node, bool_decide (output_node ∈ dom (_node_to_id (os_self st))))
                   (HyperBlock.outputs (block_at h hypermodel)))
  then Ok st
  else
    self ← _add_hypermodel h (os_self st) hypermodel;
    Ok (enqueue_outputs (mkOrder self (os_visited st) (os_queue st))
                        (HyperBlock.outputs (block_at h hypermodel))).

Fixpoint order_loop (fuel : nat) (h : Heap) (st : order_state) : res GraphAutoModel :=
  match os_queue st with
  | [] => Ok (os_self st)
  | input_node :: queue =>
      match fuel with
      | 0 => OutOfFuel
      | S fuel =>
          st ← for_each (HyperNode.out_hypermodels (node_at h input_node))
                        (mkOrder (os_self st) (os_visited st) queue)
                        (visit_hypermodel h);
          order_loop fuel h st
      end
  end.

(** Every node that is an output of some block of the heap. *)
Definition all_outputs (h : Heap) : gset nat :=
  list_to_set (concat (HyperBlock.outputs <$> blocks h)).

(** [hypermodel = output_node.in_hypermodels[0];
     hypermodel.output_shape = output_node.shape] *)
Definition set_output_shape (h : Heap) (output_node : nat) : res Heap :=
  match HyperNode.in_hypermodels (node_at h output_node) with
  | [] => Raise IndexError
  | hypermodel :: _ =>
      Ok (update_block h hypermodel (λ b,
            HyperBlock.set_output_shape b (HyperNode.shape (node_at h output_node))))
  end.

(** The first loop of [_build_network]: one traversal per designated input,
    each with two fresh sets. *)
Definition discover (h : Heap) (self : GraphAutoModel) : res GraphAutoModel :=
  for_each (inputs self) self (λ self input_node,
    st ← _search_network (S (size (all_outputs h))) h (outputs self) input_node
                         (mkSearch self ∅ ∅);
    Ok (ss_self st)).

Definition by_id (x y : nat * nat) : Prop := x.2 ≤ y.2.

#[global] Instance by_id_dec x y : Decision (by_id x y) := decide (x.2 ≤ y.2).

(** [sorted(list(self._node_to_id.keys()), key=lambda x: self._node_to_id[x])] *)
Definition sorted_nodes (m : gmap nat nat) : list nat :=
  (merge_sort by_id (map_to_list m)).*1.

(** [_build_network] *)
Definition _build_network (h : Heap) (self : GraphAutoModel) : res (GraphAutoModel * Heap) :=
  let self := with_node_to_id self ∅ in
  self ← discover h self;
  let self := with_nodes self (sorted_nodes (_node_to_id self)) in
  _ ← for_each (inputs self ++ outputs self) tt (λ _ node,
        if decide (node ∈ dom (_node_to_id self)) then Ok tt
        else Raise not_connected_error);
  let self := with_hypermodels self [] ∅ in
  let st := foldl (λ st input_node,
              mkOrder (os_self st) ({[input_node]} ∪ os_visited st)
                      (os_queue st ++ [input_node]))
              (mkOrder self ∅ []) (inputs self) in
  self ← order_loop (length (inputs self) + size (all_outputs h)) h st;
  h ← for_each (outputs self) h set_output_shape;
  Ok (self, h).

(** [GraphAutoModel.__init__].  The arguments [inputs] and [outputs] are
    taken after [layer_utils.format_inputs], that is as lists of nodes.
    [x or y] yields [y] exactly when [x] is falsy: [None], the integer [0],
    the empty string. *)
Definition or_int (x : option Z) (y : Z) : Z :=
  match x with
  | Some n => if decide (n = 0%Z) then y else n
  | None => y
  end.

Definition or_str (x : option string) (y : string) : string :=
  match x with
  | Some s => if decide (s = EmptyString) then y else s
  | None => y
  end.

Section Constructor.
(** [const.Constant.NUM_TRAILS] and [const.Constant.TEMP_DIRECTORY]: the
    module [autokeras.const] is not among the sources, its two constants
    are parameters here. *)
Variable NUM_TRAILS : Z.
Variable TEMP_DIRECTORY : string.

Definition __init__ (h : Heap) (inputs outputs : list nat)
    (max_trials : option Z) (directory : option string)
  : res (GraphAutoModel * Heap) :=
  let self := mkModel inputs outputs
                      (or_int max_trials NUM_TRAILS)
                      (or_str directory TEMP_DIRECTORY)
                      ∅ [] [] ∅ in
  _build_network h self.
End Constructor.

(** [GraphAutoModel.build].  The tensors and the build steps of nodes and
    blocks belong to the layer library; they are parameters.  The result is
    the pair of tensor lists handed to [tf.keras.Model]. *)
Section Materialize.
Context {Tensor HyperParameters : Type}.
(** [input_node.build(hp)] *)
Variable node_build : nat → HyperParameters → Tensor.
(** [layer_utils.format_inputs(hypermodel.build(hp, inputs=temp_inputs))] *)
Variable hypermodel_build : nat → HyperParameters → list Tensor → list Tensor.

Definition real_node (self : GraphAutoModel) (real_nodes : gmap nat Tensor)
    (node : nat) : res Tensor :=
  node_id ← getitem (_node_to_id self) node;
  getitem real_nodes node_id.

Definition build_hypermodel (h : Heap) (self : GraphAutoModel) (hp : HyperParameters)
    (real_nodes : gmap nat Tensor) (hypermodel : nat) : res (gmap nat Tensor) :=
  temp_inputs ← comprehension (real_node self real_nodes)
                              (HyperBlock.inputs (block_at h hypermodel));
  let outputs := hypermodel_build hypermodel hp temp_inputs in
  for_each (zip (HyperBlock.outputs (block_at h hypermodel)) outputs) real_nodes
    (λ real_nodes '(output_node, real_output_node),
      node_id ← getitem (_node_to_id self) output_node;
      Ok (<[node_id := real_output_node]> real_nodes)).

Definition build (h : Heap) (self : GraphAutoModel) (hp : HyperParameters)
  : res (list Tensor * list Tensor) :=
  real_nodes ← for_each (inputs self) ∅ (λ real_nodes input_node,
    node_id ← getitem (_node_to_id self) input_node;
    Ok (<[node_id := node_build input_node hp]> real_nodes));
  real_nodes ← for_each (_hypermodels self) real_nodes (build_hypermodel h self hp);
  model_inputs ← comprehension (real_node self real_nodes) (inputs self);
  model_outputs ← comprehension (real_node self real_nodes) (outputs self);
  Ok (model_inputs, model_outputs).
End Materialize.

(** [GraphAutoModel.fit] up to the tuner: the two loops that record the
    shapes of the training arrays on the designated nodes.  An array is
    taken by its [shape]; [shape[1:]] drops the leading dimension, and a
    target of one dimension is reshaped to [shape + (1,)] first. *)
Definition set_input_shape (h : Heap) (xi : Shape * nat) : Heap :=
  let '(x_input, input_node) := xi in
  update_node h input_node (λ nd, HyperNode.set_shape nd (Some (tail x_input))).

Definition reshaped (y_input : Shape) : Shape :=
  if decide (length y_input = 1) then y_input ++ [1] else y_input.

Definition set_target_shape (h : Heap) (yo : Shape * nat) : res Heap :=
  let '(y_input, output_node) := yo in
  let y_input := reshaped y_input in
  let h := update_node h output_node
             (λ nd, HyperNode.set_shape nd (Some (tail y_input))) in
  set_output_shape h output_node.

Definition fit_shapes (h : Heap) (self : GraphAutoModel) (x y : list Shape) : res Heap :=
  let h := foldl set_input_shape h (zip x (inputs self)) in
  for_each (zip y (outputs self)) h set_target_shape.

(** ** The graph seen by the traversals *)

(** The nodes visited by the two nested loops
    [for hypermodel in n.out_hypermodels: for output_node in hypermodel.outputs]. *)
Definition successors (h : Heap) (n : nat) : list nat :=
  concat ((λ b, HyperBlock.outputs (block_at h b)) <$> HyperNode.out_hypermodels (node_at h n)).

Definition edge (h : Heap) (n m : nat) : Prop := m ∈ successors h n.

Definition from_inputs (h : Heap) (ins : list nat) (n : nat) : Prop :=
  ∃ r, r ∈ ins ∧ rtc (edge h) r n.

Definition to_outputs (h : Heap) (outs : list nat) (n : nat) : Prop :=
  ∃ o, o ∈ outs ∧ rtc (edge h) n o.

(** A node of the induced set: it lies on a path from a designated input to
    a designated output. *)
Definition on_path (h : Heap) (ins outs : list nat) (n : nat) : Prop :=
  from_inputs h ins n ∧ to_outputs h outs n.

(** A cycle that a traversal started at a designated input can meet. *)
Definition reachable_cycle (h : Heap) (ins : list nat) : Prop :=
  ∃ r n, r ∈ ins ∧ rtc (edge h) r n ∧ tc (edge h) n n.

(** ** Loops *)

Definition outcome {A} (r : res A) (P : A → Prop) (E : exn → Prop) : Prop :=
  match r with
  | Ok a => P a
  | Raise e => E e
  | OutOfFuel => False
  end.

Lemma outcome_mono {A} (r : res A) (P P' : A → Prop) (E E' : exn → Prop) :
  outcome r P E → (∀ a, P a → P' a) → (∀ e, E e → E' e) → outcome r P' E'.
Proof. destruct r; simpl; auto. Qed.

Lemma outcome_bind {A B} (r : res A) (k : A → res B) (P : B → Prop) (E : exn → Prop) :
  outcome r (λ a, outcome (k a) P E) E → outcome (r ≫= k) P E.
Proof. destruct r; simpl; auto. Qed.

Lemma for_each_app {A S} (l1 l2 : list A) (s : S) body :
  for_each (l1 ++ l2) s body = (s' ← for_each l1 s body; for_each l2 s' body).
Proof.
  revert s. induction l1 as [|x l1 IH]; intros s; simpl; [done|].
  destruct (body s x); simpl; auto.
Qed.

Lemma for_each_nested {A B S} (g : A → list B) (l : list A) (s : S) body :
  for_each l s (λ acc x, for_each (g x) acc body) = for_each (concat (g <$> l)) s body.
Proof.
  revert s. induction l as [|x l IH]; intros s; simpl; [done|].
  rewrite for_each_app. destruct (for_each (g x) s body); simpl; auto.
Qed.

Lemma for_each_ext {A S} (l : list A) (s : S) body1 body2 :
  (∀ s x, x ∈ l → body1 s x = body2 s x) → for_each l s body1 = for_each l s body2.
Proof.
  revert s. induction l as [|x l IH]; intros s Hext; simpl; [done|].
  rewrite Hext by left. destruct (body2 s x); simpl; auto.
  apply IH. intros. apply Hext. by right.
Qed.

(** Loop rule: an invariant indexed by the elements already processed. *)
Lemma for_each_ind {A S} (body : S → A → res S) (I : list A → S → Prop)
    (E : exn → Prop) (l : list A) (s : S) :
  I [] s →
  (∀ pre x post s, l = pre ++ x :: post → I pre s →
     outcome (body s x) (I (pre ++ [x])) E) →
  outcome (for_each l s body) (I l) E.
Proof.
  revert I s. induction l as [|x l IH]; intros I s H0 Hstep; simpl; [done|].
  pose proof (Hstep [] x l s eq_refl H0) as Hx. simpl in Hx.
  destruct (body s x) as [s'| |]; simpl in *; try done.
  apply (IH (λ pre, I (x :: pre))); [done|].
  intros pre y post s0 -> Hpre. by apply (Hstep (x :: pre) y post s0).
Qed.
(** ** Depth-first discovery *)

(** [_search_network] restated over the flattened successor list. *)
Definition enter (st : search_state) (n : nat) : search_state :=
  mkSearch (ss_self st) ({[n]} ∪ in_stack_nodes st) ({[n]} ∪ visited_nodes st).

Definition leave (acc : search_state * bool) (n : nat) : search_state :=
  let st := if acc.2
            then mkSearch (_add_node (ss_self acc.1) n)
                          (in_stack_nodes acc.1) (visited_nodes acc.1)
            else acc.1 in
  mkSearch (ss_self st) (in_stack_nodes st ∖ {[n]}) (visited_nodes st).

Definition search_step (rec : nat → search_state → res search_state)
    (acc : search_state * bool) (output_node : nat) : res (search_state * bool) :=
  if decide (output_node ∈ in_stack_nodes acc.1) then Raise cycle_error
  else
    st ← (if decide (output_node ∈ visited_nodes acc.1) then Ok acc.1
          else rec output_node acc.1);
    Ok (st, if decide (output_node ∈ dom (_node_to_id (ss_self st)))
            then true else acc.2).

Lemma _search_network_S fuel h outs n st :
  _search_network (S fuel) h outs n st =
  (acc ← for_each (successors h n) (enter st n, bool_decide (n ∈ outs))
                  (search_step (_search_network fuel h outs));
   Ok (leave acc n)).
Proof.
  simpl. rewrite (for_each_nested (λ b, HyperBlock.outputs (block_at h b))).
  fold (successors h n). unfold enter.
  rewrite (for_each_ext _ _ _ (search_step (_search_network fuel h outs)));
    [|by intros [s b] x _].
  destruct (for_each _ _ _) as [[st' []]| |]; reflexivity.
Qed.

Definition same_config (s1 s2 : GraphAutoModel) : Prop :=
  with_node_to_id s1 ∅ = with_node_to_id s2 ∅.

#[global] Instance same_config_equiv : Equivalence same_config.
Proof.
  unfold same_config. split; [by intros ?|by intros ??|].
  intros ??? H1 H2. by rewrite H1.
Qed.

Lemma _add_node_dom self n :
  dom (_node_to_id (_add_node self n)) = {[n]} ∪ dom (_node_to_id self).
Proof.
  unfold _add_node. destruct (_node_to_id self !! n) eqn:Hn; simpl.
  - apply elem_of_dom_2 in Hn. set_solver.
  - by rewrite dom_insert_L.
Qed.

Lemma _add_node_config self n : same_config self (_add_node self n).
Proof. unfold _add_node. by destruct (_node_to_id self !! n). Qed.

Lemma elem_of_concat {A} (x : A) (ls : list (list A)) :
  x ∈ concat ls ↔ ∃ l, x ∈ l ∧ l ∈ ls.
Proof.
  induction ls as [|l ls IH]; simpl.
  - split; [by intros ?%elem_of_nil|by intros (? & _ & ?%elem_of_nil)].
  - rewrite elem_of_app, IH. split.
    + intros [?|(l' & ? & ?)]; [exists l|exists l']; split; auto; by constructor.
    + intros (l' & Hx & [->|?]%elem_of_cons); eauto.
Qed.

Lemma elem_of_successors h n v :
  v ∈ successors h n ↔
  ∃ b, b ∈ HyperNode.out_hypermodels (node_at h n) ∧ v ∈ HyperBlock.outputs (block_at h b).
Proof.
  unfold successors. rewrite elem_of_concat. split.
  - intros (l & Hv & Hl). apply list_elem_of_fmap in Hl as (b & -> & Hb). eauto.
  - intros (b & Hb & Hv). eexists. split; [done|]. apply list_elem_of_fmap. eauto.
Qed.

Lemma elem_of_all_outputs h v :
  v ∈ all_outputs h ↔ ∃ b, v ∈ HyperBlock.outputs (block_at h b).
Proof.
  unfold all_outputs. rewrite elem_of_list_to_set, elem_of_concat. split.
  - intros (l & Hv & Hl). apply list_elem_of_fmap in Hl as (b & -> & Hb).
    apply list_elem_of_lookup in Hb as (i & Hi). exists i.
    unfold block_at. by rewrite Hi.
  - intros (b & Hv). unfold block_at in Hv.
    destruct (blocks h !! b) as [blk|] eqn:Hb; simpl in Hv; [|by apply elem_of_nil in Hv].
    exists (HyperBlock.outputs blk). split; [done|].
    apply list_elem_of_fmap. exists blk. split; [done|]. by eapply list_elem_of_lookup_2.
Qed.

Lemma edge_all_outputs h n v : edge h n v → v ∈ all_outputs h.
Proof.
  unfold edge. rewrite elem_of_successors, elem_of_all_outputs.
  intros (b & _ & Hv). eauto.
Qed.

Lemma closed_rtc h (X : gset nat) u w :
  (∀ u v, u ∈ X → edge h u v → v ∈ X) → u ∈ X → rtc (edge h) u w → w ∈ X.
Proof. intros Hcl Hu Hrtc. induction Hrtc; eauto. Qed.

Section SearchSpec.
Variables (h : Heap) (ins outs : list nat) (r : nat).
Hypothesis Hroot : r ∈ ins.

(** Nodes whose call has returned. *)
Definition finished (st : search_state) : gset nat :=
  visited_nodes st ∖ in_stack_nodes st.

Definition ids (st : search_state) : gset nat := dom (_node_to_id (ss_self st)).

Record search_inv (st : search_state) : Prop := SearchInv {
  inv_stack : in_stack_nodes st ⊆ visited_nodes st;
  inv_visited : ∀ u, u ∈ visited_nodes st → rtc (edge h) r u;
  inv_sound : ∀ u, u ∈ ids st → on_path h ins outs u;
  inv_closed : ∀ u v, u ∈ finished st → edge h u v → v ∈ finished st;
  inv_acyclic : ∀ u, u ∈ finished st → ¬ tc (edge h) u u;
  inv_complete : ∀ u, u ∈ finished st → to_outputs h outs u → u ∈ ids st;
}.

Definition search_post (n : nat) (st st' : search_state) : Prop :=
  search_inv st' ∧ in_stack_nodes st' = in_stack_nodes st ∧
  visited_nodes st ⊆ visited_nodes st' ∧ n ∈ visited_nodes st' ∧
  ids st ⊆ ids st' ∧ same_config (ss_self st) (ss_self st').

Definition cycle_found (e : exn) : Prop :=
  e = cycle_error ∧ ∃ n, rtc (edge h) r n ∧ tc (edge h) n n.

Definition search_loop_inv (n : nat) (st : search_state) (pre : list nat)
    (acc : search_state * bool) : Prop :=
  search_inv acc.1 ∧ in_stack_nodes acc.1 = {[n]} ∪ in_stack_nodes st ∧
  {[n]} ∪ visited_nodes st ⊆ visited_nodes acc.1 ∧
  ids st ⊆ ids acc.1 ∧ same_config (ss_self st) (ss_self acc.1) ∧
  (∀ v, v ∈ pre → v ∈ finished acc.1) ∧
  (acc.2 = true → to_outputs h outs n) ∧
  (n ∈ outs ∨ (∃ v, v ∈ pre ∧ to_outputs h outs v) → acc.2 = true).

Lemma search_inv_enter st n :
  search_inv st → n ∉ visited_nodes st → rtc (edge h) r n → search_inv (enter st n).
Proof.
  intros [] Hn Hrn.
  assert (finished (enter st n) = finished st) as Hfin.
  { unfold finished, enter; simpl. set_solver. }
  split; rewrite ?Hfin; try done.
  - unfold enter; simpl. set_solver.
  - unfold enter; simpl. intros u [->%elem_of_singleton|]%elem_of_union; auto.
Qed.

Lemma search_spec fuel : ∀ n st,
  search_inv st → n ∉ visited_nodes st → rtc (edge h) r n →
  (∀ u, u ∈ in_stack_nodes st → rtc (edge h) u n) →
  size (all_outputs h ∖ visited_nodes st ∖ {[n]}) < fuel →
  outcome (_search_network fuel h outs n st) (search_post n st) cycle_found.
Proof.
  induction fuel as [|fuel IH]; intros n st Hinv Hn Hrn Hstack Hfuel; [lia|].
  rewrite _search_network_S. apply outcome_bind.
  eapply outcome_mono;
    [apply (for_each_ind _ (search_loop_inv n st) cycle_found)| |done].
  - (* the invariant holds on entry *)
    split_and!; simpl.
    + by apply search_inv_enter.
    + done.
    + done.
    + done.
    + done.
    + by intros v ?%elem_of_nil.
    + intros ?%bool_decide_eq_true. by exists n.
    + intros [?|(v & ?%elem_of_nil & _)]; [|done]. by apply bool_decide_eq_true.
  - (* one successor *)
    intros pre v post [st1 reached] Hsucc
      (Hinv1 & Hstk1 & Hvis1 & Hids1 & Hcfg1 & Hpre & Hreach & Hreach'); simpl in *.
    assert (edge h n v) as Hedge.
    { unfold edge. rewrite Hsucc. set_solver. }
    unfold search_step; simpl.
    destruct (decide (v ∈ in_stack_nodes st1)) as [Hvs|Hvs]; simpl.
    { split; [done|]. exists v. split.
      - apply (inv_visited _ Hinv1), (inv_stack _ Hinv1), Hvs.
      - rewrite Hstk1 in Hvs. apply elem_of_union in Hvs as [->%elem_of_singleton|Hvs].
        + by apply tc_once.
        + eapply tc_rtc_l; [by apply Hstack|by apply tc_once]. }
    apply outcome_bind.
    assert (outcome
      (if decide (v ∈ visited_nodes st1) then Ok st1
       else _search_network fuel h outs v st1)
      (λ st2, search_inv st2 ∧ in_stack_nodes st2 = in_stack_nodes st1 ∧
              visited_nodes st1 ⊆ visited_nodes st2 ∧ v ∈ visited_nodes st2 ∧
              ids st1 ⊆ ids st2 ∧ same_config (ss_self st1) (ss_self st2))
      cycle_found) as Hcall.
    { destruct (decide (v ∈ visited_nodes st1)) as [Hvv|Hvv]; simpl.
      - split_and!; done.
      - apply IH; try done.
        + by eapply rtc_r.
        + intros u Hu. rewrite Hstk1 in Hu.
          apply elem_of_union in Hu as [->%elem_of_singleton|Hu].
          * by apply rtc_once.
          * eapply rtc_r; [by apply Hstack|done].
        + assert (all_outputs h ∖ visited_nodes st1 ∖ {[v]}
                  ⊂ all_outputs h ∖ visited_nodes st ∖ {[n]}) as Hsub.
          { apply edge_all_outputs in Hedge.
            split; [set_solver|]. intros Hsub.
            assert (v ∈ all_outputs h ∖ visited_nodes st ∖ {[n]}) by set_solver.
            set_solver. }
          apply subset_size in Hsub. lia. }
    eapply outcome_mono; [exact Hcall| |done].
    intros st2 (Hinv2 & Hstk2 & Hvis2 & Hv2 & Hids2 & Hcfg2); simpl.
    assert (v ∈ finished st2) as Hvfin.
    { unfold finished. rewrite Hstk2. set_solver. }
    split_and!; simpl; try done.
    + congruence.
    + set_solver.
    + set_solver.
    + by etrans.
    + intros u [Hu| ->%list_elem_of_singleton]%elem_of_app; [|done].
      specialize (Hpre u Hu). unfold finished in *. rewrite Hstk2. set_solver.
    + destruct (decide (v ∈ dom (_node_to_id (ss_self st2)))) as [Hvid|]; [|done].
      intros _. destruct (inv_sound _ Hinv2 v Hvid) as [_ (o & Ho & Hvo)].
      exists o. split; [done|]. by eapply rtc_l.
    + intros Hcase.
      destruct (decide (v ∈ dom (_node_to_id (ss_self st2)))) as [Hvid|Hvid]; [done|].
      destruct Hcase as [Hno|(u & [Hu| ->%list_elem_of_singleton]%elem_of_app & Hto)];
        [by apply Hreach'; left|by apply Hreach'; right; eauto|].
      destruct Hvid. by apply (inv_complete _ Hinv2).
  - (* after the loop *)
    intros [st1 reached]
      (Hinv1 & Hstk1 & Hvis1 & Hids1 & Hcfg1 & Hpre & Hreach & Hreach'); simpl in *.
    assert (n ∉ in_stack_nodes st) as Hnstack.
    { intros ?. apply Hn. by apply (inv_stack _ Hinv). }
    set (st2 := if reached
                then mkSearch (_add_node (ss_self st1) n)
                              (in_stack_nodes st1) (visited_nodes st1)
                else st1).
    assert (in_stack_nodes st2 = in_stack_nodes st1 ∧
            visited_nodes st2 = visited_nodes st1 ∧
            ids st1 ⊆ ids st2 ∧ same_config (ss_self st1) (ss_self st2) ∧
            (∀ u, u ∈ ids st2 → u ∈ ids st1 ∨ (u = n ∧ reached = true)) ∧
            (reached = true → n ∈ ids st2)) as (Hstk2 & Hvis2 & Hids2 & Hcfg2 & Hids2' & Hn2).
    { unfold st2, ids. destruct reached; simpl; rewrite ?_add_node_dom.
      - split_and!; try done; [set_solver|apply _add_node_config|set_solver|set_solver].
      - split_and!; try done. auto. }
    unfold leave; simpl. fold st2.
    assert (finished (mkSearch (ss_self st2) (in_stack_nodes st2 ∖ {[n]}) (visited_nodes st2))
            = {[n]} ∪ finished st1) as Hfin.
    { unfold finished; simpl. rewrite Hstk2, Hvis2, Hstk1.
      apply set_eq. intros u. rewrite !elem_of_union, !elem_of_difference,
        !elem_of_union, !elem_of_singleton.
      destruct (decide (u = n)) as [->|]; [|naive_solver].
      split; [auto|]. intros _. split; [set_solver|]. naive_solver. }
    assert (∀ v, edge h n v → v ∈ finished st1) as Hsuccs.
    { intros v Hv. by apply Hpre. }
    assert (n ∉ finished st1) as Hnfin.
    { unfold finished. rewrite Hstk1. set_solver. }
    unfold search_post. split_and!; simpl.
    + split; rewrite ?Hfin; unfold ids; simpl; fold (ids st2).
      * rewrite Hstk2, Hvis2, Hstk1. pose proof (inv_stack _ Hinv1). set_solver.
      * rewrite Hvis2. apply (inv_visited _ Hinv1).
      * intros u [Hu|[-> Hr]]%Hids2'; [by apply (inv_sound _ Hinv1)|].
        split; [by exists r|by apply Hreach].
      * intros u v [->%elem_of_singleton|Hu]%elem_of_union Huv.
        -- apply elem_of_union_r. by apply Hsuccs.
        -- apply elem_of_union_r. by eapply (inv_closed _ Hinv1).
      * intros u [->%elem_of_singleton|Hu]%elem_of_union; [|by apply (inv_acyclic _ Hinv1)].
        intros Hcyc. apply Hnfin.
        inversion Hcyc as [? ? Hnn|? v ? Hnv Hvn]; subst; [by apply Hsuccs|].
        apply (closed_rtc h _ v); [apply (inv_closed _ Hinv1)|by apply Hsuccs|].
        by apply tc_rtc.
      * intros u [->%elem_of_singleton|Hu]%elem_of_union Hto.
        -- apply Hn2, Hreach'. destruct Hto as (o & Ho & Hno).
           inversion Hno as [|? v ? Hnv Hvo]; subst; [by left|].
           right. exists v. split; [done|by exists o].
        -- apply Hids2. by apply (inv_complete _ Hinv1).
    + rewrite Hstk2, Hstk1. set_solver.
    + rewrite Hvis2. set_solver.
    + rewrite Hvis2. set_solver.
    + set_solver.
    + by etrans.
Qed.
End SearchSpec.

Lemma same_config_fields s1 s2 :
  same_config s1 s2 →
  inputs s1 = inputs s2 ∧ outputs s1 = outputs s2 ∧ max_trials s1 = max_trials s2 ∧
  directory s1 = directory s2 ∧ _nodes s1 = _nodes s2 ∧
  _hypermodels s1 = _hypermodels s2 ∧ _hypermodel_to_id s1 = _hypermodel_to_id s2.
Proof. unfold same_config, with_node_to_id. intros [=]. done. Qed.

Definition discovered (h : Heap) (self self' : GraphAutoModel) : Prop :=
  same_config self self' ∧
  dom (_node_to_id self) ⊆ dom (_node_to_id self') ∧
  (∀ u, u ∈ dom (_node_to_id self') → on_path h (inputs self) (outputs self) u) ∧
  (∀ u, on_path h (inputs self) (outputs self) u → u ∈ dom (_node_to_id self')) ∧
  ¬ reachable_cycle h (inputs self).

Lemma discover_spec h self :
  (∀ u, u ∈ dom (_node_to_id self) → on_path h (inputs self) (outputs self) u) →
  outcome (discover h self) (discovered h self)
          (λ e, e = cycle_error ∧ reachable_cycle h (inputs self)).
Proof.
  intros Hsound. unfold discover.
  eapply outcome_mono;
    [apply (for_each_ind _ (λ pre self',
       same_config self self' ∧
       dom (_node_to_id self) ⊆ dom (_node_to_id self') ∧
       (∀ u, u ∈ dom (_node_to_id self') → on_path h (inputs self) (outputs self) u) ∧
       (∀ r n, r ∈ pre → rtc (edge h) r n →
          ¬ tc (edge h) n n ∧
          (to_outputs h (outputs self) n → n ∈ dom (_node_to_id self'))))
       (λ e, e = cycle_error ∧ reachable_cycle h (inputs self)))| |done].
  - split_and!; [done|done|done|]. by intros r n ?%elem_of_nil.
  - intros pre r post self' Hins (Hcfg & Hdom & Hsnd & Hdone).
    assert (r ∈ inputs self) as Hr by (rewrite Hins; set_solver).
    apply outcome_bind.
    destruct (same_config_fields _ _ Hcfg) as (_ & <- & _).
    eapply outcome_mono;
      [apply (search_spec h (inputs self) (outputs self) r Hr) with (st := mkSearch self' ∅ ∅)
      | |].
    + split; simpl; try done; unfold finished; simpl; set_solver.
    + simpl. set_solver.
    + done.
    + simpl. set_solver.
    + simpl. assert (all_outputs h ∖ ∅ ∖ {[r]} ⊆ all_outputs h) as ?%subseteq_size by set_solver.
      lia.
    + intros st' (Hinv & Hstk & Hvis & Hrv & Hids & Hcfg'); simpl in *.
      unfold ids in *; simpl in *.
      assert (r ∈ finished st') as Hrfin.
      { unfold finished. rewrite Hstk. set_solver. }
      split_and!.
      * by etrans.
      * set_solver.
      * apply (inv_sound _ _ _ _ _ Hinv).
      * intros r' n [Hr'| ->%list_elem_of_singleton]%elem_of_app Hrn.
        -- destruct (Hdone r' n Hr' Hrn) as [? Hin]. split; [done|]. set_solver.
        -- assert (n ∈ finished st') as Hnfin.
           { eapply closed_rtc; [apply (inv_closed _ _ _ _ _ Hinv)|done..]. }
           split; [by apply (inv_acyclic _ _ _ _ _ Hinv)|].
           by apply (inv_complete _ _ _ _ _ Hinv).
    + intros e (-> & n & Hrn & Hcyc). split; [done|]. by exists r, n.
  - intros self' (Hcfg & Hdom & Hsnd & Hdone). split_and!; try done.
    + intros u [(r & Hr & Hru) Hto]. by apply (Hdone r u).
    + intros (r & n & Hr & Hrn & Hcyc). by apply (Hdone r n).
Qed.
(** ** Breadth-first ordering of the blocks *)

(** The fields that the ordering pass leaves alone. *)
Definition same_setup (s1 s2 : GraphAutoModel) : Prop :=
  inputs s1 = inputs s2 ∧ outputs s1 = outputs s2 ∧ max_trials s1 = max_trials s2 ∧
  directory s1 = directory s2 ∧ _nodes s1 = _nodes s2.

#[global] Instance same_setup_equiv : Equivalence same_setup.
Proof.
  unfold same_setup. split.
  - by intros ?.
  - intros ?? (?&?&?&?&?). by split_and!.
  - intros ??? (?&?&?&?&?) (?&?&?&?&?). split_and!; congruence.
Qed.

Lemma _add_node_setup self n : same_setup self (_add_node self n).
Proof. unfold _add_node. by destruct (_node_to_id self !! n). Qed.

Lemma _add_node_hypermodels self n :
  _hypermodels (_add_node self n) = _hypermodels self ∧
  _hypermodel_to_id (_add_node self n) = _hypermodel_to_id self.
Proof. unfold _add_node. by destruct (_node_to_id self !! n). Qed.

Lemma foldl_add_node self l :
  same_setup self (foldl _add_node self l) ∧
  _hypermodels (foldl _add_node self l) = _hypermodels self ∧
  _hypermodel_to_id (foldl _add_node self l) = _hypermodel_to_id self ∧
  dom (_node_to_id (foldl _add_node self l)) = list_to_set l ∪ dom (_node_to_id self).
Proof.
  revert self. induction l as [|x l IH]; intros self; simpl.
  - split_and!; [done..|set_solver].
  - destruct (IH (_add_node self x)) as (Hs & Hh & Hi & Hd).
    destruct (_add_node_hypermodels self x) as [Hh' Hi'].
    split_and!.
    + etrans; [apply _add_node_setup|done].
    + congruence.
    + congruence.
    + rewrite Hd, _add_node_dom. set_solver.
Qed.

Definition block_missing_input (e : exn) : Prop :=
  ∃ name, e = missing_input_error name.

Lemma _add_hypermodel_spec h self b :
  outcome (_add_hypermodel h self b)
    (λ self',
      same_setup self self' ∧
      _hypermodels self' =
        (if decide (b ∈ _hypermodels self) then _hypermodels self
         else _hypermodels self ++ [b]) ∧
      dom (_node_to_id self') =
        list_to_set (HyperBlock.outputs (block_at h b)) ∪ dom (_node_to_id self) ∧
      (∀ i, i ∈ HyperBlock.inputs (block_at h b) → i ∈ dom (_node_to_id self')))
    block_missing_input.
Proof.
  unfold _add_hypermodel.
  set (self1 := if decide (b ∈ _hypermodels self) then self else _).
  assert (same_setup self self1 ∧ _node_to_id self1 = _node_to_id self ∧
          _hypermodels self1 =
            (if decide (b ∈ _hypermodels self) then _hypermodels self
             else _hypermodels self ++ [b])) as (Hs1 & Hn1 & Hh1).
  { unfold self1. by destruct (decide (b ∈ _hypermodels self)). }
  destruct (foldl_add_node self1 (HyperBlock.outputs (block_at h b)))
    as (Hs2 & Hh2 & _ & Hd2).
  set (self2 := foldl _add_node self1 _) in *.
  eapply outcome_mono;
    [apply (for_each_ind _ (λ pre self', self' = self2 ∧
              ∀ i, i ∈ pre → i ∈ dom (_node_to_id self')) block_missing_input)| |done].
  - split; [done|]. by intros i ?%elem_of_nil.
  - intros pre i post s _ [-> Hpre].
    destruct (decide (i ∈ dom (_node_to_id self2))); simpl; [|by eexists].
    split; [done|]. intros j [?| ->%list_elem_of_singleton]%elem_of_app; auto.
  - intros s [-> Hin]. split_and!; [by etrans|congruence|by rewrite Hd2, Hn1|done].
Qed.

Lemma enqueue_outputs_spec (U : gset nat) outs : ∀ st,
  let st' := enqueue_outputs st outs in
  os_self st' = os_self st ∧
  os_visited st ⊆ os_visited st' ∧
  (∀ o, o ∈ outs → o ∈ dom (_node_to_id (os_self st)) → o ∈ os_visited st') ∧
  (∀ n, n ∈ os_visited st' → n ∈ os_visited st ∨ (n ∈ outs ∧ n ∈ os_queue st')) ∧
  (∀ n, n ∈ os_queue st' → n ∈ os_queue st ∨ (n ∈ outs ∧ n ∈ os_visited st')) ∧
  (∀ n, n ∈ os_queue st → n ∈ os_queue st') ∧
  ((∀ o, o ∈ outs → o ∈ U) →
   length (os_queue st') + size (U ∖ os_visited st')
   ≤ length (os_queue st) + size (U ∖ os_visited st)).
Proof.
  induction outs as [|o outs IH]; intros st; simpl.
  - split_and!; try done; [by intros ? ?%elem_of_nil|auto|auto].
  - set (st1 := if decide ((o ∉ os_visited st) ∧ (o ∈ dom (_node_to_id (os_self st))))
                then _ else st).
    assert (os_self st1 = os_self st ∧
            os_visited st ⊆ os_visited st1 ∧
            (o ∈ dom (_node_to_id (os_self st)) → o ∈ os_visited st1) ∧
            (∀ n, n ∈ os_visited st1 → n ∈ os_visited st ∨ (n = o ∧ n ∈ os_queue st1)) ∧
            (∀ n, n ∈ os_queue st1 → n ∈ os_queue st ∨ (n = o ∧ n ∈ os_visited st1)) ∧
            (∀ n, n ∈ os_queue st → n ∈ os_queue st1) ∧
            (o ∈ U →
             length (os_queue st1) + size (U ∖ os_visited st1)
             ≤ length (os_queue st) + size (U ∖ os_visited st)))
      as (Hs1 & Hv1 & Ho1 & Hn1 & Hq1 & Hq1' & Hm1).
    { unfold st1.
      destruct (decide ((o ∉ os_visited st) ∧ (o ∈ dom (_node_to_id (os_self st)))))
        as [[Hnv Hid]|Hno]; simpl.
      - split_and!; try done.
        + set_solver.
        + set_solver.
        + intros n [->%elem_of_singleton|?]%elem_of_union; [|by left].
          right. split; [done|]. set_solver.
        + intros n [?| ->%list_elem_of_singleton]%elem_of_app; [by left|].
          right. split; [done|]. set_solver.
        + set_solver.
        + intros HoU. rewrite length_app; simpl.
          assert (U ∖ ({[o]} ∪ os_visited st) ⊂ U ∖ os_visited st) as ?%subset_size.
          { split; [set_solver|]. intros Hsub.
            assert (o ∈ U ∖ os_visited st) by set_solver. set_solver. }
          lia.
      - split_and!; try done; [|auto|auto].
        intros Hid. destruct (decide (o ∈ os_visited st)); [done|]. by destruct Hno. }
    destruct (IH st1) as (Hs2 & Hv2 & Ho2 & Hn2 & Hq2 & Hq2' & Hm2).
    split_and!.
    + congruence.
    + set_solver.
    + intros n [->|Hn]%elem_of_cons Hid; [by apply Hv2, Ho1|].
      apply Ho2; [done|]. by rewrite Hs1.
    + intros n [Hn|[Hn Hq]]%Hn2; [|right; split; [by right|done]].
      apply Hn1 in Hn as [?|[-> ?]]; [by left|]. right. split; [by left|auto].
    + intros n [Hn|[Hn Hq]]%Hq2; [|right; split; [by right|done]].
      apply Hq1 in Hn as [?|[-> ?]]; [by left|]. right. split; [by left|auto].
    + auto.
    + intros HU. etrans; [apply Hm2|apply Hm1].
      * intros ??. apply HU. by right.
      * apply HU. by left.
Qed.

Section OrderSpec.
Variables (h : Heap) (ins : list nat) (D : gset nat) (self0 : GraphAutoModel).

(** A block worth registering: one of its outputs was discovered. *)
Definition wanted (b : nat) : Prop :=
  ∃ o, o ∈ HyperBlock.outputs (block_at h b) ∧ o ∈ D.

(** All blocks consuming [n] have been looked at. *)
Definition expanded (st : order_state) (n : nat) : Prop :=
  ∀ b, b ∈ HyperNode.out_hypermodels (node_at h n) → wanted b →
    b ∈ _hypermodels (os_self st) ∧
    ∀ o, o ∈ HyperBlock.outputs (block_at h b) → o ∈ os_visited st.

Record order_inv (cur : option nat) (st : order_state) : Prop := OrderInv {
  oi_discovered : D ⊆ dom (_node_to_id (os_self st));
  oi_ids : ∀ o, o ∈ dom (_node_to_id (os_self st)) →
    o ∈ D ∨ ∃ b, b ∈ _hypermodels (os_self st) ∧ o ∈ HyperBlock.outputs (block_at h b);
  oi_queue : ∀ n, n ∈ os_queue st → n ∈ os_visited st;
  oi_reach : ∀ n, n ∈ os_visited st → from_inputs h ins n;
  oi_nodup : NoDup (_hypermodels (os_self st));
  oi_blocks : ∀ b, b ∈ _hypermodels (os_self st) →
    (∃ n, n ∈ os_visited st ∧ b ∈ HyperNode.out_hypermodels (node_at h n)) ∧
    (∃ o, o ∈ HyperBlock.outputs (block_at h b) ∧
       (o ∈ D ∨ ∃ b', b' ∈ _hypermodels (os_self st) ∧ b' ≠ b ∧
                      o ∈ HyperBlock.outputs (block_at h b'))) ∧
    (∀ i, i ∈ HyperBlock.inputs (block_at h b) → i ∈ dom (_node_to_id (os_self st)));
  oi_expanded : ∀ n, n ∈ os_visited st →
    n ∈ os_queue st ∨ expanded st n ∨ cur = Some n;
  oi_setup : same_setup self0 (os_self st);
}.

Definition measure (st : order_state) : nat :=
  length (os_queue st) + size (all_outputs h ∖ os_visited st).

Lemma expanded_mono st st' n :
  _hypermodels (os_self st) ⊆ _hypermodels (os_self st') →
  os_visited st ⊆ os_visited st' →
  expanded st n → expanded st' n.
Proof.
  intros Hh Hv Hexp b Hb Hw. destruct (Hexp b Hb Hw) as [? ?].
  split; [by apply Hh|]. intros o Ho. apply Hv. auto.
Qed.

Lemma visit_hypermodel_spec n st b :
  order_inv (Some n) st → n ∈ os_visited st →
  b ∈ HyperNode.out_hypermodels (node_at h n) →
  outcome (visit_hypermodel h st b)
    (λ st', order_inv (Some n) st' ∧ measure st' ≤ measure st ∧
            _hypermodels (os_self st) ⊆ _hypermodels (os_self st') ∧
            os_visited st ⊆ os_visited st' ∧
            (wanted b → b ∈ _hypermodels (os_self st') ∧
               ∀ o, o ∈ HyperBlock.outputs (block_at h b) → o ∈ os_visited st'))
    block_missing_input.
Proof.
  intros Hinv Hn Hb. unfold visit_hypermodel.
  destruct (existsb _ _) eqn:Hany; simpl.
  - (* some output has an id: the block is registered *)
    apply existsb_exists in Hany as (o0 & Ho0 & Hid0%bool_decide_eq_true).
    apply list_elem_of_In in Ho0.
    apply outcome_bind.
    eapply outcome_mono; [apply _add_hypermodel_spec| |done].
    intros self' (Hset & Hhm & Hdom & Hinp); simpl.
    set (st1 := mkOrder self' (os_visited st) (os_queue st)).
    destruct (enqueue_outputs_spec (all_outputs h)
                (HyperBlock.outputs (block_at h b)) st1)
      as (Hs & Hv & Ho & Hvn & Hqn & Hq & Hm).
    set (st' := enqueue_outputs st1 _) in *. simpl in *.
    assert (_hypermodels (os_self st) ⊆ _hypermodels self') as Hsub.
    { rewrite Hhm. destruct (decide (b ∈ _hypermodels (os_self st))); set_solver. }
    assert (b ∈ _hypermodels self') as Hbin.
    { rewrite Hhm. destruct (decide (b ∈ _hypermodels (os_self st))); set_solver. }
    assert (∀ o, o ∈ HyperBlock.outputs (block_at h b) → o ∈ os_visited st') as Hall.
    { intros o Hob. apply Ho; [done|]. rewrite Hdom. set_solver. }
    assert (∀ o, o ∈ HyperBlock.outputs (block_at h b) → edge h n o) as Hedge.
    { intros o Hob. apply elem_of_successors. eauto. }
    split_and!.
    + destruct Hinv. split; rewrite ?Hs.
      * rewrite Hdom. set_solver.
      * intros o. rewrite Hdom. intros [Hob%elem_of_list_to_set|Hold]%elem_of_union.
        -- right. eauto.
        -- destruct (oi_ids0 o Hold) as [?|(b' & ? & ?)]; [by left|].
           right. exists b'. split; [by apply Hsub|done].
      * intros m [Hm'|[_ ?]]%Hqn; [|done]. by apply Hv, oi_queue0.
      * intros m [Hm'|[Hmb _]]%Hvn; [by apply oi_reach0|].
        destruct (oi_reach0 n Hn) as (r & Hr & Hrn).
        exists r. split; [done|]. eapply rtc_r; [done|by apply Hedge].
      * rewrite Hhm. destruct (decide (b ∈ _hypermodels (os_self st))); [done|].
        apply NoDup_app. split_and!; [done| |apply NoDup_singleton].
        intros x Hx ->%list_elem_of_singleton. done.
      * intros b0. rewrite Hhm.
        destruct (decide (b ∈ _hypermodels (os_self st))) as [Hbold|Hbnew].
        -- intros Hb0. destruct (oi_blocks0 b0 Hb0) as ((m & Hm1 & Hm2) & (o & Ho1 & Ho2) & Hi).
           split_and!.
           ++ exists m. split; [by apply Hv|done].
           ++ exists o. split; [done|]. done.
           ++ intros i Hi0. rewrite Hdom. apply elem_of_union_r. by apply Hi.
        -- intros [Hb0| ->%list_elem_of_singleton]%elem_of_app.
           ++ destruct (oi_blocks0 b0 Hb0) as ((m & Hm1 & Hm2) & (o & Ho1 & Ho2) & Hi).
              split_and!.
              ** exists m. split; [by apply Hv|done].
              ** exists o. split; [done|].
                 destruct Ho2 as [?|(b' & ? & ? & ?)]; [by left|].
                 right. exists b'. split_and!; [set_solver|done|done].
              ** intros i Hi0. rewrite Hdom. apply elem_of_union_r. by apply Hi.
           ++ split_and!.
              ** exists n. split; [by apply Hv|done].
              ** exists o0. split; [done|].
                 destruct (oi_ids0 o0 Hid0) as [?|(b' & Hb' & ?)]; [by left|].
                 right. exists b'. split_and!; [set_solver| |done].
                 intros ->. done.
              ** done.
      * intros m [Hm'|[Hmb Hmq]]%Hvn; [|by left].
        destruct (oi_expanded0 m Hm') as [?|[?|?]]; [left; by apply Hq| |by right; right].
        right; left. eapply expanded_mono; [| |done]; by rewrite ?Hs.
      * by etrans.
    + unfold measure. etrans; [apply Hm|done].
      intros o Hob. apply elem_of_all_outputs. eauto.
    + by rewrite Hs.
    + done.
    + intros _. by rewrite Hs.
  - (* no output has an id: the block is skipped *)
    split_and!; try done.
    intros (o & Ho & HoD). exfalso.
    assert (existsb (λ output_node,
              bool_decide (output_node ∈ dom (_node_to_id (os_self st))))
            (HyperBlock.outputs (block_at h b)) = true) as Hex; [|congruence].
    apply existsb_exists. exists o. split; [by apply list_elem_of_In|].
    apply bool_decide_eq_true. by apply (oi_discovered _ _ Hinv).
Qed.

Lemma order_loop_spec fuel : ∀ st,
  order_inv None st → measure st ≤ fuel →
  outcome (order_loop fuel h st)
    (λ self', ∃ visited,
       order_inv None (mkOrder self' visited []) ∧ os_visited st ⊆ visited)
    block_missing_input.
Proof.
  induction fuel as [|fuel IH]; intros [self visited queue] Hinv Hfuel;
    unfold measure in Hfuel; simpl in *.
  - destruct queue as [|n queue]; simpl in *; [|lia]. exists visited. done.
  - destruct queue as [|n queue]; simpl in *; [exists visited; done|].
    apply outcome_bind.
    set (st1 := mkOrder self visited queue).
    assert (n ∈ visited) as Hn.
    { apply (oi_queue _ _ Hinv). by left. }
    assert (order_inv (Some n) st1) as Hinv1.
    { destruct Hinv. split; simpl in *; try done.
      - intros m Hm. apply oi_queue0. by right.
      - intros m Hm.
        destruct (oi_expanded0 m Hm) as [[->|?]%elem_of_cons|[?|?]];
          [by right; right|by left|by right; left|done]. }
    eapply outcome_mono;
      [apply (for_each_ind _ (λ pre st,
         order_inv (Some n) st ∧ measure st ≤ fuel ∧ visited ⊆ os_visited st ∧
         ∀ b, b ∈ pre → wanted b →
           b ∈ _hypermodels (os_self st) ∧
           ∀ o, o ∈ HyperBlock.outputs (block_at h b) → o ∈ os_visited st)
         block_missing_input)| |done].
    + split_and!; [done|unfold measure; simpl; lia|done|by intros b ?%elem_of_nil].
    + intros pre b post st Hsplit (Hinv2 & Hm2 & Hv2 & Hpre).
      eapply outcome_mono; [apply (visit_hypermodel_spec n st b)| |done].
      * done.
      * by apply Hv2.
      * rewrite Hsplit. set_solver.
      * intros st' (Hinv3 & Hm3 & Hh3 & Hv3 & Hb3). split_and!; [done|lia|set_solver|].
        intros b0 [Hb0| ->%list_elem_of_singleton]%elem_of_app Hw; [|by apply Hb3].
        destruct (Hpre b0 Hb0 Hw) as [? ?]. split; [by apply Hh3|]. intros o Ho.
        apply Hv3. auto.
    + intros st2 (Hinv2 & Hm2 & Hv2 & Hdone). simpl.
      eapply outcome_mono; [apply IH| |done].
      * destruct Hinv2. split; try done.
        intros m Hm. destruct (oi_expanded0 m Hm) as [?|[?|[= ->]]]; auto.
      * done.
      * intros self' (visited' & ? & ?). exists visited'. split; [done|]. set_solver.
Qed.

(** When the queue has drained, every discovered node was visited and
    every block between two discovered nodes is registered. *)
Lemma order_visits self visited outs n :
  order_inv None (mkOrder self visited []) →
  (∀ r, r ∈ ins → r ∈ visited) →
  (∀ m, on_path h ins outs m → m ∈ D) →
  on_path h ins outs n → n ∈ visited.
Proof.
  intros Hinv Hins HD [(r & Hr & Hrn) Hto].
  revert Hto. pattern n. revert n Hrn. apply rtc_ind_r.
  - intros _. by apply Hins.
  - intros m n Hrm Hmn IHr Hto.
    assert (to_outputs h outs m) as Hmto.
    { destruct Hto as (o & Ho & Hno). exists o. split; [done|]. by eapply rtc_l. }
    assert (n ∈ D) as HnD.
    { apply HD. split; [|done]. exists r. split; [done|]. by eapply rtc_r. }
    specialize (IHr Hmto).
    destruct (oi_expanded _ _ Hinv m IHr) as [?%elem_of_nil|[Hexp|?]]; [done| |done].
    apply elem_of_successors in Hmn as (b & Hb & Hnb).
    destruct (Hexp b Hb) as [_ Hvis]; [by exists n|]. by apply Hvis.
Qed.

Lemma order_complete self visited outs n b o :
  order_inv None (mkOrder self visited []) →
  (∀ r, r ∈ ins → r ∈ visited) →
  (∀ m, on_path h ins outs m → m ∈ D) →
  from_inputs h ins n →
  b ∈ HyperNode.out_hypermodels (node_at h n) →
  o ∈ HyperBlock.outputs (block_at h b) →
  to_outputs h outs o →
  b ∈ _hypermodels self.
Proof.
  intros Hinv Hins HD Hfrom Hb Ho Hto.
  assert (edge h n o) as Hedge by (apply elem_of_successors; eauto).
  assert (n ∈ visited) as Hn.
  { eapply order_visits; try done. split; [done|].
    destruct Hto as (o' & ? & ?). exists o'. split; [done|]. by eapply rtc_l. }
  assert (o ∈ D) as HoD.
  { apply HD. split; [|done]. destruct Hfrom as (r & ? & ?).
    exists r. split; [done|]. by eapply rtc_r. }
  destruct (oi_expanded _ _ Hinv n Hn) as [?%elem_of_nil|[Hexp|?]]; [done| |done].
  apply Hexp; [done|]. by exists o.
Qed.
End OrderSpec.

(** ** [_build_network] as a whole *)

Definition connected (h : Heap) (ins outs : list nat) : Prop :=
  ∀ x, x ∈ ins ++ outs → on_path h ins outs x.

Lemma check_connected_spec (m : gmap nat nat) (l : list nat) :
  outcome (for_each l tt (λ _ node,
             if decide (node ∈ dom m) then Ok tt else Raise not_connected_error))
    (λ _, ∀ x, x ∈ l → x ∈ dom m)
    (λ e, e = not_connected_error ∧ ∃ x, x ∈ l ∧ x ∉ dom m).
Proof.
  eapply outcome_mono;
    [apply (for_each_ind _ (λ pre _, ∀ x, x ∈ pre → x ∈ dom m)
              (λ e, e = not_connected_error ∧ ∃ x, x ∈ l ∧ x ∉ dom m))|done|done].
  - by intros x ?%elem_of_nil.
  - intros pre x post [] -> Hpre. destruct (decide (x ∈ dom m)); simpl.
    + intros y [?| ->%list_elem_of_singleton]%elem_of_app; auto.
    + split; [done|]. exists x. split; [set_solver|done].
Qed.

Lemma seed_queue self ins : ∀ V Q,
  foldl (λ st input_node,
           mkOrder (os_self st) ({[input_node]} ∪ os_visited st)
                   (os_queue st ++ [input_node]))
        (mkOrder self V Q) ins
  = mkOrder self (list_to_set ins ∪ V) (Q ++ ins).
Proof.
  induction ins as [|x ins IH]; intros V Q; simpl.
  - f_equal; [set_solver|by rewrite app_nil_r].
  - rewrite IH. f_equal; [set_solver|by rewrite <-app_assoc].
Qed.

Lemma finalize_spec outs : ∀ h,
  outcome (for_each outs h set_output_shape) (λ _, True) (λ e, e = IndexError).
Proof.
  induction outs as [|o outs IH]; intros h; simpl; [exact I|].
  apply outcome_bind. unfold set_output_shape.
  destruct (HyperNode.in_hypermodels (node_at h o)); simpl; [done|]. apply IH.
Qed.

(** What a successful construction establishes. *)
Record constructed (h : Heap) (self self' : GraphAutoModel) (h' : Heap) : Prop := {
  c_inputs : inputs self' = inputs self;
  c_outputs : outputs self' = outputs self;
  c_max_trials : max_trials self' = max_trials self;
  c_directory : directory self' = directory self;
  c_acyclic : ¬ reachable_cycle h (inputs self);
  c_connected : connected h (inputs self) (outputs self);
  c_induced : ∀ u, on_path h (inputs self) (outputs self) u → u ∈ dom (_node_to_id self');
  c_ids : ∀ u, u ∈ dom (_node_to_id self') →
    on_path h (inputs self) (outputs self) u ∨
    ∃ b, b ∈ _hypermodels self' ∧ u ∈ HyperBlock.outputs (block_at h b);
  c_nodup : NoDup (_hypermodels self');
  c_blocks : ∀ b, b ∈ _hypermodels self' →
    (∃ n, from_inputs h (inputs self) n ∧ b ∈ HyperNode.out_hypermodels (node_at h n)) ∧
    (∃ o, o ∈ HyperBlock.outputs (block_at h b) ∧
       (on_path h (inputs self) (outputs self) o ∨
        ∃ b', b' ∈ _hypermodels self' ∧ b' ≠ b ∧ o ∈ HyperBlock.outputs (block_at h b'))) ∧
    (∀ i, i ∈ HyperBlock.inputs (block_at h b) → i ∈ dom (_node_to_id self'));
  c_complete : ∀ n b o,
    from_inputs h (inputs self) n →
    b ∈ HyperNode.out_hypermodels (node_at h n) →
    o ∈ HyperBlock.outputs (block_at h b) →
    to_outputs h (outputs self) o →
    b ∈ _hypermodels self';
  c_heap : for_each (outputs self) h set_output_shape = Ok h';
}.

(** Which exception a failed construction raises, and why. *)
Definition construction_error (h : Heap) (self : GraphAutoModel) (e : exn) : Prop :=
  (e = cycle_error ∧ reachable_cycle h (inputs self)) ∨
  (¬ reachable_cycle h (inputs self) ∧
   ((e = not_connected_error ∧ ¬ connected h (inputs self) (outputs self)) ∨
    (connected h (inputs self) (outputs self) ∧
     (block_missing_input e ∨ e = IndexError)))).

Lemma _build_network_spec h self :
  outcome (_build_network h self)
          (λ r, constructed h self r.1 r.2) (construction_error h self).
Proof.
  unfold _build_network. apply outcome_bind.
  eapply outcome_mono; [apply discover_spec| |].
  { simpl. set_solver. }
  2: { simpl. intros e [-> ?]. by left. }
  simpl. intros self1 (Hcfg & _ & Hsound & Hcompl & Hacyc).
  destruct (same_config_fields _ _ Hcfg) as (Hi & Ho & Hmt & Hdir & _); simpl in *.
  apply outcome_bind. simpl.
  eapply outcome_mono; [apply check_connected_spec| |]; simpl.
  2: { intros e (-> & x & Hx & Hnx). right. split; [done|]. left. split; [done|].
       intros Hconn. apply Hnx, Hcompl, Hconn. by rewrite Hi, Ho. }
  intros _ Hchk.
  assert (connected h (inputs self) (outputs self)) as Hconn.
  { intros x Hx. apply Hsound, Hchk. by rewrite <-Hi, <-Ho. }
  rewrite seed_queue. simpl.
  set (self2 := with_hypermodels _ _ _).
  set (D := dom (_node_to_id self1)).
  apply outcome_bind.
  eapply outcome_mono;
    [apply (order_loop_spec h (inputs self) D self2)| |]; simpl.
  - split; simpl; try done.
    + by left.
    + intros n. rewrite <-Hi. set_solver.
    + intros n Hn. exists n. split; [|done]. rewrite Hi. set_solver.
    + apply NoDup_nil_2.
    + by intros b ?%elem_of_nil.
    + intros n Hn. left. set_solver.
  - unfold measure; simpl.
    assert (all_outputs h ∖ (list_to_set (inputs self1) ∪ ∅) ⊆ all_outputs h)
      as ?%subseteq_size by set_solver.
    lia.
  - intros self3 (visited & Hinv & Hvis).
    destruct (oi_setup _ _ _ _ _ _ Hinv) as (Hi3 & Ho3 & Hmt3 & Hdir3 & _); simpl in *.
    rewrite <-Ho3, <-Ho.
    pose proof (finalize_spec (outputs self) h) as Hfin.
    destruct (for_each (outputs self) h set_output_shape) as [h'| |] eqn:Hheap;
      simpl in *; [|by right; split; [|right; split; [|right]]|done].
    assert (∀ r, r ∈ inputs self → r ∈ visited) as Hseed.
    { intros r Hr. apply Hvis. rewrite <-Hi. set_solver. }
    assert (∀ m, on_path h (inputs self) (outputs self) m → m ∈ D) as HD.
    { intros m Hm. by apply Hcompl. }
    destruct Hinv; simpl in *.
    split; simpl; [congruence..|done|done| | |done| | |done].
    + intros u Hu. apply (oi_discovered0 u). by apply HD.
    + intros u Hu. destruct (oi_ids0 u Hu) as [?|?]; [left; by apply Hsound|by right].
    + intros b Hb. destruct (oi_blocks0 b Hb) as ((n & Hn & Hbn) & (o & Hob & Ho') & Hin).
      split_and!; [| |done].
      * exists n. split; [by apply oi_reach0|done].
      * exists o. split; [done|]. destruct Ho' as [?|?]; [left; by apply Hsound|by right].
    + intros n b o Hn Hb Hob Hto.
      by eapply (order_complete h (inputs self) D self2 self3 visited (outputs self)).
  - intros e He. right. split; [done|]. right. split; [done|]. by left.
Qed.
(** ** Dependence on the topology only *)

(** The edge bookkeeping of a heap: for every node its producers and
    consumers, for every block its inputs and outputs.  Names and shapes are
    left out. *)
Definition topology (h : Heap) : list (list nat * list nat) * list (list nat * list nat) :=
  ((λ nd, (HyperNode.in_hypermodels nd, HyperNode.out_hypermodels nd)) <$> nodes h,
   (λ b, (HyperBlock.inputs b, HyperBlock.outputs b)) <$> blocks h).

Lemma topology_node h n :
  (HyperNode.in_hypermodels (node_at h n), HyperNode.out_hypermodels (node_at h n))
  = default ([], []) ((topology h).1 !! n).
Proof.
  unfold topology, node_at. simpl. rewrite list_lookup_fmap.
  by destruct (nodes h !! n).
Qed.

Lemma topology_block h b :
  (HyperBlock.inputs (block_at h b), HyperBlock.outputs (block_at h b))
  = default ([], []) ((topology h).2 !! b).
Proof.
  unfold topology, block_at. simpl. rewrite list_lookup_fmap.
  by destruct (blocks h !! b).
Qed.

Section Topology.
Variables h1 h2 : Heap.
Hypothesis Htopo : topology h1 = topology h2.

Lemma same_in_hypermodels n :
  HyperNode.in_hypermodels (node_at h1 n) = HyperNode.in_hypermodels (node_at h2 n).
Proof.
  pose proof (topology_node h1 n) as H1. pose proof (topology_node h2 n) as H2.
  rewrite Htopo in H1. congruence.
Qed.

Lemma same_out_hypermodels n :
  HyperNode.out_hypermodels (node_at h1 n) = HyperNode.out_hypermodels (node_at h2 n).
Proof.
  pose proof (topology_node h1 n) as H1. pose proof (topology_node h2 n) as H2.
  rewrite Htopo in H1. congruence.
Qed.

Lemma same_inputs b :
  HyperBlock.inputs (block_at h1 b) = HyperBlock.inputs (block_at h2 b).
Proof.
  pose proof (topology_block h1 b) as H1. pose proof (topology_block h2 b) as H2.
  rewrite Htopo in H1. congruence.
Qed.

Lemma same_outputs b :
  HyperBlock.outputs (block_at h1 b) = HyperBlock.outputs (block_at h2 b).
Proof.
  pose proof (topology_block h1 b) as H1. pose proof (topology_block h2 b) as H2.
  rewrite Htopo in H1. congruence.
Qed.

Lemma same_all_outputs : all_outputs h1 = all_outputs h2.
Proof.
  apply set_eq. intros o. rewrite !elem_of_all_outputs.
  split; intros [b Hb]; exists b; by rewrite ?same_outputs in *.
Qed.

Lemma _search_network_topology fuel outs : ∀ n st,
  _search_network fuel h1 outs n st = _search_network fuel h2 outs n st.
Proof.
  induction fuel as [|fuel IH]; intros n st; [done|].
  rewrite !_search_network_S. unfold successors.
  rewrite same_out_hypermodels.
  erewrite (list_fmap_ext _ (λ b, HyperBlock.outputs (block_at h2 b)));
    [|intros; apply same_outputs].
  f_equal. apply for_each_ext. intros acc v _. unfold search_step.
  by rewrite IH.
Qed.

Lemma discover_topology self : discover h1 self = discover h2 self.
Proof.
  unfold discover. rewrite same_all_outputs. apply for_each_ext.
  intros s r _. by rewrite _search_network_topology.
Qed.

(** Two runs that end the same way: with the same value, or both with an
    exception (whose message may quote a block name). *)
Definition agree {A} (r1 r2 : res A) : Prop :=
  match r1, r2 with
  | Ok a1, Ok a2 => a1 = a2
  | Raise _, Raise _ => True
  | OutOfFuel, OutOfFuel => True
  | _, _ => False
  end.

Lemma agree_refl {A} (r : res A) : agree r r.
Proof. by destruct r. Qed.

Lemma agree_bind {A B} (r1 r2 : res A) (k1 k2 : A → res B) :
  agree r1 r2 → (∀ a, agree (k1 a) (k2 a)) → agree (r1 ≫= k1) (r2 ≫= k2).
Proof. destruct r1, r2; simpl; try done. intros -> Hk. apply Hk. Qed.

Lemma agree_for_each {A S} (l : list A) (body1 body2 : S → A → res S) : ∀ s,
  (∀ s x, agree (body1 s x) (body2 s x)) →
  agree (for_each l s body1) (for_each l s body2).
Proof.
  induction l as [|x l IH]; intros s Hb; simpl; [done|].
  apply agree_bind; [apply Hb|]. intros s'. by apply IH.
Qed.

Lemma _add_hypermodel_topology self b :
  agree (_add_hypermodel h1 self b) (_add_hypermodel h2 self b).
Proof.
  unfold _add_hypermodel. rewrite same_outputs, same_inputs.
  apply agree_for_each. intros s i. by destruct (decide _).
Qed.

Lemma visit_hypermodel_topology st b :
  agree (visit_hypermodel h1 st b) (visit_hypermodel h2 st b).
Proof.
  unfold visit_hypermodel. rewrite same_outputs.
  destruct (negb _); [done|].
  apply agree_bind; [apply _add_hypermodel_topology|]. by intros self.
Qed.

Lemma order_loop_topology fuel : ∀ st,
  agree (order_loop fuel h1 st) (order_loop fuel h2 st).
Proof.
  induction fuel as [|fuel IH]; intros st; simpl.
  - by destruct (os_queue st).
  - destruct (os_queue st) as [|n queue]; [done|].
    rewrite same_out_hypermodels.
    apply agree_bind; [|done].
    apply agree_for_each, visit_hypermodel_topology.
Qed.
End Topology.

Definition same_end {A} (r1 r2 : res A) : Prop :=
  match r1, r2 with
  | Ok _, Ok _ => True
  | Raise _, Raise _ => True
  | OutOfFuel, OutOfFuel => True
  | _, _ => False
  end.

Lemma set_output_shape_node_at h o h' n :
  set_output_shape h o = Ok h' → node_at h' n = node_at h n.
Proof.
  unfold set_output_shape.
  destruct (HyperNode.in_hypermodels (node_at h o)); [done|]. by intros [= <-].
Qed.

Lemma set_output_shape_outcome h o :
  match set_output_shape h o with
  | Ok _ => HyperNode.in_hypermodels (node_at h o) ≠ []
  | Raise _ => HyperNode.in_hypermodels (node_at h o) = []
  | OutOfFuel => False
  end.
Proof.
  unfold set_output_shape. by destruct (HyperNode.in_hypermodels (node_at h o)).
Qed.

Lemma finalize_topology outs : ∀ h1 h2,
  (∀ n, HyperNode.in_hypermodels (node_at h1 n) = HyperNode.in_hypermodels (node_at h2 n)) →
  same_end (for_each outs h1 set_output_shape) (for_each outs h2 set_output_shape).
Proof.
  induction outs as [|o outs IH]; intros h1 h2 Hin; [done|].
  change (same_end (set_output_shape h1 o ≫= λ h, for_each outs h set_output_shape)
                   (set_output_shape h2 o ≫= λ h, for_each outs h set_output_shape)).
  pose proof (set_output_shape_outcome h1 o) as H1.
  pose proof (set_output_shape_outcome h2 o) as H2.
  pose proof (set_output_shape_node_at h1 o) as N1.
  pose proof (set_output_shape_node_at h2 o) as N2.
  rewrite Hin in H1.
  destruct (set_output_shape h1 o) as [h1'| |], (set_output_shape h2 o) as [h2'| |];
    simpl; try done.
  apply IH. intros n. by rewrite (N1 h1' n), (N2 h2' n).
Qed.

(** ** The finalization loop *)

Lemma block_at_update h b f b' :
  block_at (update_block h b f) b' =
  if decide (b = b' ∧ b < length (blocks h)) then f (block_at h b) else block_at h b'.
Proof.
  unfold block_at, update_block; simpl.
  destruct (decide (b = b' ∧ b < length (blocks h))) as [[<- Hlt]|Hno].
  - rewrite list_lookup_alter_eq.
    apply lookup_lt_is_Some_2 in Hlt as [blk Hblk]. by rewrite Hblk.
  - destruct (decide (b = b')) as [<-|Hne].
    + rewrite list_lookup_alter_eq.
      destruct (blocks h !! b) as [blk|] eqn:Hb; [|done].
      apply lookup_lt_Some in Hb. tauto.
    + by rewrite list_lookup_alter_ne.
Qed.

Lemma finalize_frame outs : ∀ h h',
  for_each outs h set_output_shape = Ok h' →
  (∀ n, node_at h' n = node_at h n) ∧
  length (blocks h') = length (blocks h) ∧
  (∀ b, (∀ o, o ∈ outs → head (HyperNode.in_hypermodels (node_at h o)) ≠ Some b) →
        block_at h' b = block_at h b).
Proof.
  induction outs as [|o outs IH]; intros h h' Hrun.
  - injection Hrun as <-. done.
  - change (set_output_shape h o ≫= (λ h, for_each outs h set_output_shape) = Ok h') in Hrun.
    destruct (set_output_shape h o) as [h1| |] eqn:Hstep; simpl in Hrun; [|done..].
    destruct (IH h1 h' Hrun) as (Hn & Hlen & Hb).
    pose proof (λ n, set_output_shape_node_at h o h1 n Hstep) as Hn1.
    unfold set_output_shape in Hstep.
    destruct (HyperNode.in_hypermodels (node_at h o)) as [|b0 bs] eqn:Hin; [done|].
    injection Hstep as <-. split_and!.
    + intros n. by rewrite Hn, Hn1.
    + rewrite Hlen. simpl. by rewrite length_alter.
    + intros b Hnot. rewrite Hb.
      * rewrite block_at_update. case_decide as Hc; [|done].
        destruct Hc as [-> _]. destruct (Hnot o); [by left|]. by rewrite Hin.
      * intros o' Ho'. rewrite Hn1. apply Hnot. by right.
Qed.

(** ** Example graphs *)

(** The object that [__init__] hands to [_build_network]; the trial budget
    and the directory play no part in construction. *)
Definition model (ins outs : list nat) : GraphAutoModel :=
  mkModel ins outs 0 EmptyString ∅ [] [] ∅.

(** Scenario 1: [i = Input(); o = Block()(i)]. *)
Definition chain_heap : Heap :=
  let '(h, i) := alloc_node empty_heap HyperNode.new in
  let '(h, b) := alloc_block h (HyperBlock.new "block") in
  (HyperBlock_call h b [i]).1.

(** [i = Input(); n1 = A(i); n2 = B(n1); out = D([i, n2])]: a merge whose
    two inputs sit at different depths.  Nodes: i = 0, n1 = 1, n2 = 2,
    out = 3; blocks: A = 0, B = 1, D = 2. *)
Definition skip_heap : Heap :=
  let '(h, i) := alloc_node empty_heap HyperNode.new in
  let '(h, a) := alloc_block h (HyperBlock.new "A") in
  let '(h, b) := alloc_block h (HyperBlock.new "B") in
  let '(h, d) := alloc_block h (HyperBlock.new "D") in
  let '(h, n1) := HyperBlock_call h a [i] in
  let '(h, n2) := HyperBlock_call h b n1 in
  (HyperBlock_call h d (i :: n2)).1.

(** Scenario 2: [i1 = Input(); i2 = Input(); out = Merge()([i1, i2])].
    Nodes: i1 = 0, i2 = 1, out = 2. *)
Definition merge_heap : Heap :=
  let '(h, i1) := alloc_node empty_heap HyperNode.new in
  let '(h, i2) := alloc_node h HyperNode.new in
  let '(h, m) := alloc_block h (HyperBlock.new "Merge") in
  (HyperBlock_call h m [i1; i2]).1.

(** A block with two output nodes, only the first of which is a designated
    output: [i = Input(); o, x = B(i)].  Nodes: i = 0, o = 1, x = 2. *)
Definition fork_heap : Heap :=
  let '(h, i) := alloc_node empty_heap HyperNode.new in
  let '(h, b) := alloc_block h (HyperBlock.mk "B" [] [] 2 None) in
  (HyperBlock_call h b [i]).1.

(** [x = Input(); o = B(x); out = C(o)], with the middle node [o] as the
    designated input.  Nodes: x = 0, o = 1, out = 2; blocks: B = 0, C = 1. *)
Definition tail_heap : Heap :=
  let '(h, x) := alloc_node empty_heap HyperNode.new in
  let '(h, b) := alloc_block h (HyperBlock.new "B") in
  let '(h, c) := alloc_block h (HyperBlock.new "C") in
  let '(h, o) := HyperBlock_call h b [x] in
  (HyperBlock_call h c o).1.

(** A node consumed by a block that outputs the node itself (such a graph
    cannot come out of [HyperBlock.__call__], only out of assigning the
    attributes by hand), next to a second node with no block at all. *)
Definition loop_heap (n : nat) : Heap :=
  mkHeap (<[n := HyperNode.mk None [0] [0]]> [HyperNode.new; HyperNode.new])
         [HyperBlock.mk "loop" [n] [n] 1 None].

(** Scenario 5: two nodes and no block; the second one, taken as the
    designated output, has no producer. *)
Definition orphan_heap : Heap := mkHeap [HyperNode.new; HyperNode.new] [].

Lemma loop_heap_edge n a b :
  n < 2 → edge (loop_heap n) a b ↔ a = n ∧ b = n.
Proof.
  intros Hn. unfold edge.
  destruct n as [|[|n]]; [| |lia];
    destruct a as [|[|a]]; vm_compute successors;
    rewrite ?elem_of_nil, ?list_elem_of_singleton; naive_solver.
Qed.

Lemma loop_heap_cycle n m :
  n < 2 → tc (edge (loop_heap n)) m m ↔ m = n.
Proof.
  intros Hn. split.
  - intros Hc. inversion Hc as [? ? He|? ? ? He _]; subst;
      apply (loop_heap_edge _ _ _ Hn) in He; by destruct He.
  - intros ->. apply tc_once. by apply (loop_heap_edge _ _ _ Hn).
Qed.

Lemma loop_heap_reach n m :
  n < 2 → rtc (edge (loop_heap n)) n m → m = n.
Proof.
  intros Hn Hr. remember n as a eqn:Ha in Hr at 2. revert Ha.
  induction Hr as [|a b c He _ IH]; intros Ha; [done|].
  apply (loop_heap_edge _ _ _ Hn) in He. destruct He as [_ ->]. auto.
Qed.

Lemma orphan_heap_edge a b : ¬ edge orphan_heap a b.
Proof.
  unfold edge. destruct a as [|[|a]]; simpl; apply not_elem_of_nil.
Qed.

(** The chain graph under another block name and with the shapes that [fit]
    assigns to the input and output nodes. *)
Definition shaped_chain_heap : Heap :=
  let '(h, i) := alloc_node empty_heap (HyperNode.set_shape HyperNode.new (Some [28; 28])) in
  let '(h, b) := alloc_block h (HyperBlock.new "other") in
  let '(h, outs) := HyperBlock_call h b [i] in
  foldl (λ h o, update_node h o (λ nd, HyperNode.set_shape nd (Some [10]))) h outs.

(** ** The claims *)

(** C1 (defect of the code).  The claim asks that, on a valid graph, every
    input of a block be a designated input or an output of a block strictly
    earlier in the order, so that [build] finds its value.  On the
    skip-connection graph (acyclic and connected, construction succeeds) the
    order is [A; D; B]: the merge block [D] precedes [B], which produces its
    input [n2], and [build] raises [KeyError] when it looks that input up. *)
Theorem C1_skip_connection_breaks_build :
  ∃ self h',
    _build_network skip_heap (model [0] [3]) = Ok (self, h') ∧
    ¬ reachable_cycle skip_heap [0] ∧
    connected skip_heap [0] [3] ∧
    _hypermodels self = [0; 2; 1] ∧
    HyperBlock.inputs (block_at h' 2) = [0; 2] ∧
    HyperBlock.outputs (block_at h' 1) = [2] ∧
    _node_to_id self !! 2 = Some 1 ∧
    build (λ _ _, tt) (λ _ _ _, [tt]) h' self tt = Raise (KeyError 1).
Proof.
  pose proof (_build_network_spec skip_heap (model [0] [3])) as Hspec.
  destruct (_build_network skip_heap (model [0] [3])) as [[self h']| |] eqn:Hrun;
    [|by vm_compute in Hrun..].
  exists self, h'. destruct Hspec as [_ _ _ _ Hacyc Hconn _ _ _ _ _ _].
  split_and!; [done|done|done|..];
    vm_compute in Hrun; injection Hrun as <- <-; by vm_compute.
Qed.

(** C2 as the claim states it: every reachable cycle makes construction
    raise an exception from which the offending node, a node on a cycle of
    the graph at hand, can be read off. *)
Definition cycle_error_names_node : Prop :=
  ∃ named : exn → nat, ∀ h self,
    reachable_cycle h (inputs self) →
    ∃ e, _build_network h self = Raise e ∧ tc (edge h) (named e) (named e).

(** The exception is the same for a loop at node 0 and for a loop at node 1:
    no node can be read off it. *)
Lemma C2_error_names_no_node : ¬ cycle_error_names_node.
Proof.
  intros (named & Hnamed).
  destruct (Hnamed (loop_heap 0) (model [0] [1])) as (e0 & Hrun0 & Hc0).
  { exists 0, 0. split_and!; [by left|done|]. apply loop_heap_cycle; [lia|done]. }
  destruct (Hnamed (loop_heap 1) (model [1] [0])) as (e1 & Hrun1 & Hc1).
  { exists 1, 1. split_and!; [by left|done|]. apply loop_heap_cycle; [lia|done]. }
  vm_compute in Hrun0. vm_compute in Hrun1.
  injection Hrun0 as <-. injection Hrun1 as <-.
  apply loop_heap_cycle in Hc0; [|lia]. apply loop_heap_cycle in Hc1; [|lia].
  congruence.
Qed.

(** C2 (amended).  For every graph with a cycle reachable from a designated
    input, construction raises [ValueError('The network has a cycle.')], a
    fixed message, and produces no block order. *)
Theorem C2_reachable_cycle_raises h self :
  reachable_cycle h (inputs self) → _build_network h self = Raise cycle_error.
Proof.
  intros Hcyc. pose proof (_build_network_spec h self) as Hspec.
  destruct (_build_network h self) as [[self' h']|e|]; simpl in Hspec.
  - by destruct (c_acyclic _ _ _ _ Hspec).
  - destruct Hspec as [[-> _]|[? _]]; done.
  - done.
Qed.

Lemma C2_reachable_cycle_raises_witness :
  reachable_cycle (loop_heap 0) (inputs (model [0] [1])) ∧
  _build_network (loop_heap 0) (model [0] [1]) = Raise cycle_error.
Proof.
  assert (reachable_cycle (loop_heap 0) (inputs (model [0] [1]))) as Hcyc.
  { exists 0, 0. split_and!; [by left|done|].
    apply tc_once. unfold edge. simpl. by left. }
  split; [exact Hcyc|]. exact (C2_reachable_cycle_raises _ _ Hcyc).
Defined.

(** C3 as the claim states it: a designated node off every path makes
    construction raise the connectivity error. *)
Definition disconnection_reported (h : Heap) (self : GraphAutoModel) : Prop :=
  (∃ x, x ∈ inputs self ++ outputs self ∧
        ¬ on_path h (inputs self) (outputs self) x) →
  _build_network h self = Raise not_connected_error.

(** With a loop at the designated input and an orphan designated output,
    discovery raises the cycle error before the connectivity check runs. *)
Lemma C3_cycle_error_comes_first :
  ¬ disconnection_reported (loop_heap 0) (model [0] [1]).
Proof.
  intros Hrep. assert (_build_network (loop_heap 0) (model [0] [1])
                       = Raise not_connected_error) as Hrun; [|by vm_compute in Hrun].
  apply Hrep. exists 1. split; [simpl; set_solver|].
  intros [(r & Hr & Hreach) _]. simpl in Hr.
  apply list_elem_of_singleton in Hr as ->.
  apply loop_heap_reach in Hreach; [done|lia].
Qed.

(** C3 (amended).  For every graph with no cycle reachable from a designated
    input, if some designated input or output lies on no path to the other
    side, construction raises [ValueError('Inputs and outputs not
    connected.')] after discovery and produces no block order. *)
Theorem C3_disconnected_raises h self :
  ¬ reachable_cycle h (inputs self) →
  (∃ x, x ∈ inputs self ++ outputs self ∧
        ¬ on_path h (inputs self) (outputs self) x) →
  _build_network h self = Raise not_connected_error.
Proof.
  intros Hacyc (x & Hx & Hoff). pose proof (_build_network_spec h self) as Hspec.
  destruct (_build_network h self) as [[self' h']|e|]; simpl in Hspec.
  - destruct Hoff. by apply (c_connected _ _ _ _ Hspec).
  - destruct Hspec as [[_ ?]|[_ [[-> _]|[Hconn _]]]]; [done|done|].
    destruct Hoff. by apply Hconn.
  - done.
Qed.

Lemma C3_disconnected_raises_witness :
  _build_network orphan_heap (model [0] [1]) = Raise not_connected_error.
Proof.
  apply C3_disconnected_raises.
  - intros (r & n & _ & _ & Hc).
    inversion Hc as [? ? He|? ? ? He _]; by apply orphan_heap_edge in He.
  - exists 1. split; [simpl; set_solver|].
    intros [(r & Hr & Hreach) _]. simpl in Hr.
    apply list_elem_of_singleton in Hr as ->.
    inversion Hreach as [|? ? ? He _]; by apply orphan_heap_edge in He.
Defined.

(** C4 as the claim states it, for an input node [i] feeding the block [b]
    whose output [o] is the designated output. *)
Definition input_numbered_first (h : Heap) (i b o : nat) : Prop :=
  ∃ self h',
    _build_network h (model [i] [o]) = Ok (self, h') ∧
    _hypermodels self = [b] ∧
    _node_to_id self !! i = Some 0 ∧
    _node_to_id self !! o = Some 1.

(** A node receives its id when its traversal returns, after its
    descendants: the output is numbered before the input. *)
Lemma C4_output_numbered_first : ¬ input_numbered_first chain_heap 0 0 1.
Proof.
  intros (self & h' & Hrun & _ & Hi & _).
  vm_compute in Hrun. injection Hrun as <- <-. by vm_compute in Hi.
Qed.

(** Scenario 1 on an arbitrary heap: the designated input [i] is consumed by
    the block [b] alone, whose only output is the designated output [o]. *)
Lemma order_loop_cons fuel h s V n q :
  order_loop (S fuel) h (mkOrder s V (n :: q))
  = (st ← for_each (HyperNode.out_hypermodels (node_at h n)) (mkOrder s V q)
                   (visit_hypermodel h);
     order_loop fuel h st).
Proof. done. Qed.

Lemma order_loop_nil fuel h s V : order_loop fuel h (mkOrder s V []) = Ok s.
Proof. by destruct fuel. Qed.

#[local] Arguments _search_network : simpl never.
#[local] Arguments order_loop : simpl never.

Section Chain.
Variables (h : Heap) (self : GraphAutoModel) (i b o : nat).
Hypothesis Hins : inputs self = [i].
Hypothesis Houts : outputs self = [o].
Hypothesis Hio : i ≠ o.
Hypothesis Hi_out : HyperNode.out_hypermodels (node_at h i) = [b].
Hypothesis Hb_out : HyperBlock.outputs (block_at h b) = [o].
Hypothesis Hb_in : HyperBlock.inputs (block_at h b) = [i].
Hypothesis Ho_out : HyperNode.out_hypermodels (node_at h o) = [].
Hypothesis Ho_in : HyperNode.in_hypermodels (node_at h o) = [b].

Lemma chain_successors : successors h i = [o] ∧ successors h o = [].
Proof. unfold successors. rewrite Hi_out, Ho_out. simpl. by rewrite Hb_out. Qed.

Lemma chain_fuel : ∃ k, size (all_outputs h) = S k.
Proof.
  assert (o ∈ all_outputs h) as Ho.
  { apply elem_of_all_outputs. exists b. rewrite Hb_out. by left. }
  destruct (size (all_outputs h)) as [|k] eqn:Hsize; [|by exists k].
  apply size_empty_iff in Hsize. set_solver.
Qed.

Definition chain_ids : gmap nat nat := <[i := 1]> (<[o := 0]> ∅).

Lemma chain_add_nodes (s0 : GraphAutoModel) :
  _node_to_id s0 = ∅ →
  _add_node (_add_node s0 o) i = with_node_to_id s0 chain_ids.
Proof.
  intros Hempty. unfold _add_node at 2. rewrite Hempty, lookup_empty.
  unfold _add_node. simpl. rewrite lookup_insert_ne, lookup_empty by done.
  rewrite map_size_insert_None by apply lookup_empty.
  by rewrite map_size_empty.
Qed.

Lemma chain_search k (s0 : GraphAutoModel) :
  _node_to_id s0 = ∅ →
  ∃ st, _search_network (S (S k)) h [o] i (mkSearch s0 ∅ ∅) = Ok st ∧
        ss_self st = with_node_to_id s0 chain_ids.
Proof.
  intros Hempty. destruct chain_successors as [Hsi Hso].
  rewrite _search_network_S, Hsi. simpl. unfold search_step, enter. simpl.
  rewrite decide_False by set_solver.
  rewrite decide_False by set_solver.
  rewrite _search_network_S, Hso. simpl.
  rewrite bool_decide_eq_true_2 by left.
  unfold leave. simpl.
  rewrite decide_True by (rewrite _add_node_dom; set_solver). simpl.
  eexists. split; [done|]. simpl. by apply chain_add_nodes.
Qed.

Lemma chain_discover (s0 : GraphAutoModel) :
  inputs s0 = [i] → outputs s0 = [o] → _node_to_id s0 = ∅ →
  discover h s0 = Ok (with_node_to_id s0 chain_ids).
Proof.
  intros Hi0 Ho0 Hempty. unfold discover. rewrite Hi0.
  destruct chain_fuel as [k ->]. simpl. rewrite Ho0.
  destruct (chain_search k s0 Hempty) as (st & -> & Hst). simpl. by rewrite Hst.
Qed.

Lemma chain_ids_dom : dom chain_ids = {[i; o]}.
Proof. unfold chain_ids. rewrite !dom_insert_L, dom_empty_L. set_solver. Qed.

Lemma chain_add_hypermodel (s : GraphAutoModel) :
  _node_to_id s = chain_ids → _hypermodels s = [] →
  _add_hypermodel h s b
  = Ok (with_hypermodels s [b] (<[b := 0]> (_hypermodel_to_id s))).
Proof.
  intros Hids Hhm. unfold _add_hypermodel. rewrite Hhm, Hb_out, Hb_in.
  rewrite decide_False by apply not_elem_of_nil. simpl.
  unfold _add_node. simpl. rewrite Hids.
  replace (chain_ids !! o) with (Some 0)
    by (unfold chain_ids; by rewrite lookup_insert_ne, lookup_insert_eq).
  simpl. rewrite Hids, decide_True; [done|]. rewrite chain_ids_dom. set_solver.
Qed.

Lemma chain_order k (s : GraphAutoModel) :
  _node_to_id s = chain_ids → _hypermodels s = [] →
  order_loop (S (S k)) h (mkOrder s ({[i]} ∪ ∅) [i])
  = Ok (with_hypermodels s [b] (<[b := 0]> (_hypermodel_to_id s))).
Proof.
  intros Hids Hhm. rewrite order_loop_cons, Hi_out. simpl.
  unfold visit_hypermodel. simpl. rewrite Hb_out. simpl.
  rewrite Hids, bool_decide_eq_true_2 by (rewrite chain_ids_dom; set_solver). simpl.
  rewrite (chain_add_hypermodel s Hids Hhm). simpl.
  rewrite Hids, decide_True by (rewrite chain_ids_dom; set_solver). simpl.
  rewrite order_loop_cons, Ho_out. simpl. by rewrite order_loop_nil.
Qed.

Lemma chain_construction :
  ∃ self' h',
    _build_network h self = Ok (self', h') ∧
    _hypermodels self' = [b] ∧
    _node_to_id self' !! o = Some 0 ∧
    _node_to_id self' !! i = Some 1.
Proof.
  unfold _build_network.
  rewrite chain_discover by done. simpl.
  rewrite Hins, Houts. simpl.
  rewrite !decide_True by (rewrite chain_ids_dom; set_solver). simpl.
  destruct chain_fuel as [k ->].
  rewrite chain_order by done. simpl.
  unfold set_output_shape. rewrite Houts. simpl. rewrite Ho_in. simpl.
  eexists _, _. split; [done|]. simpl. split_and!; [done|..].
  - unfold chain_ids. by rewrite lookup_insert_ne, lookup_insert_eq.
  - unfold chain_ids. by rewrite lookup_insert_eq.
Qed.
End Chain.

(** C4 (amended).  For the graph of a single designated input node feeding
    one block whose single output node is the designated output,
    construction succeeds with the block order [[b]]; the output node
    receives id 0 and the input node id 1. *)
Theorem C4_chain_numbering h self i b o :
  inputs self = [i] → outputs self = [o] → i ≠ o →
  HyperNode.out_hypermodels (node_at h i) = [b] →
  HyperBlock.outputs (block_at h b) = [o] →
  HyperBlock.inputs (block_at h b) = [i] →
  HyperNode.out_hypermodels (node_at h o) = [] →
  HyperNode.in_hypermodels (node_at h o) = [b] →
  ∃ self' h',
    _build_network h self = Ok (self', h') ∧
    _hypermodels self' = [b] ∧
    _node_to_id self' !! o = Some 0 ∧
    _node_to_id self' !! i = Some 1.
Proof. apply chain_construction. Qed.

Lemma C4_chain_numbering_witness :
  ∃ self' h',
    _build_network chain_heap (model [0] [1]) = Ok (self', h') ∧
    _hypermodels self' = [0] ∧
    _node_to_id self' !! 1 = Some 0 ∧
    _node_to_id self' !! 0 = Some 1.
Proof.
  apply (C4_chain_numbering chain_heap (model [0] [1]) 0 0 1); try reflexivity. lia.
Defined.

(** C5 as the claim states it. *)
Definition block_on_path (h : Heap) (ins outs : list nat) (b : nat) : Prop :=
  ∃ n o, from_inputs h ins n ∧ b ∈ HyperNode.out_hypermodels (node_at h n) ∧
         o ∈ HyperBlock.outputs (block_at h b) ∧ to_outputs h outs o.

Definition only_paths_numbered (h : Heap) (self : GraphAutoModel) : Prop :=
  ∀ self' h', _build_network h self = Ok (self', h') →
    (∀ n, ¬ on_path h (inputs self) (outputs self) n → _node_to_id self' !! n = None) ∧
    (∀ b, ¬ block_on_path h (inputs self) (outputs self) b → b ∉ _hypermodels self').

(** The second output of a registered block leads nowhere and still
    receives an id. *)
Lemma C5_dead_end_output_numbered : ¬ only_paths_numbered fork_heap (model [0] [1]).
Proof.
  intros Honly.
  edestruct Honly as [Hnodes _]; [vm_compute; reflexivity|].
  assert (¬ on_path fork_heap [0] [1] 2) as Hoff.
  { intros [_ (o & Ho & Hreach)].
    apply list_elem_of_singleton in Ho as ->.
    inversion Hreach as [|? ? ? He _]; subst. by apply elem_of_nil in He. }
  specialize (Hnodes 2 Hoff). by vm_compute in Hnodes.
Qed.

(** [build] never invokes the build step of a block outside [P]: its result
    is the same for any two families of build steps that agree on [P]. *)
Definition build_invokes_only (h : Heap) (self : GraphAutoModel) (P : nat → Prop) : Prop :=
  ∀ (Tensor HyperParameters : Type) (node_build : nat → HyperParameters → Tensor)
    (build1 build2 : nat → HyperParameters → list Tensor → list Tensor) hp,
    (∀ b, P b → build1 b = build2 b) →
    build node_build build1 h self hp = build node_build build2 h self hp.

Lemma build_invokes_hypermodels h self :
  build_invokes_only h self (λ b, b ∈ _hypermodels self).
Proof.
  intros Tensor HyperParameters node_build build1 build2 hp Hsame. unfold build.
  destruct (for_each (inputs self) _ _) as [real_nodes| |]; simpl; [|done..].
  rewrite (for_each_ext _ _ _ (build_hypermodel build2 h self hp)); [done|].
  intros rn b Hb. unfold build_hypermodel. by rewrite (Hsame b Hb).
Qed.

(** No node is an output of two blocks. *)
Definition single_producer (h : Heap) : Prop :=
  ∀ o b b', o ∈ HyperBlock.outputs (block_at h b) →
            o ∈ HyperBlock.outputs (block_at h b') → b = b'.

Definition ids_and_order_minimal (h : Heap) (self self' : GraphAutoModel) (h' : Heap)
  : Prop :=
  (∀ n, ¬ on_path h (inputs self) (outputs self) n →
        (∀ b, b ∈ _hypermodels self' → n ∉ HyperBlock.outputs (block_at h b)) →
        _node_to_id self' !! n = None) ∧
  (single_producer h →
   (∀ b, ¬ block_on_path h (inputs self) (outputs self) b → b ∉ _hypermodels self') ∧
   build_invokes_only h' self' (block_on_path h (inputs self) (outputs self))).

(** C5 (amended).  On every graph on which construction succeeds, a node
    that is neither on a path between a designated input and a designated
    output nor an output of a block of the order receives no id; and when no
    node is an output of two blocks, a block on no such path is not in the
    order and [build] never invokes its build step. *)
Theorem C5_ids_and_order_minimal h self self' h' :
  _build_network h self = Ok (self', h') → ids_and_order_minimal h self self' h'.
Proof.
  intros Hrun. pose proof (_build_network_spec h self) as Hspec.
  rewrite Hrun in Hspec. simpl in Hspec. split.
  - intros n Hoff Hnot. apply not_elem_of_dom. intros Hid.
    destruct (c_ids _ _ _ _ Hspec n Hid) as [?|(b & Hb & Hnb)]; [done|].
    by apply (Hnot b).
  - intros Huniq.
    assert (∀ b, b ∈ _hypermodels self' →
                 block_on_path h (inputs self) (outputs self) b) as Hon.
    { intros b Hb.
      destruct (c_blocks _ _ _ _ Hspec b Hb) as ((n & Hn & Hbn) & (o & Hob & Ho) & _).
      exists n, o. split_and!; [done..|].
      destruct Ho as [[_ ?]|(b' & _ & Hne & Hob')]; [done|].
      destruct Hne. by apply (Huniq o). }
    split; [intros b Hoff Hb; by apply Hoff, Hon|].
    intros Tensor HyperParameters node_build build1 build2 hp Hsame.
    apply build_invokes_hypermodels. intros b Hb. by apply Hsame, Hon.
Qed.

Lemma C5_ids_and_order_minimal_witness :
  ∃ self' h', _build_network chain_heap (model [0] [1]) = Ok (self', h') ∧
              ids_and_order_minimal chain_heap (model [0] [1]) self' h'.
Proof.
  destruct (_build_network chain_heap (model [0] [1])) as [[self' h']| |] eqn:Hrun;
    [|by vm_compute in Hrun..].
  exists self', h'. split; [reflexivity|].
  exact (C5_ids_and_order_minimal _ _ _ _ Hrun).
Defined.

(** The number of times [b] occurs in a list of blocks. *)
Definition occurrences (b : nat) (l : list nat) : nat :=
  length (filter (λ x, x = b) l).

Lemma occurrences_absent b l : b ∉ l → occurrences b l = 0.
Proof.
  unfold occurrences. induction l as [|x l IH]; [done|].
  intros [Hx Hl]%not_elem_of_cons. rewrite filter_cons.
  case_decide; [by subst|by apply IH].
Qed.

Lemma occurrences_nodup b l : NoDup l → b ∈ l → occurrences b l = 1.
Proof.
  induction 1 as [|x l Hx Hl IH]; [by intros ?%elem_of_nil|].
  intros Hb. unfold occurrences in *. rewrite filter_cons. case_decide as Hxb.
  - subst x. simpl. f_equal. by apply occurrences_absent.
  - apply elem_of_cons in Hb as [->|Hb]; [done|by apply IH].
Qed.

(** C6 as the claim states it. *)
Definition contributors_ordered_once (h : Heap) (self : GraphAutoModel) : Prop :=
  ∀ self' h', _build_network h self = Ok (self', h') →
    ∀ b, (∃ o, o ∈ HyperBlock.outputs (block_at h b) ∧
               on_path h (inputs self) (outputs self) o) →
         occurrences b (_hypermodels self') = 1.

(** The producer of a designated input contributes that input to the
    induced set, yet the ordering pass, which starts at the designated
    inputs, never meets it. *)
Lemma C6_producer_of_input_not_ordered :
  ¬ contributors_ordered_once tail_heap (model [1] [2]).
Proof.
  intros Honce.
  assert (on_path tail_heap [1] [2] 1) as Hon.
  { split; [exists 1; split; [by left|done]|].
    exists 2. split; [by left|]. apply rtc_once. by left. }
  assert (1 ∈ HyperBlock.outputs (block_at tail_heap 0)) as Hout by by left.
  pose proof (λ self' h' Hrun, Honce self' h' Hrun 0 (ex_intro _ 1 (conj Hout Hon)))
    as Hocc.
  clear Honce Hon Hout.
  assert (∃ self' h', _build_network tail_heap (model [1] [2]) = Ok (self', h') ∧
                      occurrences 0 (_hypermodels self') = 0)
    as (self' & h' & Hrun & Hzero).
  { eexists _, _. split; [vm_compute; reflexivity|vm_compute; reflexivity]. }
  pose proof (Hocc _ _ Hrun) as Hone. clear Hrun Hocc.
  rewrite Hone in Hzero. discriminate Hzero.
Qed.

(** C6 (amended).  On every graph on which construction succeeds, every
    block that consumes a node reachable from a designated input and has an
    output node from which a designated output is reachable (an output in
    the induced set) occurs exactly once in the block order, whatever the
    number of designated inputs or paths that reach it. *)
Theorem C6_block_ordered_once h self self' h' n b o :
  _build_network h self = Ok (self', h') →
  from_inputs h (inputs self) n →
  b ∈ HyperNode.out_hypermodels (node_at h n) →
  o ∈ HyperBlock.outputs (block_at h b) →
  to_outputs h (outputs self) o →
  occurrences b (_hypermodels self') = 1.
Proof.
  intros Hrun Hn Hb Ho Hto. pose proof (_build_network_spec h self) as Hspec.
  rewrite Hrun in Hspec. simpl in Hspec.
  apply occurrences_nodup; [apply (c_nodup _ _ _ _ Hspec)|].
  by apply (c_complete _ _ _ _ Hspec n b o).
Qed.

Lemma C6_block_ordered_once_witness :
  ∃ self' h', _build_network merge_heap (model [0; 1] [2]) = Ok (self', h') ∧
              occurrences 0 (_hypermodels self') = 1.
Proof.
  destruct (_build_network merge_heap (model [0; 1] [2])) as [[self' h']| |] eqn:Hrun;
    [|by vm_compute in Hrun..].
  exists self', h'. split; [reflexivity|].
  apply (C6_block_ordered_once merge_heap (model [0; 1] [2]) self' h' 1 0 2 Hrun).
  - exists 1. split; [right; left|reflexivity].
  - left.
  - left.
  - exists 2. split; [left|reflexivity].
Defined.

(** What the claims call the result of construction: the node ids and the
    block order, or nothing when construction raises. *)
Definition ids_and_order (r : res (GraphAutoModel * Heap))
  : option (gmap nat nat * list nat) :=
  match r with
  | Ok (self, _) => Some (_node_to_id self, _hypermodels self)
  | _ => None
  end.

(** C7.  Construction on two heaps with the same topology (and the same
    designated inputs and outputs) yields the same node ids and the same
    block order, or fails on both. *)
Theorem C7_construction_deterministic h1 h2 self :
  topology h1 = topology h2 →
  ids_and_order (_build_network h1 self) = ids_and_order (_build_network h2 self).
Proof.
  intros Htopo. unfold _build_network.
  rewrite (discover_topology h1 h2 Htopo), (same_all_outputs h1 h2 Htopo).
  destruct (discover h2 _) as [self1| |]; simpl; [|done..].
  destruct (for_each (inputs self1 ++ outputs self1) _ _) as [[]| |]; simpl; [|done..].
  match goal with
  | |- ids_and_order (order_loop ?f h1 ?st ≫= _) = _ =>
      pose proof (order_loop_topology h1 h2 Htopo f st) as Hloop;
      destruct (order_loop f h1 st) as [s1| |], (order_loop f h2 st) as [s2| |];
      simpl in *; try done
  end.
  subst s2.
  pose proof (finalize_topology (outputs s1) h1 h2 (same_in_hypermodels h1 h2 Htopo)) as Hfin.
  destruct (for_each (outputs s1) h1 set_output_shape),
           (for_each (outputs s1) h2 set_output_shape); simpl in *; done.
Qed.

Lemma C7_construction_deterministic_witness :
  ids_and_order (_build_network chain_heap (model [0] [1]))
  = ids_and_order (_build_network shaped_chain_heap (model [0] [1])).
Proof. apply C7_construction_deterministic. reflexivity. Defined.

(** C8.  After the ordering loop, the finalization loop visits the
    designated outputs in order; at the step of an output [o] whose
    producing block ([in_hypermodels[0]], the only producer in a valid graph)
    is the live block [b], it sets the declared output shape of [b] to the
    shape of [o], and that value is the final one unless a later designated
    output has the same producer. *)
Theorem C8_output_shape_recorded h self self' h' pre o post b bs :
  _build_network h self = Ok (self', h') →
  outputs self = pre ++ o :: post →
  HyperNode.in_hypermodels (node_at h o) = b :: bs →
  b < length (blocks h) →
  ∃ h0 h1,
    for_each pre h set_output_shape = Ok h0 ∧
    set_output_shape h0 o = Ok h1 ∧
    for_each post h1 set_output_shape = Ok h' ∧
    HyperBlock.output_shape (block_at h1 b) = HyperNode.shape (node_at h o) ∧
    ((∀ o', o' ∈ post → head (HyperNode.in_hypermodels (node_at h o')) ≠ Some b) →
     HyperBlock.output_shape (block_at h' b) = HyperNode.shape (node_at h' o)).
Proof.
  intros Hrun Houts Hin Hlive. pose proof (_build_network_spec h self) as Hspec.
  rewrite Hrun in Hspec. simpl in Hspec.
  pose proof (c_heap _ _ _ _ Hspec) as Hfin. rewrite Houts, for_each_app in Hfin.
  destruct (for_each pre h set_output_shape) as [h0| |] eqn:Hpre; simpl in Hfin; [|done..].
  change (set_output_shape h0 o ≫= (λ h, for_each post h set_output_shape) = Ok h') in Hfin.
  destruct (set_output_shape h0 o) as [h1| |] eqn:Hstep; simpl in Hfin; [|done..].
  destruct (finalize_frame pre h h0 Hpre) as (Hn0 & Hlen0 & _).
  destruct (finalize_frame post h1 h' Hfin) as (Hn' & _ & Hb').
  pose proof (λ n, set_output_shape_node_at h0 o h1 n Hstep) as Hn1.
  exists h0, h1. split_and!; [done..| |].
  - unfold set_output_shape in Hstep. rewrite Hn0, Hin in Hstep.
    injection Hstep as <-. rewrite block_at_update.
    case_decide as Hc; [done|]. destruct Hc. split; [done|]. by rewrite Hlen0.
  - intros Hlast. rewrite Hb'.
    + rewrite Hn', Hn1, Hn0.
      unfold set_output_shape in Hstep. rewrite Hn0, Hin in Hstep.
      injection Hstep as <-. rewrite block_at_update.
      case_decide as Hc; [done|].
      destruct Hc. split; [done|]. by rewrite Hlen0.
    + intros o' Ho'. rewrite Hn1, Hn0. by apply Hlast.
Qed.

Lemma C8_output_shape_recorded_witness :
  ∃ self' h' h0 h1,
    _build_network shaped_chain_heap (model [0] [1]) = Ok (self', h') ∧
    for_each [] shaped_chain_heap set_output_shape = Ok h0 ∧
    set_output_shape h0 1 = Ok h1 ∧
    for_each [] h1 set_output_shape = Ok h' ∧
    HyperBlock.output_shape (block_at h1 0) = HyperNode.shape (node_at shaped_chain_heap 1) ∧
    ((∀ o', o' ∈ [] → head (HyperNode.in_hypermodels (node_at shaped_chain_heap o')) ≠ Some 0) →
     HyperBlock.output_shape (block_at h' 0) = HyperNode.shape (node_at h' 1)).
Proof.
  destruct (_build_network shaped_chain_heap (model [0] [1])) as [[self' h']| |] eqn:Hrun;
    [|by vm_compute in Hrun..].
  destruct (C8_output_shape_recorded shaped_chain_heap (model [0] [1]) self' h' [] 1 [] 0 [])
    as (h0 & h1 & H); [done|done|done|vm_compute; lia|].
  exists self', h', h0, h1. split; [reflexivity|exact H].
Defined.

(** The discovery loop of [_build_network], turn by turn.  A turn is the
    call [self._search_network(input_node, self.outputs, set(), set())]
    for one designated input; it leaves its two sets behind. *)
Definition traverse (h : Heap) (self : GraphAutoModel) (input_node : nat)
  : res search_state :=
  _search_network (S (size (all_outputs h))) h (outputs self) input_node
                  (mkSearch self ∅ ∅).

Definition discover_step (h : Heap) (self : GraphAutoModel) (input_node : nat)
  : res GraphAutoModel :=
  st ← traverse h self input_node; Ok (ss_self st).

Lemma discover_loop h self :
  discover h self = for_each (inputs self) self (discover_step h).
Proof. reflexivity. Qed.

(** In the discovery pass of [_build_network] on [self], whose designated
    inputs are [pre ++ r :: post], the traversal started from [r] ends in
    the state [st], and the pass ends with [self1]. *)
Definition discovery_turn (h : Heap) (self : GraphAutoModel)
    (pre : list nat) (r : nat) (post : list nat)
    (st : search_state) (self1 : GraphAutoModel) : Prop :=
  ∃ self0,
    for_each pre (with_node_to_id self ∅) (discover_step h) = Ok self0 ∧
    traverse h self0 r = Ok st ∧
    for_each post (ss_self st) (discover_step h) = Ok self1.

(** The runs of the discovery pass are exactly the sequences of such turns. *)
Lemma discover_turns h self pre r post self1 :
  inputs self = pre ++ r :: post →
  discover h (with_node_to_id self ∅) = Ok self1 ↔
  ∃ st, discovery_turn h self pre r post st self1.
Proof.
  intros Hins. rewrite discover_loop. simpl. rewrite Hins, for_each_app.
  unfold discovery_turn. split.
  - destruct (for_each pre _ _) as [self0| |] eqn:Hpre; simpl;
      [|intros Hno; discriminate Hno..].
    unfold discover_step.
    destruct (traverse h self0 r) as [st| |] eqn:Hr; simpl;
      [|intros Hno; discriminate Hno..].
    intros Hpost. exists st, self0. rewrite Hr. split; [done|]. split; [done|exact Hpost].
  - intros (st & self0 & -> & Hr & Hpost). simpl.
    unfold discover_step. rewrite Hr. exact Hpost.
Qed.

Lemma discover_steps_sound h self : ∀ l s s',
  (∀ x, x ∈ l → x ∈ inputs self) →
  same_config self s →
  (∀ u, u ∈ dom (_node_to_id s) → on_path h (inputs self) (outputs self) u) →
  for_each l s (discover_step h) = Ok s' →
  same_config self s' ∧
  (∀ u, u ∈ dom (_node_to_id s') → on_path h (inputs self) (outputs self) u).
Proof.
  induction l as [|r l IH]; intros s s' Hl Hcfg Hsound Hrun.
  { simpl in Hrun. by injection Hrun as <-. }
  change (discover_step h s r ≫= (λ s1, for_each l s1 (discover_step h)) = Ok s')
    in Hrun.
  destruct (discover_step h s r) as [s1| |] eqn:Hstep; simpl in Hrun; [|done..].
  unfold discover_step, traverse in Hstep.
  destruct (same_config_fields _ _ Hcfg) as (_ & Houts & _). rewrite <-Houts in Hstep.
  assert (r ∈ inputs self) as Hr by (apply Hl; by left).
  assert (search_inv h (inputs self) (outputs self) r (mkSearch s ∅ ∅)) as Hinv
    by (split; simpl; try done; unfold finished; simpl; set_solver).
  assert (size (all_outputs h ∖ ∅ ∖ {[r]}) < S (size (all_outputs h))) as Hfuel.
  { assert (all_outputs h ∖ ∅ ∖ {[r]} ⊆ all_outputs h) as ?%subseteq_size by set_solver.
    lia. }
  pose proof (search_spec h (inputs self) (outputs self) r Hr _ r (mkSearch s ∅ ∅)
                Hinv ltac:(simpl; set_solver) ltac:(done) ltac:(simpl; set_solver) Hfuel)
    as Hpost.
  destruct (_search_network _ h (outputs self) r _) as [st| |]; simpl in Hstep; [|done..].
  injection Hstep as <-.
  simpl in Hpost. destruct Hpost as (Hinv' & _ & _ & _ & _ & Hcfg').
  apply (IH (ss_self st) s'); [|by etrans| |done].
  - intros x Hx. apply Hl. by right.
  - apply (inv_sound _ _ _ _ _ Hinv').
Qed.

(** C9 as the claim states it: in a discovery pass, a node visited by the
    traversal started from one designated input is not visited by the
    traversal started from a later one. *)
Definition visited_set_shared (h : Heap) (self : GraphAutoModel) : Prop :=
  ∀ pre r1 mid r2 post st1 st2 self1 n,
    inputs self = pre ++ r1 :: mid ++ r2 :: post →
    discover h (with_node_to_id self ∅) = Ok self1 →
    discovery_turn h self pre r1 (mid ++ r2 :: post) st1 self1 →
    discovery_turn h self (pre ++ r1 :: mid) r2 post st2 self1 →
    n ∈ visited_nodes st1 → n ∉ visited_nodes st2.

(** Every traversal receives two fresh sets: in the discovery pass on the
    merge graph, the output of the merge block is visited by the traversal
    started from the first input and again by the one started from the
    second. *)
Lemma C9_merge_output_visited_twice :
  ¬ visited_set_shared merge_heap (model [0; 1] [2]).
Proof.
  intros Hshared.
  destruct (discover merge_heap (with_node_to_id (model [0; 1] [2]) ∅))
    as [self1| |] eqn:Hrun; [|by vm_compute in Hrun..].
  pose proof (proj1 (discover_turns merge_heap (model [0; 1] [2]) [] 0 [1] self1 eq_refl)
                Hrun) as [st1 Hturn1].
  pose proof (proj1 (discover_turns merge_heap (model [0; 1] [2]) [0] 1 [] self1 eq_refl)
                Hrun) as [st2 Hturn2].
  apply (Hshared [] 0 [] 1 [] st1 st2 self1 2 eq_refl Hrun Hturn1 Hturn2).
  - destruct Hturn1 as (s0 & Hpre & Hr & _). clear Hrun Hturn2 Hshared.
    vm_compute in Hpre. injection Hpre as <-.
    vm_compute in Hr. injection Hr as <-. vm_compute. reflexivity.
  - destruct Hturn2 as (s0 & Hpre & Hr & _). clear Hrun Hturn1 Hshared.
    vm_compute in Hpre. injection Hpre as <-.
    vm_compute in Hr. injection Hr as <-. vm_compute. reflexivity.
Qed.

(** C9 (amended).  The visited set is created afresh for the traversal
    started from each designated input and shared only within that
    traversal: in every discovery pass of [_build_network] that completes,
    whatever the traversals of the earlier designated inputs visited, the
    traversal started from a designated input visits exactly the nodes
    reachable from it. *)
Theorem C9_traversal_visits_reachable h self self1 pre r post :
  discover h (with_node_to_id self ∅) = Ok self1 →
  inputs self = pre ++ r :: post →
  ∃ st, discovery_turn h self pre r post st self1 ∧
        ∀ n, n ∈ visited_nodes st ↔ rtc (edge h) r n.
Proof.
  intros Hrun Hins.
  apply (discover_turns h self pre r post self1 Hins) in Hrun as [st Hturn].
  exists st. split; [done|]. destruct Hturn as (self0 & Hpre & Hr & _).
  destruct (discover_steps_sound h (with_node_to_id self ∅) pre
              (with_node_to_id self ∅) self0)
    as [Hcfg Hsound]; [|done|simpl; set_solver|done|].
  { intros x Hx. simpl. rewrite Hins. set_solver. }
  simpl in Hsound.
  destruct (same_config_fields _ _ Hcfg) as (_ & Houts & _). simpl in Houts.
  assert (r ∈ inputs self) as Hrin by (rewrite Hins; set_solver).
  unfold traverse in Hr. rewrite <-Houts in Hr.
  pose proof (search_spec h (inputs self) (outputs self) r Hrin
                (S (size (all_outputs h))) r (mkSearch self0 ∅ ∅)) as Hspec.
  rewrite Hr in Hspec. simpl in Hspec.
  destruct Hspec as (Hinv & Hstk & _ & Hrv & _).
  - split; simpl; try done; unfold finished; simpl; set_solver.
  - set_solver.
  - done.
  - set_solver.
  - assert (all_outputs h ∖ ∅ ∖ {[r]} ⊆ all_outputs h) as ?%subseteq_size by set_solver.
    lia.
  - intros n. split; [apply (inv_visited _ _ _ _ _ Hinv)|].
    intros Hreach.
    assert (n ∈ finished st) as Hfin; [|unfold finished in Hfin; set_solver].
    eapply closed_rtc; [apply (inv_closed _ _ _ _ _ Hinv)| |done].
    unfold finished. simpl in Hstk. rewrite Hstk. set_solver.
Qed.

Lemma C9_traversal_visits_reachable_witness :
  ∃ self1 st,
    discover merge_heap (with_node_to_id (model [0; 1] [2]) ∅) = Ok self1 ∧
    discovery_turn merge_heap (model [0; 1] [2]) [0] 1 [] st self1 ∧
    ∀ n, n ∈ visited_nodes st ↔ rtc (edge merge_heap) 1 n.
Proof.
  destruct (discover merge_heap (with_node_to_id (model [0; 1] [2]) ∅))
    as [self1| |] eqn:Hrun; [|by vm_compute in Hrun..].
  destruct (C9_traversal_visits_reachable merge_heap (model [0; 1] [2]) self1 [0] 1 []
              Hrun eq_refl) as (st & Hturn & Hvis).
  exists self1, st. split; [reflexivity|]. split; [exact Hturn|exact Hvis].
Defined.

(** C10.  A falsy [max_trials] ([None] or [0]) is replaced by
    [NUM_TRAILS] and a falsy [directory] ([None] or the empty string) by
    [TEMP_DIRECTORY]; unless the default itself is zero, no argument makes
    the trial budget zero. *)
Theorem C10_falsy_arguments_defaulted
    (NUM_TRAILS : Z) (TEMP_DIRECTORY : string) h ins outs mt dir self h' :
  __init__ NUM_TRAILS TEMP_DIRECTORY h ins outs mt dir = Ok (self, h') →
  (mt = None ∨ mt = Some 0%Z → max_trials self = NUM_TRAILS) ∧
  (dir = None ∨ dir = Some EmptyString → directory self = TEMP_DIRECTORY) ∧
  (NUM_TRAILS ≠ 0%Z → max_trials self ≠ 0%Z).
Proof.
  unfold __init__. intros Hrun.
  pose proof (_build_network_spec h
    (mkModel ins outs (or_int mt NUM_TRAILS) (or_str dir TEMP_DIRECTORY) ∅ [] [] ∅))
    as Hspec.
  rewrite Hrun in Hspec. simpl in Hspec.
  rewrite (c_max_trials _ _ _ _ Hspec), (c_directory _ _ _ _ Hspec). simpl.
  split_and!.
  - by intros [->| ->].
  - by intros [->| ->].
  - intros Hnum. unfold or_int. destruct mt as [n|]; [|done]. by case_decide.
Qed.

Lemma C10_falsy_arguments_defaulted_witness :
  ∃ self h',
    __init__ 10 "/tmp/autokeras" chain_heap [0] [1] (Some 0%Z) (Some EmptyString)
      = Ok (self, h') ∧
    max_trials self = 10%Z ∧ directory self = "/tmp/autokeras"%string.
Proof.
  eexists _, _. split; [by vm_compute|].
  edestruct (C10_falsy_arguments_defaulted 10 "/tmp/autokeras" chain_heap [0] [1]
               (Some 0%Z) (Some EmptyString)) as (Hmt & Hdir & _); [by vm_compute|].
  split; [apply Hmt|apply Hdir]; by right.
Defined.

(** ** Further properties of construction *)

(** Loop rule for properties that only matter when the loop ends normally. *)
Lemma for_each_preserve {A S} (I : S → Prop) (body : S → A → res S) (l : list A) :
  ∀ s s',
    I s →
    (∀ s x s', x ∈ l → I s → body s x = Ok s' → I s') →
    for_each l s body = Ok s' → I s'.
Proof.
  induction l as [|x l IH]; intros s s' Hs Hstep Hrun; simpl in Hrun.
  - by injection Hrun as <-.
  - destruct (body s x) as [s1| |] eqn:Hx; simpl in Hrun; [|done..].
    apply (IH s1 s'); [|intros; eapply Hstep; eauto; by right|done].
    eapply Hstep; [by left|done|done].
Qed.

(** [m'] is obtained from [m] by giving fresh nodes the next free id, the
    only way in which [_add_node] changes [_node_to_id]. *)
Inductive ids_extend (m : gmap nat nat) : gmap nat nat → Prop :=
  | ids_extend_refl : ids_extend m m
  | ids_extend_add m' n :
      ids_extend m m' → m' !! n = None → ids_extend m (<[n := size m']> m').

Lemma ids_extend_trans m1 m2 m3 :
  ids_extend m1 m2 → ids_extend m2 m3 → ids_extend m1 m3.
Proof. intros H12 H23. induction H23; [done|by constructor]. Qed.

Lemma _add_node_extend self n :
  ids_extend (_node_to_id self) (_node_to_id (_add_node self n)).
Proof.
  unfold _add_node. destruct (_node_to_id self !! n) eqn:Hn; simpl.
  - constructor.
  - by repeat constructor.
Qed.

Lemma ids_extend_subseteq m m' : ids_extend m m' → m ⊆ m'.
Proof.
  induction 1 as [|m' n _ IH Hn]; [done|].
  etrans; [exact IH|]. by apply insert_subseteq.
Qed.

(** The ids are exactly [0 .. size - 1], each used once. *)
Definition dense_ids (m : gmap nat nat) : Prop :=
  (∀ n1 n2 k, m !! n1 = Some k → m !! n2 = Some k → n1 = n2) ∧
  (∀ k, k < size m ↔ ∃ n, m !! n = Some k).

Lemma dense_ids_empty : dense_ids ∅.
Proof.
  split.
  - intros n1 n2 k Hn1. by rewrite lookup_empty in Hn1.
  - intros k. rewrite map_size_empty. split; [lia|].
    intros [n Hn]. by rewrite lookup_empty in Hn.
Qed.

Lemma dense_ids_extend m m' : ids_extend m m' → dense_ids m → dense_ids m'.
Proof.
  induction 1 as [|m' n _ IH Hn]; [done|]. intros Hm.
  destruct (IH Hm) as [Hinj Hran]. split.
  - intros n1 n2 k. rewrite !lookup_insert.
    repeat case_decide; subst; intros [= H1] [= H2]; subst; try done.
    + assert (size m' < size m') by (apply Hran; eauto). lia.
    + assert (size m' < size m') by (apply Hran; eauto). lia.
    + by eapply Hinj.
  - intros k. rewrite map_size_insert_None by done. split.
    + intros Hk. destruct (decide (k = size m')) as [->|Hne].
      * exists n. by rewrite lookup_insert_eq.
      * destruct (proj1 (Hran k)) as [n' Hn']; [lia|].
        exists n'. rewrite lookup_insert_ne; [done|]. intros ->. congruence.
    + intros [n' Hn']. rewrite lookup_insert in Hn'. case_decide.
      * injection Hn' as <-. lia.
      * assert (k < size m') by (apply Hran; eauto). lia.
Qed.

Lemma _search_network_extend fuel h outs : ∀ n st st',
  _search_network fuel h outs n st = Ok st' →
  ids_extend (_node_to_id (ss_self st)) (_node_to_id (ss_self st')) ∧
  _hypermodels (ss_self st') = _hypermodels (ss_self st).
Proof.
  induction fuel as [|fuel IH]; intros n st st' Hrun; [done|].
  rewrite _search_network_S in Hrun.
  destruct (for_each _ _ _) as [acc| |] eqn:Hloop; simpl in Hrun; [|done..].
  injection Hrun as <-.
  apply (for_each_preserve (λ acc : search_state * bool,
           ids_extend (_node_to_id (ss_self st)) (_node_to_id (ss_self acc.1)) ∧
           _hypermodels (ss_self acc.1) = _hypermodels (ss_self st))) in Hloop.
  - destruct Hloop as [Hext Hhm]. unfold leave. destruct acc as [st1 []]; simpl in *.
    + split; [|by rewrite (proj1 (_add_node_hypermodels _ _))].
      eapply ids_extend_trans; [done|apply _add_node_extend].
    + done.
  - split; [constructor|done].
  - intros [st1 r1] v [st2 r2] _ [Hext Hhm] Hstep. unfold search_step in Hstep.
    simpl in *. destruct (decide (v ∈ in_stack_nodes st1)); [done|].
    destruct (decide (v ∈ visited_nodes st1)); simpl in Hstep.
    + by injection Hstep as <- <-.
    + destruct (_search_network fuel h outs v st1) as [st3| |] eqn:Hrec;
        simpl in Hstep; [|done..].
      injection Hstep as <- <-. destruct (IH _ _ _ Hrec) as [Hext' Hhm'].
      split; [by eapply ids_extend_trans|congruence].
Qed.

Lemma discover_extend h self self' :
  discover h self = Ok self' →
  ids_extend (_node_to_id self) (_node_to_id self').
Proof.
  unfold discover. intros Hrun.
  apply (for_each_preserve
           (λ s, ids_extend (_node_to_id self) (_node_to_id s))) in Hrun; [done|constructor|].
  intros s r s' _ Hext Hstep.
  destruct (_search_network _ h (outputs s) r _) as [st| |] eqn:Hsearch;
    simpl in Hstep; [|done..].
  injection Hstep as <-. apply _search_network_extend in Hsearch as [Hext' _].
  by eapply ids_extend_trans.
Qed.

(** The registration step of [_add_hypermodel]. *)
Definition register (self : GraphAutoModel) (hypermodel : nat) : GraphAutoModel :=
  if decide (hypermodel ∈ _hypermodels self) then self
  else with_hypermodels self (_hypermodels self ++ [hypermodel])
         (<[hypermodel := length (_hypermodels self)]> (_hypermodel_to_id self)).

Lemma _add_hypermodel_Ok h self b self' :
  _add_hypermodel h self b = Ok self' →
  self' = foldl _add_node (register self b) (HyperBlock.outputs (block_at h b)).
Proof.
  unfold _add_hypermodel. fold (register self b). intros Hrun.
  by apply (for_each_preserve (λ s, s = foldl _add_node (register self b)
              (HyperBlock.outputs (block_at h b)))) in Hrun;
    [|done|intros s i s' _ -> Hs; by destruct (decide _); [injection Hs as <-|]].
Qed.

Lemma foldl_add_node_extend self l :
  ids_extend (_node_to_id self) (_node_to_id (foldl _add_node self l)).
Proof.
  revert self. induction l as [|x l IH]; intros self; simpl; [constructor|].
  eapply ids_extend_trans; [apply _add_node_extend|apply IH].
Qed.

Lemma enqueue_outputs_self st outs : os_self (enqueue_outputs st outs) = os_self st.
Proof. by destruct (enqueue_outputs_spec ∅ outs st) as [? _]. Qed.

(** A property of [self] kept by every step of the ordering loop. *)
Lemma order_loop_preserve (I : GraphAutoModel → Prop) h :
  (∀ s b s', I s → _add_hypermodel h s b = Ok s' → I s') →
  ∀ fuel st self', I (os_self st) → order_loop fuel h st = Ok self' → I self'.
Proof.
  intros Hadd fuel.
  induction fuel as [|fuel IH]; intros [self visited queue] self' Hst Hrun;
    (destruct queue as [|n queue];
     [rewrite order_loop_nil in Hrun; by injection Hrun as <-|]); [done|].
  - rewrite order_loop_cons in Hrun.
    destruct (for_each _ _ _) as [st1| |] eqn:Hloop; simpl in Hrun; [|done..].
    apply (IH st1); [|done].
    apply (for_each_preserve (λ st, I (os_self st))) in Hloop; [done|done|].
    intros st2 b st3 _ Hst2 Hvisit. unfold visit_hypermodel in Hvisit.
    destruct (negb _); [by injection Hvisit as <-|].
    destruct (_add_hypermodel h (os_self st2) b) as [s'| |] eqn:Hs; simpl in Hvisit; [|done..].
    injection Hvisit as <-. rewrite enqueue_outputs_self. simpl. by eapply Hadd.
Qed.

(** *** The sorted node list *)

#[local] Instance by_id_total : Total by_id.
Proof. intros x y. unfold by_id. lia. Qed.

Lemma Sorted_le_seq i n : Sorted le (seq i n).
Proof.
  revert i. induction n as [|n IH]; intros i; simpl; [constructor|].
  constructor; [apply IH|]. destruct n; simpl; constructor. lia.
Qed.

Lemma sorted_ids (m : gmap nat nat) :
  dense_ids m →
  (merge_sort by_id (map_to_list m)).*2 = seq 0 (size m).
Proof.
  intros [Hinj Hran].
  apply (Sorted_unique le).
  - eapply Sorted_fmap; [|apply (Sorted_merge_sort by_id)]. by intros x y.
  - apply Sorted_le_seq.
  - rewrite merge_sort_Permutation. apply NoDup_Permutation.
    + apply NoDup_fmap_2_strong; [|apply NoDup_map_to_list].
      intros [n1 k1] [n2 k2] H1%elem_of_map_to_list H2%elem_of_map_to_list; simpl.
      intros <-. f_equal. by eapply Hinj.
    + apply NoDup_seq.
    + intros k. rewrite elem_of_seq, list_elem_of_fmap. split.
      * intros ([n k'] & -> & Hn%elem_of_map_to_list). simpl.
        split; [lia|]. apply Hran. eauto.
      * intros [_ Hk]. destruct (proj1 (Hran k)) as [n Hn]; [lia|].
        exists (n, k). split; [done|]. by apply elem_of_map_to_list.
Qed.

(** [sorted(keys, key=id)] lists the node with id [k] at position [k]. *)
Lemma sorted_nodes_lookup (m : gmap nat nat) k n :
  dense_ids m → sorted_nodes m !! k = Some n ↔ m !! n = Some k.
Proof.
  intros Hdense. pose proof (sorted_ids m Hdense) as Hids.
  set (l := merge_sort by_id (map_to_list m)) in *.
  assert (∀ j p, l !! j = Some p → p.2 = j ∧ m !! p.1 = Some p.2) as Hl.
  { intros j [n' k'] Hj. split.
    - assert (l.*2 !! j = Some k') as Hk by (by rewrite list_lookup_fmap, Hj).
      rewrite Hids in Hk. apply lookup_seq in Hk. simpl. lia.
    - apply elem_of_map_to_list. rewrite <-(merge_sort_Permutation by_id).
      by eapply list_elem_of_lookup_2. }
  unfold sorted_nodes. fold l. rewrite list_lookup_fmap. split.
  - destruct (l !! k) as [[n' k']|] eqn:Hk; simpl; [|done]. intros [= ->].
    destruct (Hl _ _ Hk) as [Hk' Hm]. simpl in *. by subst.
  - intros Hn.
    assert (k < length l) as Hlt.
    { unfold l. rewrite merge_sort_Permutation, length_map_to_list.
      apply (proj2 Hdense). eauto. }
    apply lookup_lt_is_Some_2 in Hlt as [[n' k'] Hk]. rewrite Hk. simpl. f_equal.
    destruct (Hl _ _ Hk) as [Hk' Hm]. simpl in *. subst k'.
    by eapply (proj1 Hdense).
Qed.

(** *** The stages of [_build_network] *)

Lemma _build_network_stages h self self' h' :
  _build_network h self = Ok (self', h') →
  ∃ self1,
    discover h (with_node_to_id self ∅) = Ok self1 ∧
    order_loop (length (inputs self1) + size (all_outputs h)) h
      (mkOrder (with_hypermodels (with_nodes self1 (sorted_nodes (_node_to_id self1))) [] ∅)
               (list_to_set (inputs self1) ∪ ∅) ([] ++ inputs self1)) = Ok self' ∧
    for_each (outputs self') h set_output_shape = Ok h'.
Proof.
  unfold _build_network. intros Hrun.
  destruct (discover h _) as [self1| |] eqn:Hdisc; simpl in Hrun; [|done..].
  destruct (for_each (inputs self1 ++ outputs self1) _ _) as [[]| |];
    simpl in Hrun; [|done..].
  rewrite seed_queue in Hrun. simpl in Hrun.
  destruct (order_loop _ h _) as [self2| |] eqn:Hord; simpl in Hrun; [|done..].
  destruct (for_each (outputs self2) h set_output_shape) as [h2| |] eqn:Hfin;
    simpl in Hrun; [|done..].
  injection Hrun as <- <-. by exists self1.
Qed.

Lemma register_fields self b :
  _node_to_id (register self b) = _node_to_id self ∧
  _nodes (register self b) = _nodes self.
Proof. unfold register. by destruct (decide (b ∈ _hypermodels self)). Qed.

Lemma _add_hypermodel_extend h s b s' :
  _add_hypermodel h s b = Ok s' →
  ids_extend (_node_to_id s) (_node_to_id s') ∧ _nodes s' = _nodes s.
Proof.
  intros Hs. apply _add_hypermodel_Ok in Hs as ->.
  destruct (register_fields s b) as [Hids Hnodes]. split.
  - rewrite <-Hids. apply foldl_add_node_extend.
  - destruct (foldl_add_node (register s b) (HyperBlock.outputs (block_at h b)))
      as ((_ & _ & _ & _ & Hn) & _). congruence.
Qed.

(** What the stages leave in [_node_to_id] and [_nodes]. *)
Lemma _build_network_ids h self self' h' :
  _build_network h self = Ok (self', h') →
  ∃ m, dense_ids m ∧ m ⊆ _node_to_id self' ∧ dense_ids (_node_to_id self') ∧
       _nodes self' = sorted_nodes m ∧
       (∀ u, u ∈ dom m ↔ on_path h (inputs self) (outputs self) u).
Proof.
  intros Hrun. destruct (_build_network_stages _ _ _ _ Hrun) as (self1 & Hdisc & Hord & _).
  pose proof (discover_extend _ _ _ Hdisc) as Hext1. simpl in Hext1.
  pose proof (discover_spec h (with_node_to_id self ∅)) as Hspec.
  rewrite Hdisc in Hspec. simpl in Hspec.
  destruct Hspec as (_ & _ & Hsound & Hcompl & _); [set_solver|].
  apply (order_loop_preserve (λ s,
           ids_extend (_node_to_id self1) (_node_to_id s) ∧
           _nodes s = sorted_nodes (_node_to_id self1))) in Hord.
  - destruct Hord as [Hext2 Hnodes].
    assert (dense_ids (_node_to_id self1)) as Hd1
      by (eapply dense_ids_extend; [done|apply dense_ids_empty]).
    exists (_node_to_id self1). split_and!; [done| | |done|].
    + by apply ids_extend_subseteq.
    + by eapply dense_ids_extend.
    + intros u. split; [apply Hsound|apply Hcompl].
  - intros s b s' [Hext Hn] Hs. apply _add_hypermodel_extend in Hs as [Hext' Hn'].
    split; [by eapply ids_extend_trans|congruence].
  - simpl. split; [constructor|done].
Qed.

(** X1.  A successful construction numbers the nodes densely: distinct
    nodes have distinct ids and the ids are exactly [0 .. len - 1], so the
    values that [build] stores under the ids never overwrite each other. *)
Theorem node_ids_dense h self self' h' :
  _build_network h self = Ok (self', h') →
  (∀ n1 n2 k, _node_to_id self' !! n1 = Some k → _node_to_id self' !! n2 = Some k →
              n1 = n2) ∧
  (∀ k, k < size (_node_to_id self') ↔ ∃ n, _node_to_id self' !! n = Some k).
Proof.
  intros Hrun. by destruct (_build_network_ids _ _ _ _ Hrun) as (m & _ & _ & Hd & _).
Qed.

Lemma node_ids_dense_witness :
  ∃ self' h', _build_network fork_heap (model [0] [1]) = Ok (self', h') ∧
    (∀ k, k < size (_node_to_id self') ↔ ∃ n, _node_to_id self' !! n = Some k).
Proof.
  destruct (_build_network fork_heap (model [0] [1])) as [[self' h']| |] eqn:Hrun;
    [|by vm_compute in Hrun..].
  exists self', h'. split; [reflexivity|].
  exact (proj2 (node_ids_dense _ _ _ _ Hrun)).
Defined.

(** X2.  After a successful construction [_nodes] lists exactly the nodes
    on a path between a designated input and a designated output, the node
    with id [k] at position [k]; the outputs that [_add_hypermodel] numbers
    later are not in it. *)
Theorem nodes_listed_by_id h self self' h' k n :
  _build_network h self = Ok (self', h') →
  _nodes self' !! k = Some n ↔
  _node_to_id self' !! n = Some k ∧ on_path h (inputs self) (outputs self) n.
Proof.
  intros Hrun.
  destruct (_build_network_ids _ _ _ _ Hrun) as (m & Hd & Hsub & _ & -> & Hdom).
  rewrite sorted_nodes_lookup by done. split.
  - intros Hn. split; [by eapply lookup_weaken|]. apply Hdom. by eapply elem_of_dom_2.
  - intros [Hn Hon]. apply Hdom, elem_of_dom in Hon as [k' Hk'].
    pose proof (lookup_weaken _ _ _ _ Hk' Hsub). congruence.
Qed.

Lemma nodes_listed_by_id_witness :
  ∃ self' h', _build_network fork_heap (model [0] [1]) = Ok (self', h') ∧
    (_nodes self' !! 0 = Some 1 ↔
     _node_to_id self' !! 1 = Some 0 ∧ on_path fork_heap [0] [1] 1).
Proof.
  destruct (_build_network fork_heap (model [0] [1])) as [[self' h']| |] eqn:Hrun;
    [|by vm_compute in Hrun..].
  exists self', h'. split; [reflexivity|].
  exact (nodes_listed_by_id _ _ _ _ 0 1 Hrun).
Defined.

(** X3.  After a successful construction [_hypermodel_to_id] maps every
    block of the order to its position in [_hypermodels], and nothing else. *)
Theorem hypermodel_ids_are_positions h self self' h' b k :
  _build_network h self = Ok (self', h') →
  _hypermodel_to_id self' !! b = Some k ↔ _hypermodels self' !! k = Some b.
Proof.
  intros Hrun. destruct (_build_network_stages _ _ _ _ Hrun) as (self1 & _ & Hord & _).
  revert b k.
  refine (order_loop_preserve (λ s, ∀ b k,
            _hypermodel_to_id s !! b = Some k ↔ _hypermodels s !! k = Some b)
            h _ _ _ _ _ Hord);
    [|by intros b k; simpl; rewrite lookup_empty, lookup_nil].
  intros s b0 s' Hpos Hs. apply _add_hypermodel_Ok in Hs as ->.
  destruct (foldl_add_node (register s b0) (HyperBlock.outputs (block_at h b0)))
    as (_ & -> & -> & _).
  unfold register. destruct (decide (b0 ∈ _hypermodels s)) as [Hin|Hnew]; [done|].
  intros b k. simpl. rewrite lookup_insert. case_decide as Hb.
  - subst b0. split.
    + intros [= <-]. by rewrite lookup_app_r, Nat.sub_diag.
    + intros Hk. f_equal. destruct (decide (k < length (_hypermodels s))) as [Hlt|Hge].
      * rewrite lookup_app_l in Hk by done. destruct Hnew.
        by eapply list_elem_of_lookup_2.
      * apply lookup_lt_Some in Hk. rewrite length_app in Hk. simpl in Hk. lia.
  - rewrite Hpos. split.
    + intros Hk. by apply lookup_app_l_Some.
    + intros Hk. destruct (decide (k < length (_hypermodels s))) as [Hlt|Hge].
      * by rewrite lookup_app_l in Hk.
      * rewrite lookup_app_r in Hk by lia.
        destruct (k - length (_hypermodels s)) as [|j]; simpl in Hk; [congruence|done].
Qed.

Lemma hypermodel_ids_are_positions_witness :
  ∃ self' h', _build_network skip_heap (model [0] [3]) = Ok (self', h') ∧
    (_hypermodel_to_id self' !! 2 = Some 1 ↔ _hypermodels self' !! 1 = Some 2).
Proof.
  destruct (_build_network skip_heap (model [0] [3])) as [[self' h']| |] eqn:Hrun;
    [|by vm_compute in Hrun..].
  exists self', h'. split; [reflexivity|].
  exact (hypermodel_ids_are_positions _ _ _ _ 2 1 Hrun).
Defined.

Lemma ordered_outputs_have_ids h self self' h' b o :
  _build_network h self = Ok (self', h') →
  b ∈ _hypermodels self' → o ∈ HyperBlock.outputs (block_at h b) →
  o ∈ dom (_node_to_id self').
Proof.
  intros Hrun. destruct (_build_network_stages _ _ _ _ Hrun) as (self1 & _ & Hord & _).
  revert b o.
  refine (order_loop_preserve (λ s, ∀ b o,
            b ∈ _hypermodels s → o ∈ HyperBlock.outputs (block_at h b) →
            o ∈ dom (_node_to_id s)) h _ _ _ _ _ Hord);
    [|by intros b o ?%elem_of_nil].
  intros s b0 s' Hs Hadd b o.
  pose proof (_add_hypermodel_spec h s b0) as Hspec. rewrite Hadd in Hspec.
  destruct Hspec as (_ & -> & -> & _).
  destruct (decide (b0 ∈ _hypermodels s)) as [Hin|Hnew].
  - intros Hb Ho. apply elem_of_union_r. by eapply Hs.
  - intros [Hb| ->%list_elem_of_singleton]%elem_of_app Ho.
    + apply elem_of_union_r. by eapply Hs.
    + apply elem_of_union_l. by apply elem_of_list_to_set.
Qed.

Lemma ordered_outputs_reachable h self self' h' b o :
  _build_network h self = Ok (self', h') →
  b ∈ _hypermodels self' → o ∈ HyperBlock.outputs (block_at h b) →
  from_inputs h (inputs self) o.
Proof.
  intros Hrun Hb Ho. pose proof (_build_network_spec h self) as Hspec.
  rewrite Hrun in Hspec. simpl in Hspec.
  destruct (c_blocks _ _ _ _ Hspec b Hb) as ((m & (r & Hr & Hrm) & Hm) & _ & _).
  exists r. split; [done|]. eapply rtc_r; [done|]. apply elem_of_successors. eauto.
Qed.

Lemma ordered_inputs_reachable h self self' h' b i :
  _build_network h self = Ok (self', h') →
  b ∈ _hypermodels self' → i ∈ HyperBlock.inputs (block_at h b) →
  i ∈ dom (_node_to_id self') ∧ from_inputs h (inputs self) i.
Proof.
  intros Hrun Hb Hi. pose proof (_build_network_spec h self) as Hspec.
  rewrite Hrun in Hspec. simpl in Hspec.
  destruct (c_blocks _ _ _ _ Hspec b Hb) as (_ & _ & Hin).
  split; [by apply Hin|].
  destruct (c_ids _ _ _ _ Hspec i (Hin i Hi)) as [[? _]|(b' & Hb' & Ho)]; [done|].
  by eapply ordered_outputs_reachable.
Qed.

(** X4.  After a successful construction every input and every output node
    of every block of the order has an id and can be reached from a
    designated input: a block fed by a node that no designated input leads
    to is never accepted. *)
Theorem ordered_blocks_fed h self self' h' b n :
  _build_network h self = Ok (self', h') →
  b ∈ _hypermodels self' →
  n ∈ HyperBlock.inputs (block_at h b) ++ HyperBlock.outputs (block_at h b) →
  n ∈ dom (_node_to_id self') ∧ from_inputs h (inputs self) n.
Proof.
  intros Hrun Hb [Hi|Ho]%elem_of_app.
  - by eapply ordered_inputs_reachable.
  - split; [by eapply ordered_outputs_have_ids|by eapply ordered_outputs_reachable].
Qed.

Lemma ordered_blocks_fed_witness :
  ∃ self' h', _build_network skip_heap (model [0] [3]) = Ok (self', h') ∧
    2 ∈ dom (_node_to_id self') ∧ from_inputs skip_heap [0] 2.
Proof.
  destruct (_build_network skip_heap (model [0] [3])) as [[self' h']| |] eqn:Hrun;
    [|by vm_compute in Hrun..].
  exists self', h'. split; [reflexivity|].
  apply (ordered_blocks_fed skip_heap (model [0] [3]) self' h' 2 2 Hrun).
  - vm_compute in Hrun. injection Hrun as <- _. right. left.
  - right. left.
Defined.

(** X5.  The exceptions of construction are never false alarms and there
    are only four of them: the cycle error is raised only when a cycle is
    reachable from a designated input; the connectivity error only when
    there is no such cycle and some designated node lies on no path; the
    other two are the missing-input error and the [IndexError] of an output
    without producer, raised only on acyclic connected graphs. *)
Theorem construction_errors_sound h self e :
  _build_network h self = Raise e →
  (e = cycle_error ∧ reachable_cycle h (inputs self)) ∨
  (e = not_connected_error ∧ ¬ reachable_cycle h (inputs self) ∧
   ¬ connected h (inputs self) (outputs self)) ∨
  ((block_missing_input e ∨ e = IndexError) ∧ ¬ reachable_cycle h (inputs self) ∧
   connected h (inputs self) (outputs self)).
Proof.
  intros Hrun. pose proof (_build_network_spec h self) as Hspec.
  rewrite Hrun in Hspec. simpl in Hspec. unfold construction_error in Hspec. tauto.
Qed.

Lemma construction_errors_sound_witness :
  reachable_cycle (loop_heap 0) (inputs (model [0] [1])).
Proof.
  destruct (construction_errors_sound (loop_heap 0) (model [0] [1]) cycle_error)
    as [[_ Hcyc]|[[Heq _]|[[[name Heq]|Heq] _]]];
    [by vm_compute|exact Hcyc|discriminate Heq..].
Defined.

(** *** When construction succeeds *)

(** Every input of a block names the block among its consumers, as
    [HyperBlock.__call__] arranges. *)
Definition inputs_registered (h : Heap) : Prop :=
  ∀ b i, i ∈ HyperBlock.inputs (block_at h b) →
         b ∈ HyperNode.out_hypermodels (node_at h i).

(** Every input of a block on a path can be reached from a designated input. *)
Definition blocks_fed (h : Heap) (ins outs : list nat) : Prop :=
  ∀ b i, block_on_path h ins outs b → i ∈ HyperBlock.inputs (block_at h b) →
         from_inputs h ins i.

Definition outputs_produced (h : Heap) (outs : list nat) : Prop :=
  ∀ o, o ∈ outs → HyperNode.in_hypermodels (node_at h o) ≠ [].

Lemma outcome_no_raise {A} (r : res A) (P : A → Prop) (E : exn → Prop) :
  outcome r P E → (∃ a, r = Ok a) → outcome r P (λ _, False).
Proof. intros Hr [a ->]. done. Qed.

Lemma _add_hypermodel_succeeds h self b :
  (∀ i, i ∈ HyperBlock.inputs (block_at h b) →
        i ∈ list_to_set (C := gset nat) (HyperBlock.outputs (block_at h b))
            ∪ dom (_node_to_id self)) →
  ∃ self', _add_hypermodel h self b = Ok self'.
Proof.
  intros Hin. unfold _add_hypermodel. fold (register self b).
  destruct (foldl_add_node (register self b) (HyperBlock.outputs (block_at h b)))
    as (_ & _ & _ & Hdom).
  rewrite (proj1 (register_fields self b)) in Hdom.
  set (self2 := foldl _add_node _ _) in *.
  assert (∀ l, (∀ i, i ∈ l → i ∈ dom (_node_to_id self2)) →
    for_each l self2 (λ self0 input_node,
      if decide (input_node ∈ dom (_node_to_id self0)) then Ok self0
      else Raise (missing_input_error (HyperBlock.name (block_at h b)))) = Ok self2)
    as Hloop.
  { induction l as [|i l IH]; intros Hl; simpl; [done|].
    rewrite decide_True by (apply Hl; by left). simpl. apply IH.
    intros j Hj. apply Hl. by right. }
  exists self2. apply Hloop. intros i Hi. rewrite Hdom. by apply Hin.
Qed.

Section OrderSucceeds.
Variables (h : Heap) (ins outs : list nat) (D : gset nat) (self0 : GraphAutoModel).
Hypothesis HD : ∀ u, u ∈ D ↔ on_path h ins outs u.
Hypothesis Huniq : single_producer h.
Hypothesis Hreg : inputs_registered h.
Hypothesis Hfed : blocks_fed h ins outs.

Lemma visit_hypermodel_succeeds n st b :
  order_inv h ins D self0 (Some n) st → n ∈ os_visited st →
  b ∈ HyperNode.out_hypermodels (node_at h n) →
  ∃ st', visit_hypermodel h st b = Ok st'.
Proof.
  intros Hinv Hn Hb. unfold visit_hypermodel.
  destruct (existsb _ _) eqn:Hany; simpl; [|by eexists].
  apply existsb_exists in Hany as (o0 & Ho0 & Hid0%bool_decide_eq_true).
  apply list_elem_of_In in Ho0.
  destruct (_add_hypermodel_succeeds h (os_self st) b) as [self' ->]; [|by eexists].
  intros i Hi. apply elem_of_union_r.
  destruct (decide (b ∈ _hypermodels (os_self st))) as [Hold|Hnew].
  { by apply (oi_blocks _ _ _ _ _ _ Hinv b Hold). }
  assert (o0 ∈ D) as HoD.
  { destruct (oi_ids _ _ _ _ _ _ Hinv o0 Hid0) as [?|(b' & Hb' & Ho')]; [done|].
    destruct Hnew. by rewrite (Huniq o0 b b'). }
  apply HD in HoD as [_ (o & Ho & Hreach)].
  apply (oi_discovered _ _ _ _ _ _ Hinv), HD. split.
  - apply (Hfed b); [|done]. exists n, o0.
    split_and!; [by apply (oi_reach _ _ _ _ _ _ Hinv)|done|done|by exists o].
  - exists o. split; [done|]. eapply rtc_l; [|done].
    apply elem_of_successors. exists b. split; [by apply Hreg|done].
Qed.

Lemma order_loop_succeeds fuel : ∀ st,
  order_inv h ins D self0 None st → measure h st ≤ fuel →
  ∃ self', order_loop fuel h st = Ok self'.
Proof.
  induction fuel as [|fuel IH]; intros [self visited queue] Hinv Hfuel;
    unfold measure in Hfuel; simpl in *;
    (destruct queue as [|n queue]; [rewrite order_loop_nil; by eexists|]);
    simpl in *; [lia|].
  rewrite order_loop_cons.
  set (st1 := mkOrder self visited queue).
  assert (n ∈ visited) as Hn.
  { apply (oi_queue _ _ _ _ _ _ Hinv). by left. }
  assert (order_inv h ins D self0 (Some n) st1) as Hinv1.
  { pose proof (oi_queue _ _ _ _ _ _ Hinv) as Hqueue.
    pose proof (oi_expanded _ _ _ _ _ _ Hinv) as Hexp.
    destruct Hinv. split; simpl in *; try done.
    - intros m Hm. apply Hqueue. by right.
    - intros m Hm.
      destruct (Hexp m Hm) as [[->|?]%elem_of_cons|[?|?]];
        [by right; right|by left|by right; left|done]. }
  assert (outcome
    (for_each (HyperNode.out_hypermodels (node_at h n)) st1 (visit_hypermodel h))
    (λ st,
       order_inv h ins D self0 (Some n) st ∧ measure h st ≤ fuel ∧
       visited ⊆ os_visited st ∧
       ∀ b, b ∈ HyperNode.out_hypermodels (node_at h n) → wanted h D b →
         b ∈ _hypermodels (os_self st) ∧
         ∀ o, o ∈ HyperBlock.outputs (block_at h b) → o ∈ os_visited st)
    (λ _, False)) as Hloop.
  { apply (for_each_ind (visit_hypermodel h)
      (λ pre st,
         order_inv h ins D self0 (Some n) st ∧ measure h st ≤ fuel ∧
         visited ⊆ os_visited st ∧
         ∀ b, b ∈ pre → wanted h D b →
           b ∈ _hypermodels (os_self st) ∧
           ∀ o, o ∈ HyperBlock.outputs (block_at h b) → o ∈ os_visited st)).
    - split_and!; [done|unfold measure; simpl; lia|done|by intros b ?%elem_of_nil].
    - intros pre b post st Hsplit (Hinv2 & Hm2 & Hv2 & Hpre).
      assert (b ∈ HyperNode.out_hypermodels (node_at h n)) as Hb
        by (rewrite Hsplit; set_solver).
      apply outcome_no_raise with (E := block_missing_input);
        [|by apply (visit_hypermodel_succeeds n); [|apply Hv2|]].
      eapply outcome_mono; [apply (visit_hypermodel_spec h ins D self0 n st b)| |done].
      + done.
      + by apply Hv2.
      + done.
      + intros st' (Hinv3 & Hm3 & Hh3 & Hv3 & Hb3). split_and!; [done|lia|set_solver|].
        intros b0 [Hb0| ->%list_elem_of_singleton]%elem_of_app Hw; [|by apply Hb3].
        destruct (Hpre b0 Hb0 Hw) as [? ?]. split; [by apply Hh3|]. intros o Ho.
        apply Hv3. auto. }
  destruct (for_each _ st1 _) as [st2| |]; simpl in Hloop; [|done..].
  destruct Hloop as (Hinv2 & Hm2 & Hv2 & Hdone). simpl. apply IH; [|done].
  pose proof (oi_expanded _ _ _ _ _ _ Hinv2) as Hexp.
  destruct Hinv2. split; try done.
  intros m Hm. destruct (Hexp m Hm) as [?|[?|[= ->]]]; auto.
Qed.
End OrderSucceeds.

Lemma finalize_succeeds outs : ∀ h,
  outputs_produced h outs ↔ ∃ h', for_each outs h set_output_shape = Ok h'.
Proof.
  induction outs as [|o outs IH]; intros h.
  { split; [by eexists|]. by intros _ o ?%elem_of_nil. }
  change (for_each (o :: outs) h set_output_shape)
    with (set_output_shape h o ≫= λ h, for_each outs h set_output_shape).
  pose proof (set_output_shape_outcome h o) as Ho.
  pose proof (set_output_shape_node_at h o) as Hn.
  destruct (set_output_shape h o) as [h1| |]; simpl.
  - rewrite <-IH. unfold outputs_produced. split.
    + intros Hp o' Ho'. rewrite Hn by done. apply Hp. by right.
    + intros Hp o' [->|Ho']%elem_of_cons; [done|]. rewrite <-(Hn h1) by done. by apply Hp.
  - split; [|by intros [? ?]]. intros Hp. destruct (Hp o); [by left|done].
  - done.
Qed.

(** X6.  On a heap in which every node has at most one producer and every
    block is registered with its inputs, construction succeeds exactly when
    no cycle is reachable from a designated input, every designated node
    lies on a path, every input of a block on a path can be reached from a
    designated input, and every designated output has a producer. *)
Theorem construction_succeeds_iff h self :
  single_producer h → inputs_registered h →
  (∃ self' h', _build_network h self = Ok (self', h')) ↔
  ¬ reachable_cycle h (inputs self) ∧
  connected h (inputs self) (outputs self) ∧
  blocks_fed h (inputs self) (outputs self) ∧
  outputs_produced h (outputs self).
Proof.
  intros Huniq Hreg. split.
  - intros (self' & h' & Hrun). pose proof (_build_network_spec h self) as Hspec.
    rewrite Hrun in Hspec. simpl in Hspec. split_and!.
    + apply (c_acyclic _ _ _ _ Hspec).
    + apply (c_connected _ _ _ _ Hspec).
    + intros b i (n & o & Hn & Hb & Ho & Hto) Hi.
      eapply (ordered_inputs_reachable h self self' h' b i Hrun); [|done].
      by apply (c_complete _ _ _ _ Hspec n b o).
    + apply finalize_succeeds. exists h'. apply (c_heap _ _ _ _ Hspec).
  - intros (Hacyc & Hconn & Hfed & Hprod). unfold _build_network.
    pose proof (discover_spec h (with_node_to_id self ∅)) as Hdisc. simpl in Hdisc.
    destruct (discover h (with_node_to_id self ∅)) as [self1|e|]; simpl in Hdisc.
    + destruct Hdisc as (Hcfg & _ & Hsound & Hcompl & _); [set_solver|].
      destruct (same_config_fields _ _ Hcfg) as (Hi & Ho & _); simpl in *.
      pose proof (check_connected_spec (_node_to_id self1)
                    (inputs self1 ++ outputs self1)) as Hchk.
      simpl. destruct (for_each (inputs self1 ++ outputs self1) tt _) as [[]|e|];
        simpl in Hchk.
      * simpl. rewrite seed_queue. simpl.
        set (self2 := with_hypermodels _ _ _).
        assert (∀ u, u ∈ dom (_node_to_id self1) ↔
                     on_path h (inputs self) (outputs self) u) as HD
          by (intros u; split; [apply Hsound|apply Hcompl]).
        match goal with
        | |- ∃ _ _, order_loop ?f h ?st ≫= _ = _ =>
            destruct (order_loop_succeeds h (inputs self) (outputs self)
                        (dom (_node_to_id self1)) self2 HD Huniq Hreg Hfed f st)
              as [self3 Hord]
        end.
        -- split; simpl; try done.
           ++ by left.
           ++ intros n. set_solver.
           ++ intros n Hn. exists n. split; [|done]. rewrite Hi. set_solver.
           ++ apply NoDup_nil_2.
           ++ by intros b ?%elem_of_nil.
           ++ intros n Hn. left. set_solver.
        -- unfold measure; simpl.
           assert (all_outputs h ∖ (list_to_set (inputs self1) ∪ ∅) ⊆ all_outputs h)
             as ?%subseteq_size by set_solver.
           lia.
        -- rewrite Hord. simpl.
           assert (outputs self3 = outputs self) as ->.
           { refine (order_loop_preserve (λ s, outputs s = outputs self)
                       h _ _ _ _ _ Hord); [|done].
             intros s b s' Hs Hadd. pose proof (_add_hypermodel_spec h s b) as Hspec.
             rewrite Hadd in Hspec. destruct Hspec as ((_ & <- & _) & _). done. }
           apply finalize_succeeds in Hprod as [h' ->]. by eexists _, _.
      * destruct Hchk as (_ & x & Hx & Hnx). destruct Hnx.
        apply Hcompl, Hconn. by rewrite Hi, Ho.
      * done.
    + by destruct Hdisc as [_ ?].
    + by destruct Hdisc.
Qed.

Lemma chain_heap_single_producer : single_producer chain_heap.
Proof.
  intros o [|b] [|b']; simpl; intros H1 H2; try done;
    by apply elem_of_nil in H1 || by apply elem_of_nil in H2.
Qed.

Lemma chain_heap_inputs_registered : inputs_registered chain_heap.
Proof.
  intros [|b] i; simpl; [|by intros ?%elem_of_nil].
  intros ->%list_elem_of_singleton. by left.
Qed.

Lemma construction_succeeds_iff_witness :
  (∃ self' h', _build_network chain_heap (model [0] [1]) = Ok (self', h')) ↔
  ¬ reachable_cycle chain_heap (inputs (model [0] [1])) ∧
  connected chain_heap (inputs (model [0] [1])) (outputs (model [0] [1])) ∧
  blocks_fed chain_heap (inputs (model [0] [1])) (outputs (model [0] [1])) ∧
  outputs_produced chain_heap (outputs (model [0] [1])).
Proof.
  apply construction_succeeds_iff.
  - exact chain_heap_single_producer.
  - exact chain_heap_inputs_registered.
Defined.

(** ** [HyperBlock.__call__] *)

Lemma node_at_update h n f n' :
  node_at (update_node h n f) n' =
  if decide (n = n' ∧ n < length (nodes h)) then f (node_at h n) else node_at h n'.
Proof.
  unfold node_at, update_node; simpl.
  destruct (decide (n = n' ∧ n < length (nodes h))) as [[<- Hlt]|Hno].
  - rewrite list_lookup_alter_eq.
    apply lookup_lt_is_Some_2 in Hlt as [nd Hnd]. by rewrite Hnd.
  - destruct (decide (n = n')) as [<-|Hne].
    + rewrite list_lookup_alter_eq.
      destruct (nodes h !! n) as [nd|] eqn:Hn; [|done].
      apply lookup_lt_Some in Hn. tauto.
    + by rewrite list_lookup_alter_ne.
Qed.

(** The loop [for input_node in self.inputs: input_node.add_out_hypermodel(self)]. *)
Definition register_consumer (self : nat) (h : Heap) (ins : list nat) : Heap :=
  foldl (λ h input_node,
    update_node h input_node (λ nd, HyperNode.add_out_hypermodel nd self)) h ins.

Lemma register_consumer_spec self ins : ∀ h,
  blocks (register_consumer self h ins) = blocks h ∧
  length (nodes (register_consumer self h ins)) = length (nodes h) ∧
  ∀ n, node_at (register_consumer self h ins) n =
       if decide (n < length (nodes h))
       then HyperNode.mk (HyperNode.shape (node_at h n))
              (HyperNode.in_hypermodels (node_at h n))
              (HyperNode.out_hypermodels (node_at h n)
                 ++ replicate (occurrences n ins) self)
       else node_at h n.
Proof.
  induction ins as [|i ins IH]; intros h.
  - split_and!; [done..|]. intros n. simpl. rewrite app_nil_r.
    case_decide; [|done]. by destruct (node_at h n).
  - unfold register_consumer in *. simpl.
    destruct (IH (update_node h i (λ nd, HyperNode.add_out_hypermodel nd self)))
      as (Hb & Hl & Hn).
    split_and!; [done|by rewrite Hl; simpl; rewrite length_alter|].
    intros n. rewrite Hn. simpl. rewrite length_alter, node_at_update.
    unfold occurrences. rewrite filter_cons.
    destruct (decide (n < length (nodes h))) as [Hlt|Hge]; [|by rewrite decide_False by lia].
    destruct (decide (i = n)) as [->|Hne].
    + rewrite decide_True by done. simpl. by rewrite <-app_assoc.
    + by rewrite decide_False by (intros [? _]; congruence).
Qed.

Lemma fresh_outputs_spec self k : ∀ h acc,
  fresh_outputs k self h acc =
  (mkHeap (nodes h ++ replicate k (HyperNode.mk None [self] [])) (blocks h),
   acc ++ seq (length (nodes h)) k).
Proof.
  induction k as [|k IH]; intros [nds blks] acc; simpl.
  - by rewrite !app_nil_r.
  - rewrite IH. simpl.
    replace (alter (λ nd, HyperNode.add_in_hypermodel nd self) (length nds)
               (nds ++ [HyperNode.new]))
      with (nds ++ [HyperNode.mk None [self] []]).
    + rewrite length_app, <-!app_assoc. simpl. by rewrite Nat.add_1_r.
    + pose proof (alter_app_r (λ nd, HyperNode.add_in_hypermodel nd self)
                    nds [HyperNode.new] 0) as Halter.
      rewrite Nat.add_0_r in Halter. by rewrite Halter.
Qed.

Lemma register_consumer_nodes self ins : ∀ h blks,
  register_consumer self (mkHeap (nodes h) blks) ins =
  mkHeap (nodes (register_consumer self h ins)) blks.
Proof.
  unfold register_consumer.
  induction ins as [|i ins IH]; intros h blks; simpl; [done|].
  unfold update_node at 2. simpl.
  rewrite <-(IH (update_node h i _) blks). done.
Qed.

(** The heap after [hypermodel(inputs)], written out. *)
Definition called (h : Heap) (self : nat) (inputs : list nat) : Heap :=
  let k := HyperBlock.n_output_node (block_at h self) in
  mkHeap (nodes (register_consumer self h inputs)
            ++ replicate k (HyperNode.mk None [self] []))
         (alter (λ b, HyperBlock.mk (HyperBlock.name b) inputs
                        (seq (length (nodes h)) k)
                        (HyperBlock.n_output_node b) (HyperBlock.output_shape b))
                self (blocks h)).

Lemma HyperBlock_call_called h self inputs :
  HyperBlock_call h self inputs =
  (called h self inputs,
   seq (length (nodes h)) (HyperBlock.n_output_node (block_at h self))).
Proof.
  unfold HyperBlock_call, called.
  fold (register_consumer self
          (update_block h self (λ b,
             HyperBlock.mk (HyperBlock.name b) inputs (HyperBlock.outputs b)
               (HyperBlock.n_output_node b) (HyperBlock.output_shape b))) inputs).
  set (h1 := update_block h self _).
  assert (HyperBlock.n_output_node (block_at (register_consumer self h1 inputs) self)
          = HyperBlock.n_output_node (block_at h self)) as ->.
  { unfold block_at at 1. rewrite (proj1 (register_consumer_spec self inputs h1)).
    fold (block_at h1 self). subst h1. rewrite block_at_update. by case_decide. }
  assert (register_consumer self h1 inputs
          = mkHeap (nodes (register_consumer self h inputs)) (blocks h1)) as ->
    by apply register_consumer_nodes.
  rewrite fresh_outputs_spec. simpl.
  rewrite (proj1 (proj2 (register_consumer_spec self inputs h))).
  unfold update_block. simpl. f_equal. f_equal.
  rewrite list_alter_alter_eq. by apply list_alter_ext.
Qed.

Lemma called_block_at h self inputs b :
  block_at (called h self inputs) b =
  if decide (self = b ∧ self < length (blocks h))
  then HyperBlock.mk (HyperBlock.name (block_at h self)) inputs
         (seq (length (nodes h)) (HyperBlock.n_output_node (block_at h self)))
         (HyperBlock.n_output_node (block_at h self))
         (HyperBlock.output_shape (block_at h self))
  else block_at h b.
Proof.
  pose proof (block_at_update h self (λ b, HyperBlock.mk (HyperBlock.name b) inputs
     (seq (length (nodes h)) (HyperBlock.n_output_node (block_at h self)))
     (HyperBlock.n_output_node b) (HyperBlock.output_shape b)) b) as Hupd.
  unfold block_at, update_block in Hupd. simpl in Hupd.
  unfold block_at, called. simpl. apply Hupd.
Qed.

Lemma called_node_at h self inputs n :
  node_at (called h self inputs) n =
  if decide (n < length (nodes h))
  then HyperNode.mk (HyperNode.shape (node_at h n))
         (HyperNode.in_hypermodels (node_at h n))
         (HyperNode.out_hypermodels (node_at h n)
            ++ replicate (occurrences n inputs) self)
  else if decide (n < length (nodes h) + HyperBlock.n_output_node (block_at h self))
  then HyperNode.mk None [self] []
  else HyperNode.new.
Proof.
  destruct (register_consumer_spec self inputs h) as (_ & Hl & Hn).
  unfold called, node_at at 1. simpl.
  destruct (decide (n < length (nodes h))) as [Hlt|Hge].
  - rewrite lookup_app_l by lia. specialize (Hn n). rewrite decide_True in Hn by done.
    apply Hn.
  - rewrite lookup_app_r by lia. rewrite Hl. case_decide as Hk.
    + by rewrite lookup_replicate_2 by lia.
    + rewrite lookup_ge_None_2; [done|]. rewrite length_replicate. lia.
Qed.

(** X7.  What [hypermodel(inputs)] does to the heap, for a live block and
    live input nodes: the block records [inputs] and its fresh outputs; it
    returns [n_output_node] distinct nodes that did not exist before, each
    without shape or consumer and with the block as only producer; every
    input node names the block among its consumers, once per occurrence in
    [inputs]; an existing node keeps its shape and producers, and every
    other block is as it was. *)
Theorem call_links_block h self ins h' outs :
  self < length (blocks h) →
  (∀ i, i ∈ ins → i < length (nodes h)) →
  HyperBlock_call h self ins = (h', outs) →
  HyperBlock.inputs (block_at h' self) = ins ∧
  HyperBlock.outputs (block_at h' self) = outs ∧
  length outs = HyperBlock.n_output_node (block_at h self) ∧
  NoDup outs ∧
  (∀ o, o ∈ outs →
        length (nodes h) ≤ o ∧ node_at h' o = HyperNode.mk None [self] []) ∧
  (∀ i, i ∈ ins → self ∈ HyperNode.out_hypermodels (node_at h' i)) ∧
  (∀ n, n < length (nodes h) →
        HyperNode.shape (node_at h' n) = HyperNode.shape (node_at h n) ∧
        HyperNode.in_hypermodels (node_at h' n) = HyperNode.in_hypermodels (node_at h n) ∧
        HyperNode.out_hypermodels (node_at h' n) =
          HyperNode.out_hypermodels (node_at h n) ++ replicate (occurrences n ins) self) ∧
  (∀ b, b ≠ self → block_at h' b = block_at h b).
Proof.
  intros Hself Hins. rewrite HyperBlock_call_called. intros [= <- <-].
  split_and!.
  - rewrite called_block_at. by rewrite decide_True.
  - rewrite called_block_at. by rewrite decide_True.
  - apply length_seq.
  - apply NoDup_seq.
  - intros o [Hlo Hhi]%elem_of_seq. split; [done|]. rewrite called_node_at.
    rewrite decide_False by lia. by rewrite decide_True by lia.
  - intros i Hi. rewrite called_node_at, decide_True by auto. simpl.
    apply elem_of_app. right. apply elem_of_replicate. split; [done|].
    unfold occurrences. intros Hlen. apply length_zero_iff_nil in Hlen.
    assert (i ∈ filter (λ x, x = i) ins) as Hin by (by apply list_elem_of_filter).
    rewrite Hlen in Hin. by apply elem_of_nil in Hin.
  - intros n Hn. by rewrite called_node_at, decide_True.
  - intros b Hb. rewrite called_block_at. by rewrite decide_False by (intros [? _]; congruence).
Qed.

Lemma call_links_block_witness :
  ∃ h' outs, HyperBlock_call chain_heap 0 [0; 0] = (h', outs) ∧
    HyperNode.out_hypermodels (node_at h' 0) = [0; 0; 0] ∧ outs = [2].
Proof.
  destruct (HyperBlock_call chain_heap 0 [0; 0]) as [h' outs] eqn:Hcall.
  exists h', outs. split; [reflexivity|].
  destruct (call_links_block chain_heap 0 [0; 0] h' outs) as
    (_ & _ & _ & _ & _ & _ & Hold & _);
    [vm_compute; lia|intros i Hi; vm_compute;
     repeat (apply elem_of_cons in Hi as [->|Hi]; [lia|]); by apply elem_of_nil in Hi
    |exact Hcall|].
  split; [exact (proj2 (proj2 (Hold 0 ltac:(vm_compute; lia))))|].
  vm_compute in Hcall. by injection Hcall as _ <-.
Defined.

(** *** Calls and cycles *)

Lemma called_edge h self ins x y :
  edge (called h self ins) x y →
  x < length (nodes h) ∧ (edge h x y ∨ length (nodes h) ≤ y).
Proof.
  unfold edge. rewrite !elem_of_successors. intros (b & Hb & Hy).
  rewrite called_node_at in Hb. rewrite called_block_at in Hy.
  destruct (decide (x < length (nodes h))) as [Hx|Hx]; simpl in Hb.
  - split; [done|]. case_decide as Hself; simpl in Hy.
    + right. by apply elem_of_seq in Hy as [? _].
    + left. exists b. split; [|done].
      apply elem_of_app in Hb as [Hb|[Heq _]%elem_of_replicate]; [done|]. subst b.
      destruct (decide (self < length (blocks h))) as [?|Hdead]; [by destruct Hself|].
      unfold block_at in Hy. rewrite lookup_ge_None_2 in Hy by lia.
      by apply elem_of_nil in Hy.
  - destruct (decide _); by apply elem_of_nil in Hb.
Qed.

Lemma called_tc h self ins x y :
  tc (edge (called h self ins)) x y →
  y < length (nodes h) → tc (edge h) x y.
Proof.
  induction 1 as [x y Hxy|x z y Hxz Hzy IH]; intros Hy.
  - apply called_edge in Hxy as [_ [?|?]]; [by apply tc_once|lia].
  - assert (z < length (nodes h)) as Hz.
    { destruct Hzy as [? ? Hzy|? ? ? Hzy _]; by apply called_edge in Hzy as [? _]. }
    apply called_edge in Hxz as [_ [?|?]]; [|lia]. eapply tc_l; [done|]. by apply IH.
Qed.

(** X8.  Calling a block never closes a cycle: a cycle of the heap after
    [hypermodel(inputs)] is a cycle of the heap before, whatever the block
    and the inputs (the outputs are fresh nodes without consumers, and a
    second call of a block replaces its outputs). *)
Theorem call_creates_no_cycle h self ins n :
  tc (edge (HyperBlock_call h self ins).1) n n → tc (edge h) n n.
Proof.
  rewrite HyperBlock_call_called. simpl. intros Hcyc. apply (called_tc _ _ _ _ _ Hcyc).
  inversion Hcyc as [? ? Hn|? ? ? Hn _]; subst; by apply called_edge in Hn as [? _].
Qed.

Lemma call_creates_no_cycle_witness :
  tc (edge (alloc_block (loop_heap 0) (HyperBlock.new "B")).1) 0 0.
Proof.
  apply (call_creates_no_cycle _ 1 [1]).
  apply tc_once. unfold edge. vm_compute. by left.
Defined.

(** *** Graphs assembled by calling blocks *)

(** The heaps that the functional API produces: nodes come from
    [HyperNode()], blocks from [HyperBlock.__init__] (with the number of
    output nodes that the subclass chooses), and edges only from calling a
    block on existing nodes. *)
Inductive built : Heap → Prop :=
  | built_empty : built empty_heap
  | built_node h : built h → built (alloc_node h HyperNode.new).1
  | built_block h name k :
      built h → built (alloc_block h (HyperBlock.mk name [] [] k None)).1
  | built_call h self ins :
      built h → self < length (blocks h) →
      (∀ i, i ∈ ins → i < length (nodes h)) →
      built (HyperBlock_call h self ins).1.

Definition acyclic (h : Heap) : Prop := ∀ n, ¬ tc (edge h) n n.

(** Every output of a block is a live node whose only producer is the block. *)
Definition outputs_owned (h : Heap) : Prop :=
  ∀ b o, o ∈ HyperBlock.outputs (block_at h b) →
         o < length (nodes h) ∧ HyperNode.in_hypermodels (node_at h o) = [b].

Lemma outputs_owned_single_producer h : outputs_owned h → single_producer h.
Proof.
  intros Hown o b b' [_ Hb]%Hown [_ Hb']%Hown. congruence.
Qed.

Lemma alloc_node_node_at h n : node_at (alloc_node h HyperNode.new).1 n = node_at h n.
Proof.
  unfold node_at, alloc_node. simpl.
  destruct (decide (n < length (nodes h))) as [Hlt|Hge].
  - by rewrite lookup_app_l.
  - rewrite lookup_app_r by lia. rewrite (lookup_ge_None_2 (nodes h)) by lia.
    by destruct (n - length (nodes h)) as [|[|?]].
Qed.

Lemma alloc_block_links h name k b :
  HyperBlock.inputs (block_at (alloc_block h (HyperBlock.mk name [] [] k None)).1 b)
    = HyperBlock.inputs (block_at h b) ∧
  HyperBlock.outputs (block_at (alloc_block h (HyperBlock.mk name [] [] k None)).1 b)
    = HyperBlock.outputs (block_at h b).
Proof.
  unfold block_at, alloc_block. simpl.
  destruct (decide (b < length (blocks h))) as [Hlt|Hge].
  - by rewrite lookup_app_l.
  - rewrite lookup_app_r by lia. rewrite (lookup_ge_None_2 (blocks h)) by lia.
    by destruct (b - length (blocks h)) as [|[|?]].
Qed.

Lemma edge_ext h h' :
  (∀ n, HyperNode.out_hypermodels (node_at h' n) = HyperNode.out_hypermodels (node_at h n)) →
  (∀ b, HyperBlock.outputs (block_at h' b) = HyperBlock.outputs (block_at h b)) →
  ∀ x y, edge h' x y → edge h x y.
Proof.
  intros Hn Hb x y. unfold edge. rewrite !elem_of_successors.
  intros (b & Hin & Hout). exists b. by rewrite <-Hn, <-Hb.
Qed.

Lemma acyclic_ext h h' :
  (∀ n, HyperNode.out_hypermodels (node_at h' n) = HyperNode.out_hypermodels (node_at h n)) →
  (∀ b, HyperBlock.outputs (block_at h' b) = HyperBlock.outputs (block_at h b)) →
  acyclic h → acyclic h'.
Proof.
  intros Hn Hb Hacyc n Hcyc. apply (Hacyc n).
  apply (tc_congruence id (edge h) n n (edge_ext h h' Hn Hb) Hcyc).
Qed.

Lemma built_closed h :
  built h → acyclic h ∧ outputs_owned h ∧ inputs_registered h.
Proof.
  induction 1 as [|h _ (Hacyc & Hown & Hreg)|h name k _ (Hacyc & Hown & Hreg)
                  |h self ins _ (Hacyc & Hown & Hreg) Hself Hins].
  - split_and!.
    + intros n Hcyc. inversion Hcyc as [? ? He|? ? ? He _]; subst;
        unfold edge in He; by apply elem_of_nil in He.
    + by intros b o ?%elem_of_nil.
    + by intros b i ?%elem_of_nil.
  - split_and!.
    + apply (acyclic_ext h); [|done..]. intros n. by rewrite alloc_node_node_at.
    + intros b o Ho. rewrite alloc_node_node_at. destruct (Hown b o Ho) as [Hlt ?].
      split; [|done]. simpl. rewrite length_app. lia.
    + intros b i Hi. rewrite alloc_node_node_at. by apply Hreg.
  - split_and!.
    + apply (acyclic_ext h); [done| |done]. intros b. apply alloc_block_links.
    + intros b o Ho. rewrite (proj2 (alloc_block_links h name k b)) in Ho.
      by apply Hown.
    + intros b i Hi. rewrite (proj1 (alloc_block_links h name k b)) in Hi.
      by apply Hreg.
  - rewrite HyperBlock_call_called. simpl. split_and!.
    + intros n Hcyc. apply (Hacyc n). apply (called_tc _ _ _ _ _ Hcyc).
      inversion Hcyc as [? ? Hn|? ? ? Hn _]; subst; by apply called_edge in Hn as [? _].
    + intros b o. rewrite called_block_at, called_node_at.
      assert (length (nodes (called h self ins)) =
              length (nodes h) + HyperBlock.n_output_node (block_at h self)) as ->.
      { unfold called. simpl. rewrite length_app, length_replicate.
        by rewrite (proj1 (proj2 (register_consumer_spec self ins h))). }
      case_decide as Hb; simpl.
      * destruct Hb as [<- _]. intros [? ?]%elem_of_seq.
        rewrite decide_False by lia. rewrite decide_True by lia. split; [lia|done].
      * intros Ho. destruct (Hown b o Ho) as [Hlt ?].
        rewrite decide_True by done. split; [lia|done].
    + intros b i. rewrite called_block_at, called_node_at. case_decide as Hb; simpl.
      * destruct Hb as [<- _]. intros Hi. rewrite decide_True by auto. simpl.
        apply elem_of_app. right. apply elem_of_replicate. split; [done|].
        unfold occurrences. intros Hlen. apply length_zero_iff_nil in Hlen.
        assert (i ∈ filter (λ x, x = i) ins) as Hin by (by apply list_elem_of_filter).
        rewrite Hlen in Hin. by apply elem_of_nil in Hin.
      * intros Hi. pose proof (Hreg b i Hi) as Hbi.
        destruct (decide (i < length (nodes h))) as [?|Hdead]; simpl.
        -- apply elem_of_app. by left.
        -- unfold node_at in Hbi. rewrite lookup_ge_None_2 in Hbi by lia.
           by apply elem_of_nil in Hbi.
Qed.

Lemma built_chain_heap : built chain_heap.
Proof.
  apply (built_call _ 0 [0]).
  - apply (built_block _ "block" 1), built_node, built_empty.
  - vm_compute. lia.
  - intros i ->%list_elem_of_singleton. vm_compute. lia.
Qed.

(** X9.  On a heap assembled by creating nodes and blocks and calling
    blocks, the two directions of the bookkeeping agree: every output of a
    block has the block as its only producer, every input of a block names
    the block among its consumers, and no node is an output of two blocks. *)
Theorem built_heaps_well_formed h :
  built h →
  (∀ b o, o ∈ HyperBlock.outputs (block_at h b) →
          HyperNode.in_hypermodels (node_at h o) = [b]) ∧
  (∀ b i, i ∈ HyperBlock.inputs (block_at h b) →
          b ∈ HyperNode.out_hypermodels (node_at h i)) ∧
  single_producer h.
Proof.
  intros (_ & Hown & Hreg)%built_closed. split_and!.
  - intros b o Ho. by apply Hown.
  - done.
  - by apply outputs_owned_single_producer.
Qed.

Lemma built_heaps_well_formed_witness : single_producer chain_heap.
Proof.
  exact (proj2 (proj2 (built_heaps_well_formed chain_heap built_chain_heap))).
Defined.

(** X10.  On a heap assembled by creating nodes and blocks and calling
    blocks, construction never raises the cycle error, whatever the
    designated inputs and outputs: the check of [_search_network] can only
    fire on graphs whose attributes were edited by hand. *)
Theorem built_heaps_never_cyclic h self :
  built h → _build_network h self ≠ Raise cycle_error.
Proof.
  intros (Hacyc & _)%built_closed Hrun.
  pose proof (_build_network_spec h self) as Hspec.
  rewrite Hrun in Hspec. simpl in Hspec.
  destruct Hspec as [[_ (r & n & _ & _ & Hcyc)]|[_ [[Heq _]|[_ [[name Heq]|Heq]]]]].
  - by apply (Hacyc n).
  - discriminate Heq.
  - discriminate Heq.
  - discriminate Heq.
Qed.

Lemma built_heaps_never_cyclic_witness :
  _build_network chain_heap (model [0] [1]) ≠ Raise cycle_error.
Proof.
  exact (built_heaps_never_cyclic chain_heap (model [0] [1]) built_chain_heap).
Defined.

(** ** Materialization *)

(** A node whose tensor is known once the blocks of [pre] have been built:
    a designated input or an output of one of these blocks. *)
Definition available (h : Heap) (self : GraphAutoModel) (pre : list nat) (n : nat) : Prop :=
  n ∈ inputs self ∨ ∃ b, b ∈ pre ∧ n ∈ HyperBlock.outputs (block_at h b).

(** The order is topological: every input of a block is available when the
    turn of the block comes. *)
Definition input_ready (h : Heap) (self : GraphAutoModel) : Prop :=
  ∀ pre b post i, _hypermodels self = pre ++ b :: post →
                  i ∈ HyperBlock.inputs (block_at h b) → available h self pre i.

(** The [KeyError] of a block input that is looked up before it is stored. *)
Definition premature_lookup (h : Heap) (self : GraphAutoModel) (e : exn) : Prop :=
  ∃ pre b post i k,
    _hypermodels self = pre ++ b :: post ∧
    i ∈ HyperBlock.inputs (block_at h b) ∧
    ¬ available h self pre i ∧
    _node_to_id self !! i = Some k ∧
    e = KeyError k.

Lemma comprehension_outcome {A B} (f : A → res B) (l : list A) (E : exn → Prop) :
  (∀ x, x ∈ l → outcome (f x) (λ _, True) E) →
  outcome (comprehension f l) (λ ys, length ys = length l) E.
Proof.
  induction l as [|x l IH]; intros Hf; simpl; [done|].
  pose proof (Hf x ltac:(by left)) as Hx.
  destruct (f x) as [y| |]; simpl in *; [|done..].
  assert (∀ x, x ∈ l → outcome (f x) (λ _, True) E) as Hl
    by (intros ? ?; apply Hf; by right).
  specialize (IH Hl). destruct (comprehension f l); simpl in *; [|done..].
  by rewrite IH.
Qed.

Section BuildSpec.
Context {Tensor HyperParameters : Type}.
Variable node_build : nat → HyperParameters → Tensor.
Variable hypermodel_build : nat → HyperParameters → list Tensor → list Tensor.
Variables (h : Heap) (self : GraphAutoModel) (hp : HyperParameters).

Hypothesis Hinj : ∀ n1 n2 k,
  _node_to_id self !! n1 = Some k → _node_to_id self !! n2 = Some k → n1 = n2.
Hypothesis Hinputs : ∀ n, n ∈ inputs self → n ∈ dom (_node_to_id self).
Hypothesis Hblocks : ∀ b n, b ∈ _hypermodels self →
  n ∈ HyperBlock.inputs (block_at h b) ++ HyperBlock.outputs (block_at h b) →
  n ∈ dom (_node_to_id self).
Hypothesis Houtputs : ∀ o, o ∈ outputs self → available h self (_hypermodels self) o.
Hypothesis Henough : ∀ b ts,
  length (HyperBlock.outputs (block_at h b)) ≤ length (hypermodel_build b hp ts).

(** [real_nodes] holds a tensor under the id of the nodes in [P], and under
    no other key. *)
Definition stored (real_nodes : gmap nat Tensor) (P : nat → Prop) : Prop :=
  ∀ k, k ∈ dom real_nodes ↔ ∃ n, P n ∧ _node_to_id self !! n = Some k.

Lemma real_node_outcome real_nodes P n :
  stored real_nodes P → n ∈ dom (_node_to_id self) →
  match real_node self real_nodes n with
  | Ok _ => P n
  | Raise e => ¬ P n ∧ ∃ k, _node_to_id self !! n = Some k ∧ e = KeyError k
  | OutOfFuel => False
  end.
Proof.
  intros Hst [k Hk]%elem_of_dom. unfold real_node, getitem. rewrite Hk. simpl.
  destruct (real_nodes !! k) as [t|] eqn:Ht; simpl.
  - apply elem_of_dom_2, Hst in Ht as (n' & Hn' & Hk'). by rewrite (Hinj n n' k).
  - split; [|by exists k]. intros Hn. apply not_elem_of_dom in Ht. apply Ht, Hst. eauto.
Qed.

Lemma store_inputs :
  outcome (for_each (inputs self) ∅ (λ real_nodes input_node,
             node_id ← getitem (_node_to_id self) input_node;
             Ok (<[node_id := node_build input_node hp]> real_nodes)))
          (λ real_nodes, stored real_nodes (λ n, n ∈ inputs self))
          (λ _, False).
Proof.
  apply (for_each_ind _ (λ pre real_nodes, stored real_nodes (λ n, n ∈ pre))).
  - intros k. rewrite dom_empty. split; [by intros ?%elem_of_empty|].
    by intros (n & ?%elem_of_nil & _).
  - intros pre n post real_nodes Hsplit Hst.
    assert (n ∈ dom (_node_to_id self)) as [k Hk]%elem_of_dom
      by (apply Hinputs; rewrite Hsplit; set_solver).
    unfold getitem. rewrite Hk. simpl. unfold stored in *.
    intros k'. rewrite dom_insert, elem_of_union, Hst.
    rewrite elem_of_singleton. split.
    + intros [->|(n' & Hn' & Hk')]; [exists n|exists n']; set_solver.
    + intros (n' & [Hn'| ->%list_elem_of_singleton]%elem_of_app & Hk');
        [right; eauto|left; congruence].
Qed.

Lemma store_outputs (outs : list nat) (ts : list Tensor) : ∀ real_nodes P,
  stored real_nodes P → length outs ≤ length ts →
  (∀ o, o ∈ outs → o ∈ dom (_node_to_id self)) →
  outcome (for_each (zip outs ts) real_nodes
             (λ real_nodes '(output_node, real_output_node),
                node_id ← getitem (_node_to_id self) output_node;
                Ok (<[node_id := real_output_node]> real_nodes)))
          (λ real_nodes, stored real_nodes (λ n, P n ∨ n ∈ outs))
          (λ _, False).
Proof.
  unfold stored.
  revert ts. induction outs as [|o outs IH]; intros ts real_nodes P Hst Hlen Hids.
  - simpl. intros k. rewrite Hst. split; intros (n & Hn & Hk); exists n; set_solver.
  - destruct ts as [|t ts]; [simpl in Hlen; lia|]. simpl.
    assert (o ∈ dom (_node_to_id self)) as [k Hk]%elem_of_dom by (apply Hids; by left).
    assert (getitem (_node_to_id self) o = Ok k) as ->
      by (unfold getitem; by rewrite Hk).
    simpl.
    eapply outcome_mono;
      [apply (IH ts (<[k := t]> real_nodes) (λ n, P n ∨ n = o))| |done].
    + intros k'. rewrite dom_insert, elem_of_union, Hst, elem_of_singleton. split.
      * intros [->|(n' & Hn' & Hk')]; [exists o|exists n']; auto.
      * intros (n' & [Hn'| ->] & Hk'); [right; eauto|left; congruence].
    + simpl in Hlen. lia.
    + intros o' Ho'. apply Hids. by right.
    + intros rn Hrn k'. cbv beta in Hrn. rewrite Hrn. split; intros (n & Hn & Hk'); exists n;
        (split; [|done]); set_solver.
Qed.

Lemma build_hypermodel_outcome pre b post real_nodes :
  _hypermodels self = pre ++ b :: post →
  stored real_nodes (available h self pre) →
  outcome (build_hypermodel hypermodel_build h self hp real_nodes b)
    (λ real_nodes',
       stored real_nodes' (available h self (pre ++ [b])) ∧
       ∀ i, i ∈ HyperBlock.inputs (block_at h b) → available h self pre i)
    (premature_lookup h self).
Proof.
  intros Hsplit Hst. unfold build_hypermodel.
  assert (b ∈ _hypermodels self) as Hb by (rewrite Hsplit; set_solver).
  assert (outcome
    (comprehension (real_node self real_nodes) (HyperBlock.inputs (block_at h b)))
    (λ _, ∀ i, i ∈ HyperBlock.inputs (block_at h b) → available h self pre i)
    (premature_lookup h self)) as Hin.
  { assert (∀ l, (∀ i, i ∈ l → i ∈ HyperBlock.inputs (block_at h b)) →
      outcome (comprehension (real_node self real_nodes) l)
        (λ _, ∀ i, i ∈ l → available h self pre i) (premature_lookup h self)) as Hl.
    { induction l as [|i l IH]; intros Hsub; simpl; [by intros i ?%elem_of_nil|].
      assert (i ∈ dom (_node_to_id self)) as Hid.
      { apply (Hblocks b); [done|]. apply elem_of_app. left. apply Hsub. by left. }
      pose proof (real_node_outcome real_nodes _ i Hst Hid) as Hi.
      destruct (real_node self real_nodes i) as [t| |]; simpl; [| |done].
      - assert (∀ i, i ∈ l → i ∈ HyperBlock.inputs (block_at h b)) as Hsub'
          by (intros ? ?; apply Hsub; by right).
        specialize (IH Hsub').
        destruct (comprehension (real_node self real_nodes) l); simpl in *; [|done..].
        intros i' [->|?]%elem_of_cons; auto.
      - destruct Hi as (Hno & k & Hk & ->). exists pre, b, post, i, k.
        split_and!; [done|apply Hsub; by left|done..]. }
    by apply Hl. }
  apply outcome_bind. eapply outcome_mono; [apply Hin| |done].
  intros ts Hready. simpl.
  eapply outcome_mono;
    [apply (store_outputs _ _ real_nodes (available h self pre) Hst (Henough b ts))
    | |done].
  - intros o Ho. apply (Hblocks b); [done|]. apply elem_of_app. by right.
  - unfold stored. intros rn Hrn. cbv beta in Hrn. split; [|done]. intros k. rewrite Hrn.
    split; intros (n & Hn & Hk); exists n; (split; [|done]).
    + destruct Hn as [[?|(b' & Hb' & ?)]|?]; [by left|right; exists b'|right; exists b];
        set_solver.
    + destruct Hn as [?|(b' & [Hb'| ->%list_elem_of_singleton]%elem_of_app & ?)];
        [left; by left|left; right; eauto|by right].
Qed.

Lemma build_blocks_outcome real_nodes :
  stored real_nodes (λ n, n ∈ inputs self) →
  outcome (for_each (_hypermodels self) real_nodes
             (build_hypermodel hypermodel_build h self hp))
    (λ real_nodes',
       stored real_nodes' (available h self (_hypermodels self)) ∧ input_ready h self)
    (premature_lookup h self).
Proof.
  intros Hst.
  eapply outcome_mono;
    [apply (for_each_ind (build_hypermodel hypermodel_build h self hp)
       (λ done real_nodes',
          stored real_nodes' (available h self done) ∧
          ∀ pre b post i, done = pre ++ b :: post →
            i ∈ HyperBlock.inputs (block_at h b) → available h self pre i)
       (premature_lookup h self))| |done].
  - split.
    + unfold stored in *. intros k. rewrite Hst. split; intros (n & Hn & Hk); exists n; (split; [|done]).
      * by left.
      * destruct Hn as [?|(b & ?%elem_of_nil & _)]; done.
    + intros pre b post i Hnil. by destruct pre.
  - intros done b post rn Hsplit [Hrn Hready].
    eapply outcome_mono; [by apply (build_hypermodel_outcome done b post)| |done].
    intros rn' [Hrn' Hb]. split; [done|].
    intros pre b' post' i Heq Hi.
    destruct post' as [|x post' _] using rev_ind.
    + apply app_inj_tail in Heq as [-> ->]. by apply Hb.
    + rewrite app_comm_cons, app_assoc in Heq. apply app_inj_tail in Heq as [-> _].
      by apply (Hready pre b' post' i).
  - intros rn [Hrn Hready]. split; [done|]. intros pre b post i Heq Hi.
    by apply (Hready pre b post i Heq).
Qed.

Lemma build_outcome :
  outcome (build node_build hypermodel_build h self hp)
    (λ r, input_ready h self ∧
          length r.1 = length (inputs self) ∧ length r.2 = length (outputs self))
    (premature_lookup h self).
Proof.
  unfold build. apply outcome_bind.
  eapply outcome_mono; [apply store_inputs| |done].
  intros rn0 Hrn0. apply outcome_bind.
  eapply outcome_mono; [by apply build_blocks_outcome| |done].
  intros rn [Hrn Hready].
  assert (∀ l, (∀ n, n ∈ l → n ∈ dom (_node_to_id self) ∧
                               available h self (_hypermodels self) n) →
    outcome (comprehension (real_node self rn) l)
            (λ ts, length ts = length l) (λ _, False)) as Hlookup.
  { intros l Hl. apply comprehension_outcome. intros n [Hid Hn]%Hl.
    pose proof (real_node_outcome rn _ n Hrn Hid) as Hr.
    destruct (real_node self rn n); simpl; [done| |done]. by destruct Hr. }
  apply outcome_bind.
  eapply outcome_mono; [apply (Hlookup (inputs self))| |done].
  - intros n Hn. split; [by apply Hinputs|by left].
  - intros ins Hins. apply outcome_bind.
    eapply outcome_mono; [apply (Hlookup (outputs self))| |done].
    + intros o Ho. pose proof (Houtputs o Ho) as Ha. split; [|done].
      destruct Ha as [?|(b & Hb & Hob)]; [by apply Hinputs|].
      apply (Hblocks b); [done|]. apply elem_of_app. by right.
    + intros outs Houts. simpl. done.
Qed.
End BuildSpec.

(** *** What construction leaves alone *)

Lemma finalize_blocks outs : ∀ h h',
  for_each outs h set_output_shape = Ok h' →
  ∀ b, HyperBlock.name (block_at h' b) = HyperBlock.name (block_at h b) ∧
       HyperBlock.inputs (block_at h' b) = HyperBlock.inputs (block_at h b) ∧
       HyperBlock.outputs (block_at h' b) = HyperBlock.outputs (block_at h b) ∧
       HyperBlock.n_output_node (block_at h' b) = HyperBlock.n_output_node (block_at h b).
Proof.
  intros h h' Hrun.
  refine (for_each_preserve (λ h1, ∀ b,
            HyperBlock.name (block_at h1 b) = HyperBlock.name (block_at h b) ∧
            HyperBlock.inputs (block_at h1 b) = HyperBlock.inputs (block_at h b) ∧
            HyperBlock.outputs (block_at h1 b) = HyperBlock.outputs (block_at h b) ∧
            HyperBlock.n_output_node (block_at h1 b)
              = HyperBlock.n_output_node (block_at h b))
            set_output_shape outs h h' _ _ Hrun); [done|].
  intros h1 o h2 _ IH Hstep b. unfold set_output_shape in Hstep.
  destruct (HyperNode.in_hypermodels (node_at h1 o)) as [|p ps]; [done|].
  injection Hstep as <-. rewrite block_at_update.
  case_decide as Hp; [|done]. destruct Hp as [-> _]. apply IH.
Qed.

Lemma finalize_nodes outs : ∀ h h',
  for_each outs h set_output_shape = Ok h' → nodes h' = nodes h.
Proof.
  intros h h' Hrun.
  refine (for_each_preserve (λ h1, nodes h1 = nodes h)
            set_output_shape outs h h' _ _ Hrun); [done|].
  intros h1 o h2 _ IH Hstep. unfold set_output_shape in Hstep.
  destruct (HyperNode.in_hypermodels (node_at h1 o)) as [|p ps]; [done|].
  by injection Hstep as <-.
Qed.

(** X11.  A successful construction writes nothing but [output_shape]:
    the nodes are untouched, no block appears or disappears, every block
    keeps its name, inputs, outputs and number of output nodes, and a block
    that is not the first producer of a designated output is unchanged. *)
Theorem construction_writes_output_shapes_only h self self' h' :
  _build_network h self = Ok (self', h') →
  nodes h' = nodes h ∧
  length (blocks h') = length (blocks h) ∧
  (∀ b, HyperBlock.name (block_at h' b) = HyperBlock.name (block_at h b) ∧
        HyperBlock.inputs (block_at h' b) = HyperBlock.inputs (block_at h b) ∧
        HyperBlock.outputs (block_at h' b) = HyperBlock.outputs (block_at h b) ∧
        HyperBlock.n_output_node (block_at h' b)
          = HyperBlock.n_output_node (block_at h b)) ∧
  (∀ b, (∀ o, o ∈ outputs self → head (HyperNode.in_hypermodels (node_at h o)) ≠ Some b) →
        block_at h' b = block_at h b).
Proof.
  intros Hrun. pose proof (_build_network_spec h self) as Hspec.
  rewrite Hrun in Hspec. simpl in Hspec.
  pose proof (c_heap _ _ _ _ Hspec) as Hfin.
  destruct (finalize_frame _ _ _ Hfin) as (_ & Hlen & Hframe).
  split_and!; [by eapply finalize_nodes|done|by eapply finalize_blocks|done].
Qed.

Lemma construction_writes_output_shapes_only_witness :
  ∃ self' h', _build_network fork_heap (model [0] [1]) = Ok (self', h') ∧
              nodes h' = nodes fork_heap.
Proof.
  destruct (_build_network fork_heap (model [0] [1])) as [[self' h']| |] eqn:Hrun;
    [|by vm_compute in Hrun..].
  exists self', h'. split; [reflexivity|].
  exact (proj1 (construction_writes_output_shapes_only _ _ _ _ Hrun)).
Defined.

(** *** Materializing a constructed model *)

Lemma constructed_outputs_available h self self' h' o :
  _build_network h self = Ok (self', h') →
  o ∈ outputs self → available h self (_hypermodels self') o.
Proof.
  intros Hrun Ho. pose proof (_build_network_spec h self) as Hspec.
  rewrite Hrun in Hspec. simpl in Hspec.
  destruct (c_connected _ _ _ _ Hspec o) as [(r & Hr & Hpath) _];
    [apply elem_of_app; by right|].
  apply rtc_tc in Hpath as [->|Hpath]; [by left|]. right.
  revert Ho. revert o Hpath.
  apply (tc_ind_r (λ o, o ∈ outputs self →
    ∃ b, b ∈ _hypermodels self' ∧ o ∈ HyperBlock.outputs (block_at h b)) r).
  - intros y Hy Hout. apply elem_of_successors in Hy as (b & Hb & Hyb).
    exists b. split; [|done].
    apply (c_complete _ _ _ _ Hspec r b y); [by exists r|done|done|by exists y].
  - intros y z Hry Hyz _ Hout. apply elem_of_successors in Hyz as (b & Hb & Hzb).
    exists b. split; [|done].
    apply (c_complete _ _ _ _ Hspec y b z);
      [exists r; split; [done|by apply tc_rtc]|done|done|by exists z].
Qed.

Lemma build_constructed {Tensor HyperParameters : Type}
    (node_build : nat → HyperParameters → Tensor)
    (hypermodel_build : nat → HyperParameters → list Tensor → list Tensor)
    h0 self0 self h hp :
  _build_network h0 self0 = Ok (self, h) →
  (∀ b ts, length (HyperBlock.outputs (block_at h b))
           ≤ length (hypermodel_build b hp ts)) →
  outcome (build node_build hypermodel_build h self hp)
    (λ r, input_ready h self ∧
          length r.1 = length (inputs self) ∧ length r.2 = length (outputs self))
    (premature_lookup h self).
Proof.
  intros Hrun Henough. pose proof (_build_network_spec h0 self0) as Hspec.
  rewrite Hrun in Hspec. simpl in Hspec.
  pose proof (finalize_blocks _ _ _ (c_heap _ _ _ _ Hspec)) as Hsame.
  destruct (_build_network_ids _ _ _ _ Hrun) as (_ & _ & _ & [Hinj _] & _).
  assert (∀ n, n ∈ inputs self ++ outputs self → n ∈ dom (_node_to_id self)) as Hends.
  { intros n. rewrite (c_inputs _ _ _ _ Hspec), (c_outputs _ _ _ _ Hspec). intros Hn.
    apply (c_induced _ _ _ _ Hspec), (c_connected _ _ _ _ Hspec), Hn. }
  apply (build_outcome node_build hypermodel_build h self hp Hinj).
  - intros n Hn. apply Hends, elem_of_app. by left.
  - intros b n Hb.
    destruct (Hsame b) as (_ & -> & -> & _).
    intros [Hi|Ho]%elem_of_app.
    + by apply (c_blocks _ _ _ _ Hspec b Hb).
    + by eapply ordered_outputs_have_ids.
  - intros o Ho. rewrite (c_outputs _ _ _ _ Hspec) in Ho.
    destruct (constructed_outputs_available _ _ _ _ o Hrun Ho) as [?|(b & Hb & Hob)].
    + left. by rewrite (c_inputs _ _ _ _ Hspec).
    + right. exists b. split; [done|]. by destruct (Hsame b) as (_ & _ & -> & _).
  - done.
Qed.

(** X12.  [build] on a constructed model, with build steps that return at
    least one tensor per output node of their block: it returns exactly
    when the block order is topological (every input of a block is a
    designated input or an output of an earlier block), then with one
    tensor per designated input and per designated output; otherwise it
    raises the [KeyError] of the id of a block input that is looked up
    before any block stored it.  It raises nothing else. *)
Theorem build_succeeds_iff_input_ready {Tensor HyperParameters : Type}
    (node_build : nat → HyperParameters → Tensor)
    (hypermodel_build : nat → HyperParameters → list Tensor → list Tensor)
    h0 self0 self h hp :
  _build_network h0 self0 = Ok (self, h) →
  (∀ b ts, length (HyperBlock.outputs (block_at h b))
           ≤ length (hypermodel_build b hp ts)) →
  ((∃ r, build node_build hypermodel_build h self hp = Ok r) ↔ input_ready h self) ∧
  (∀ r, build node_build hypermodel_build h self hp = Ok r →
        length r.1 = length (inputs self) ∧ length r.2 = length (outputs self)) ∧
  (∀ e, build node_build hypermodel_build h self hp = Raise e →
        premature_lookup h self e) ∧
  build node_build hypermodel_build h self hp ≠ OutOfFuel.
Proof.
  intros Hrun Henough.
  pose proof (build_constructed node_build hypermodel_build _ _ _ _ hp Hrun Henough)
    as Hout.
  destruct (build node_build hypermodel_build h self hp) as [r|e|]; simpl in Hout.
  - destruct Hout as (Hready & Hlen). split_and!.
    + split; [done|]. intros _. by exists r.
    + by intros ? [= <-].
    + intros e He. discriminate He.
    + intros He. discriminate He.
  - split_and!.
    + split; [intros [r Hr]; discriminate Hr|].
      intros Hready. destruct Hout as (pre & b & post & i & k & Hsplit & Hi & Hno & _).
      destruct Hno. by apply (Hready pre b post i).
    + intros r Hr. discriminate Hr.
    + by intros ? [= <-].
    + intros He. discriminate He.
  - done.
Qed.

Lemma build_succeeds_iff_input_ready_witness :
  ∃ self h, _build_network chain_heap (model [0] [1]) = Ok (self, h) ∧
    ((∃ r, build (λ _ _, tt) (λ _ _ _, [tt]) h self tt = Ok r) ↔ input_ready h self).
Proof.
  destruct (_build_network chain_heap (model [0] [1])) as [[self h]| |] eqn:Hrun;
    [|by vm_compute in Hrun..].
  exists self, h. split; [reflexivity|].
  refine (proj1 (build_succeeds_iff_input_ready (λ _ _, tt) (λ _ _ _, [tt])
                   chain_heap (model [0] [1]) self h tt Hrun _)).
  intros b ts. vm_compute in Hrun. injection Hrun as <- <-.
  destruct b as [|[|b]]; simpl; lia.
Defined.

(** *** Graphs whose blocks take one input *)

(** Every consumer of a node has that node as its only input: chains and
    trees, no merging block. *)
Definition one_input_blocks (h : Heap) : Prop :=
  ∀ n b i, b ∈ HyperNode.out_hypermodels (node_at h n) →
           i ∈ HyperBlock.inputs (block_at h b) → i = n.

Section ReadyOrder.
Variables (h : Heap) (ins : list nat).
Hypothesis Hone : one_input_blocks h.

Definition fed_by (order : list nat) (n : nat) : Prop :=
  n ∈ ins ∨ ∃ b, b ∈ order ∧ n ∈ HyperBlock.outputs (block_at h b).

Definition ready_order (order : list nat) : Prop :=
  ∀ pre b post i, order = pre ++ b :: post →
                  i ∈ HyperBlock.inputs (block_at h b) → fed_by pre i.

Definition ready_state (st : order_state) : Prop :=
  (∀ n, n ∈ os_queue st → n ∈ os_visited st) ∧
  (∀ n, n ∈ os_visited st → fed_by (_hypermodels (os_self st)) n) ∧
  ready_order (_hypermodels (os_self st)).

Lemma visit_hypermodel_ready n st b st' :
  ready_state st → n ∈ os_visited st →
  b ∈ HyperNode.out_hypermodels (node_at h n) →
  visit_hypermodel h st b = Ok st' →
  ready_state st' ∧ n ∈ os_visited st'.
Proof.
  intros (Hq & Hv & Hr) Hn Hb. unfold visit_hypermodel.
  destruct (negb _); [by intros [= <-]|].
  destruct (_add_hypermodel h (os_self st) b) as [s1| |] eqn:Hadd; simpl; [|done..].
  intros [= <-]. apply _add_hypermodel_Ok in Hadd.
  destruct (foldl_add_node (register (os_self st) b) (HyperBlock.outputs (block_at h b)))
    as (_ & Hhm & _). rewrite <-Hadd in Hhm.
  destruct (enqueue_outputs_spec ∅ (HyperBlock.outputs (block_at h b))
              (mkOrder s1 (os_visited st) (os_queue st)))
    as (Hself & Hsub & _ & Hvis & Hque & _). simpl in *.
  set (st' := enqueue_outputs _ _) in *.
  assert (∀ l n, fed_by l n → fed_by (l ++ [b]) n) as Hmono.
  { intros l m [?|(b' & ? & ?)]; [by left|right]. exists b'. set_solver. }
  assert (b ∈ _hypermodels s1 ∧
          (∀ m, fed_by (_hypermodels (os_self st)) m → fed_by (_hypermodels s1) m) ∧
          ready_order (_hypermodels s1)) as (Hin & Hfed & Hready).
  { rewrite Hhm. unfold register.
    destruct (decide (b ∈ _hypermodels (os_self st))) as [Hold|Hnew]; [done|]. simpl.
    split_and!; [set_solver|by apply Hmono|].
    intros pre b' post i Heq Hi.
    destruct post as [|x post _] using rev_ind.
    - apply app_inj_tail in Heq as [<- <-].
      rewrite (Hone n b i Hb Hi). by apply Hv.
    - rewrite app_comm_cons, app_assoc in Heq. apply app_inj_tail in Heq as [Heq _].
      by apply (Hr pre b' post i). }
  split; [|by apply Hsub]. split_and!.
  - intros m [?|[_ ?]]%Hque; [apply Hsub; by apply Hq|done].
  - rewrite Hself. intros m [?|[Hm _]]%Hvis; [by apply Hfed, Hv|].
    right. by exists b.
  - by rewrite Hself.
Qed.

Lemma order_loop_ready fuel : ∀ st self',
  ready_state st → order_loop fuel h st = Ok self' → ready_order (_hypermodels self').
Proof.
  induction fuel as [|fuel IH]; intros [self visited queue] self' Hst Hrun;
    (destruct queue as [|n queue];
     [rewrite order_loop_nil in Hrun; injection Hrun as <-; apply Hst|]); [done|].
  rewrite order_loop_cons in Hrun.
  destruct (for_each _ _ _) as [st1| |] eqn:Hloop; simpl in Hrun; [|done..].
  apply (IH st1); [|done].
  destruct Hst as (Hq & Hv & Hr); simpl in *.
  refine (proj1 (for_each_preserve (λ st, ready_state st ∧ n ∈ os_visited st)
            (visit_hypermodel h) _ _ _ _ _ Hloop)).
  - split; [|apply Hq; by left]. split_and!; [|done..].
    intros m Hm. apply Hq. by right.
  - intros st b st' Hb [Hst Hn] Hstep. by apply (visit_hypermodel_ready n st b).
Qed.
End ReadyOrder.

Lemma constructed_order_ready h self self' h' :
  one_input_blocks h →
  _build_network h self = Ok (self', h') → input_ready h' self'.
Proof.
  intros Hone Hrun. pose proof (_build_network_spec h self) as Hspec.
  rewrite Hrun in Hspec. simpl in Hspec.
  pose proof (finalize_blocks _ _ _ (c_heap _ _ _ _ Hspec)) as Hsame.
  destruct (_build_network_stages _ _ _ _ Hrun) as (self1 & Hdisc & Hord & _).
  pose proof (discover_spec h (with_node_to_id self ∅)) as Hd.
  rewrite Hdisc in Hd. simpl in Hd.
  destruct Hd as (Hcfg & _); [set_solver|].
  destruct (same_config_fields _ _ Hcfg) as (Hi & _); simpl in Hi.
  apply (order_loop_ready h (inputs self) Hone) in Hord.
  - intros pre b post i Hsplit Hin.
    destruct (Hsame b) as (_ & Hbi & _). rewrite Hbi in Hin.
    destruct (Hord pre b post i Hsplit Hin) as [?|(b' & Hb' & Ho)].
    + left. by rewrite (c_inputs _ _ _ _ Hspec).
    + right. exists b'. split; [done|]. by destruct (Hsame b') as (_ & _ & -> & _).
  - split_and!; simpl.
    + intros n Hn. apply elem_of_union. left. by apply elem_of_list_to_set.
    + intros n [Hn|Hn]%elem_of_union; [|by apply elem_of_empty in Hn].
      left. rewrite Hi. by apply elem_of_list_to_set in Hn.
    + intros pre b post i Hnil. by destruct pre.
Qed.

(** X13.  On a graph in which every consumer of a node has that node as
    its only input (chains and trees), the block order of a successful
    construction is topological, and [build] returns the tensors of the
    designated inputs and outputs. *)
Theorem one_input_graphs_materialize {Tensor HyperParameters : Type}
    (node_build : nat → HyperParameters → Tensor)
    (hypermodel_build : nat → HyperParameters → list Tensor → list Tensor)
    h0 self0 self h hp :
  one_input_blocks h0 →
  _build_network h0 self0 = Ok (self, h) →
  (∀ b ts, length (HyperBlock.outputs (block_at h b))
           ≤ length (hypermodel_build b hp ts)) →
  input_ready h self ∧
  ∃ model_inputs model_outputs,
    build node_build hypermodel_build h self hp = Ok (model_inputs, model_outputs) ∧
    length model_inputs = length (inputs self) ∧
    length model_outputs = length (outputs self).
Proof.
  intros Hone Hrun Henough.
  pose proof (constructed_order_ready _ _ _ _ Hone Hrun) as Hready. split; [done|].
  pose proof (build_constructed node_build hypermodel_build _ _ _ _ hp Hrun Henough)
    as Hout.
  destruct (build node_build hypermodel_build h self hp) as [[mi mo]|e|];
    simpl in Hout.
  - exists mi, mo. by destruct Hout as (_ & ? & ?).
  - destruct Hout as (pre & b & post & i & k & Hsplit & Hi & Hno & _).
    destruct Hno. by apply (Hready pre b post i).
  - done.
Qed.

Lemma chain_heap_one_input : one_input_blocks chain_heap.
Proof.
  intros [|[|n]] b i; simpl; try by intros ?%elem_of_nil.
  intros ->%list_elem_of_singleton. simpl. by intros ->%list_elem_of_singleton.
Qed.

Lemma one_input_graphs_materialize_witness :
  ∃ self h, _build_network chain_heap (model [0] [1]) = Ok (self, h) ∧
    ∃ model_inputs model_outputs,
      build (λ _ _, tt) (λ _ _ _, [tt]) h self tt = Ok (model_inputs, model_outputs) ∧
      length model_inputs = length (inputs self) ∧
      length model_outputs = length (outputs self).
Proof.
  destruct (_build_network chain_heap (model [0] [1])) as [[self h]| |] eqn:Hrun;
    [|by vm_compute in Hrun..].
  exists self, h. split; [reflexivity|].
  refine (proj2 (one_input_graphs_materialize (λ _ _, tt) (λ _ _ _, [tt])
                   chain_heap (model [0] [1]) self h tt chain_heap_one_input Hrun _)).
  intros b ts. vm_compute in Hrun. injection Hrun as <- <-.
  destruct b as [|[|b]]; simpl; lia.
Defined.

(** ** Recording the shapes *)

(** The edges of the graph and what identifies a block: everything but the
    shapes. *)
Definition same_links (h h' : Heap) : Prop :=
  length (nodes h') = length (nodes h) ∧
  length (blocks h') = length (blocks h) ∧
  (∀ n, HyperNode.in_hypermodels (node_at h' n) = HyperNode.in_hypermodels (node_at h n) ∧
        HyperNode.out_hypermodels (node_at h' n) = HyperNode.out_hypermodels (node_at h n)) ∧
  (∀ b, HyperBlock.name (block_at h' b) = HyperBlock.name (block_at h b) ∧
        HyperBlock.inputs (block_at h' b) = HyperBlock.inputs (block_at h b) ∧
        HyperBlock.outputs (block_at h' b) = HyperBlock.outputs (block_at h b) ∧
        HyperBlock.n_output_node (block_at h' b) = HyperBlock.n_output_node (block_at h b)).

Lemma same_links_refl h : same_links h h.
Proof. by split_and!. Qed.

Lemma same_links_trans h1 h2 h3 : same_links h1 h2 → same_links h2 h3 → same_links h1 h3.
Proof.
  intros (Hn1 & Hb1 & Hnd1 & Hbl1) (Hn2 & Hb2 & Hnd2 & Hbl2).
  split_and!; [congruence|congruence| |].
  - intros n. destruct (Hnd1 n), (Hnd2 n). split; congruence.
  - intros b. destruct (Hbl1 b) as (? & ? & ? & ?), (Hbl2 b) as (? & ? & ? & ?).
    split_and!; congruence.
Qed.

Lemma set_shape_links h n s :
  same_links h (update_node h n (λ nd, HyperNode.set_shape nd s)).
Proof.
  split_and!; [by simpl; rewrite length_alter|done| |done].
  intros m. rewrite node_at_update. by case_decide as Hm; [destruct Hm as [-> _]|].
Qed.

Lemma set_output_shape_links h o h' : set_output_shape h o = Ok h' → same_links h h'.
Proof.
  unfold set_output_shape.
  destruct (HyperNode.in_hypermodels (node_at h o)) as [|b bs]; [done|].
  intros [= <-]. split_and!; [done|by simpl; rewrite length_alter|done|].
  intros b'. rewrite block_at_update. by case_decide as Hb; [destruct Hb as [-> _]|].
Qed.

Lemma set_input_shapes_links l : ∀ h, same_links h (foldl set_input_shape h l).
Proof.
  induction l as [|[xs n] l IH]; intros h; simpl; [apply same_links_refl|].
  eapply same_links_trans; [apply set_shape_links|apply IH].
Qed.

Lemma set_target_shape_links h yo h' : set_target_shape h yo = Ok h' → same_links h h'.
Proof.
  destruct yo as [ys o]. unfold set_target_shape. intros Hrun.
  eapply same_links_trans; [apply set_shape_links|by eapply set_output_shape_links].
Qed.

Lemma set_target_shapes_links l : ∀ h h',
  for_each l h set_target_shape = Ok h' → same_links h h'.
Proof.
  intros h h' Hrun.
  refine (for_each_preserve (same_links h) set_target_shape l h h' _ _ Hrun);
    [apply same_links_refl|].
  intros h1 yo h2 _ H1 Hstep. eapply same_links_trans; [done|].
  by eapply set_target_shape_links.
Qed.

Lemma same_links_topology h h' : same_links h h' → topology h' = topology h.
Proof.
  intros (Hn & Hb & Hnd & Hbl). unfold topology. f_equal.
  - apply list_eq. intros n. rewrite !list_lookup_fmap.
    specialize (Hnd n). unfold node_at in Hnd.
    destruct (nodes h' !! n) as [nd'|] eqn:H1, (nodes h !! n) as [nd|] eqn:H2; simpl in *.
    + destruct Hnd. by f_equal; f_equal.
    + apply lookup_lt_Some in H1. apply lookup_ge_None in H2. lia.
    + apply lookup_lt_Some in H2. apply lookup_ge_None in H1. lia.
    + done.
  - apply list_eq. intros b. rewrite !list_lookup_fmap.
    specialize (Hbl b). unfold block_at in Hbl.
    destruct (blocks h' !! b) as [bl'|] eqn:H1, (blocks h !! b) as [bl|] eqn:H2;
      simpl in *.
    + destruct Hbl as (_ & ? & ? & _). by f_equal; f_equal.
    + apply lookup_lt_Some in H1. apply lookup_ge_None in H2. lia.
    + apply lookup_lt_Some in H2. apply lookup_ge_None in H1. lia.
    + done.
Qed.

(** The target loop stops with [IndexError] at the first designated output
    without producer, and with nothing else. *)
Lemma set_target_shapes_outcome l : ∀ h,
  outcome (for_each l h set_target_shape)
    (λ _, ∀ o, o ∈ l.*2 → HyperNode.in_hypermodels (node_at h o) ≠ [])
    (λ e, e = IndexError ∧
          ∃ o, o ∈ l.*2 ∧ HyperNode.in_hypermodels (node_at h o) = []).
Proof.
  induction l as [|[ys o] l IH]; intros h; [by intros o ?%elem_of_nil|].
  change (for_each ((ys, o) :: l) h set_target_shape)
    with (set_target_shape h (ys, o) ≫= λ h, for_each l h set_target_shape).
  destruct (set_target_shape h (ys, o)) as [h1| |] eqn:Hstep; simpl.
  - pose proof (set_target_shape_links _ _ _ Hstep) as (_ & _ & Hnd & _).
    eapply outcome_mono; [apply IH| |].
    + intros ? Hl o' [->|Ho']%elem_of_cons.
      * unfold set_target_shape in Hstep.
        pose proof (set_output_shape_outcome
          (update_node h o (λ nd, HyperNode.set_shape nd (Some (tail (reshaped ys))))) o)
          as Hout. rewrite Hstep in Hout.
        by rewrite (proj1 (proj1 (proj2 (proj2 (set_shape_links h o _))) o)) in Hout.
      * rewrite <-(proj1 (Hnd o')). by apply Hl.
    + intros e (-> & o' & Ho' & Hnone). split; [done|]. exists o'.
      split; [by right|]. by rewrite <-(proj1 (Hnd o')).
  - unfold set_target_shape in Hstep.
    pose proof (set_output_shape_outcome
      (update_node h o (λ nd, HyperNode.set_shape nd (Some (tail (reshaped ys))))) o)
      as Hout. rewrite Hstep in Hout.
    rewrite (proj1 (proj1 (proj2 (proj2 (set_shape_links h o _))) o)) in Hout.
    split; [|exists o; split; [by left|done]].
    unfold set_output_shape in Hstep.
    by destruct (HyperNode.in_hypermodels (node_at _ o)); [injection Hstep as <-|].
  - unfold set_target_shape, set_output_shape in Hstep.
    by destruct (HyperNode.in_hypermodels (node_at _ o)).
Qed.

Lemma zip_targets (y : list Shape) : ∀ outs : list nat,
  (zip y outs).*2 = take (length y) outs.
Proof.
  induction y as [|ys y IH]; intros [|o outs]; simpl; [done..|]. by rewrite IH.
Qed.

Lemma zip_lookup_Some {A B} (l : list A) (k : list B) i a b :
  zip l k !! i = Some (a, b) ↔ l !! i = Some a ∧ k !! i = Some b.
Proof.
  revert k i. induction l as [|x l IH]; intros [|y k] [|i]; simpl;
    try (split; [done|by intros [? ?]]).
  - split; [by intros [= -> ->]|by intros [[= ->] [= ->]]].
  - apply IH.
Qed.

(** X14.  The shape loops of [fit] succeed exactly when each of the first
    [len(y)] designated outputs has a producer; the only exception they
    raise is the [IndexError] of [in_hypermodels[0]]. *)
Theorem fit_fails_on_unproduced_output h self x y :
  ((∃ h', fit_shapes h self x y = Ok h') ↔
   ∀ o, o ∈ take (length y) (outputs self) →
        HyperNode.in_hypermodels (node_at h o) ≠ []) ∧
  (∀ e, fit_shapes h self x y = Raise e → e = IndexError) ∧
  fit_shapes h self x y ≠ OutOfFuel.
Proof.
  unfold fit_shapes.
  pose proof (set_input_shapes_links (zip x (inputs self)) h) as (_ & _ & Hnd & _).
  pose proof (set_target_shapes_outcome (zip y (outputs self))
                (foldl set_input_shape h (zip x (inputs self)))) as Hout.
  rewrite zip_targets in Hout.
  destruct (for_each _ _ set_target_shape) as [h'|e|]; simpl in Hout; [| |done].
  - split_and!.
    + split; [|by exists h']. intros _ o Ho. rewrite <-(proj1 (Hnd o)). by apply Hout.
    + intros e He. discriminate He.
    + intros He. discriminate He.
  - destruct Hout as (-> & o & Ho & Hnone). split_and!.
    + split; [intros [h' Hh']; discriminate Hh'|]. intros Hall.
      destruct (Hall o Ho). by rewrite <-(proj1 (Hnd o)).
    + by intros ? [= <-].
    + intros He. discriminate He.
Qed.

(** X15.  After a successful construction the shape loops of [fit] cannot
    fail, whatever the arrays, and they change no edge, name or number of
    output nodes: constructing again afterwards meets the same graph. *)
Theorem fit_after_construction h0 self0 self h x y :
  _build_network h0 self0 = Ok (self, h) →
  ∃ h', fit_shapes h self x y = Ok h' ∧
        topology h' = topology h ∧
        ∀ b, HyperBlock.name (block_at h' b) = HyperBlock.name (block_at h b) ∧
             HyperBlock.n_output_node (block_at h' b)
               = HyperBlock.n_output_node (block_at h b).
Proof.
  intros Hrun. pose proof (_build_network_spec h0 self0) as Hspec.
  rewrite Hrun in Hspec. simpl in Hspec.
  assert (outputs_produced h0 (outputs self0)) as Hprod
    by (apply finalize_succeeds; exists h; apply (c_heap _ _ _ _ Hspec)).
  pose proof (finalize_nodes _ _ _ (c_heap _ _ _ _ Hspec)) as Hnodes.
  unfold fit_shapes.
  set (h1 := foldl set_input_shape h (zip x (inputs self))).
  pose proof (set_input_shapes_links (zip x (inputs self)) h) as Hl1. fold h1 in Hl1.
  pose proof (set_target_shapes_outcome (zip y (outputs self)) h1) as Hout.
  destruct (for_each _ h1 set_target_shape) as [h'|e|] eqn:Hloop; simpl in Hout;
    [| |done].
  - exists h'. split; [done|].
    pose proof (same_links_trans _ _ _ Hl1 (set_target_shapes_links _ _ _ Hloop)) as Hl.
    split; [by apply same_links_topology|].
    intros b. by destruct Hl as (_ & _ & _ & Hbl); destruct (Hbl b) as (? & _ & _ & ?).
  - destruct Hout as (_ & o & Ho & Hnone). rewrite zip_targets in Ho.
    apply elem_of_take in Ho as (k & Ho & _). apply list_elem_of_lookup_2 in Ho.
    rewrite (c_outputs _ _ _ _ Hspec) in Ho. destruct (Hprod o Ho).
    destruct Hl1 as (_ & _ & Hnd & _). rewrite (proj1 (Hnd o)) in Hnone.
    unfold node_at in *. by rewrite Hnodes in Hnone.
Qed.

Lemma fit_after_construction_witness :
  ∃ self h h', _build_network chain_heap (model [0] [1]) = Ok (self, h) ∧
    fit_shapes h self [[32; 28; 28]] [[32]] = Ok h' ∧
    topology h' = topology h.
Proof.
  destruct (_build_network chain_heap (model [0] [1])) as [[self h]| |] eqn:Hrun;
    [|by vm_compute in Hrun..].
  destruct (fit_after_construction _ _ _ _ [[32; 28; 28]] [[32]] Hrun)
    as (h' & Hfit & Htopo & _).
  exists self, h, h'. split; [reflexivity|]. split; [exact Hfit|exact Htopo].
Defined.

(** *** Which shapes end up where *)

Lemma set_input_shapes_other l n : ∀ h,
  n ∉ l.*2 → node_at (foldl set_input_shape h l) n = node_at h n.
Proof.
  induction l as [|[xs m] l IH]; intros h Hn; simpl; [done|].
  rewrite IH by set_solver. unfold set_input_shape. rewrite node_at_update.
  rewrite decide_False; [done|]. intros [-> _]. set_solver.
Qed.

Lemma set_input_shapes_last pre xs n post h :
  n ∉ post.*2 → n < length (nodes h) →
  HyperNode.shape (node_at (foldl set_input_shape h (pre ++ (xs, n) :: post)) n)
  = Some (tail xs).
Proof.
  intros Hpost Hlive. rewrite foldl_app. simpl.
  rewrite set_input_shapes_other by done.
  destruct (set_input_shapes_links pre h) as (Hlen & _).
  set (h0 := foldl set_input_shape h pre) in *. unfold set_input_shape.
  rewrite node_at_update. rewrite decide_True; [done|]. split; [done|]. by rewrite Hlen.
Qed.

Lemma set_target_shape_Ok h ys o h1 :
  set_target_shape h (ys, o) = Ok h1 →
  o < length (nodes h) ∧
  ∃ b bs, HyperNode.in_hypermodels (node_at h o) = b :: bs ∧
    (∀ n, node_at h1 n =
          if decide (o = n)
          then HyperNode.set_shape (node_at h n) (Some (tail (reshaped ys)))
          else node_at h n) ∧
    (∀ b', block_at h1 b' =
           if decide (b = b' ∧ b < length (blocks h))
           then HyperBlock.set_output_shape (block_at h b) (Some (tail (reshaped ys)))
           else block_at h b').
Proof.
  unfold set_target_shape, set_output_shape.
  set (h0 := update_node h o _).
  assert (∀ n, node_at h0 n =
            if decide (o = n ∧ o < length (nodes h))
            then HyperNode.set_shape (node_at h n) (Some (tail (reshaped ys)))
            else node_at h n) as Hn0.
  { intros n. subst h0. rewrite node_at_update.
    destruct (decide (o = n ∧ o < length (nodes h))) as [[-> _]|?]; done. }
  destruct (HyperNode.in_hypermodels (node_at h0 o)) as [|b bs] eqn:Hin; [done|].
  intros [= <-].
  assert (o < length (nodes h)) as Hlive.
  { destruct (decide (o < length (nodes h))) as [?|Hdead]; [done|].
    rewrite Hn0, decide_False in Hin by tauto.
    unfold node_at in Hin. by rewrite lookup_ge_None_2 in Hin by lia. }
  split; [done|]. exists b, bs.
  rewrite Hn0, decide_True in Hin by done. split_and!; [done| |].
  - intros n. change (node_at (update_block h0 b _) n) with (node_at h0 n).
    rewrite Hn0. destruct (decide (o = n)) as [->|?].
    + by rewrite decide_True.
    + by rewrite decide_False by tauto.
  - intros b'. rewrite block_at_update.
    change (length (blocks h0)) with (length (blocks h)).
    change (block_at h0 b) with (block_at h b).
    change (block_at h0 b') with (block_at h b').
    rewrite Hn0.
    destruct (decide (o = o ∧ o < length (nodes h))) as [_|Hno]; [done|by destruct Hno].
Qed.

Lemma set_target_shapes_other l : ∀ h h',
  for_each l h set_target_shape = Ok h' →
  (∀ n, n ∉ l.*2 → node_at h' n = node_at h n) ∧
  (∀ b, (∀ o, o ∈ l.*2 → head (HyperNode.in_hypermodels (node_at h o)) ≠ Some b) →
        block_at h' b = block_at h b).
Proof.
  induction l as [|[ys o] l IH]; intros h h' Hrun.
  { injection Hrun as <-. done. }
  change (set_target_shape h (ys, o) ≫= (λ h, for_each l h set_target_shape) = Ok h')
    in Hrun.
  destruct (set_target_shape h (ys, o)) as [h1| |] eqn:Hstep; simpl in Hrun; [|done..].
  pose proof (set_target_shape_links _ _ _ Hstep) as (_ & _ & Hnd & _).
  apply set_target_shape_Ok in Hstep as (_ & b0 & bs & Hin & Hn1 & Hb1).
  destruct (IH h1 h' Hrun) as [Hn Hb]. split.
  - intros n Hno. rewrite Hn by set_solver. rewrite Hn1.
    rewrite decide_False; [done|]. intros ->. set_solver.
  - intros b Hno. rewrite Hb.
    + rewrite Hb1. rewrite decide_False; [done|]. intros [-> _].
      apply (Hno o); [set_solver|]. by rewrite Hin.
    + intros o' Ho'. rewrite (proj1 (Hnd o')). apply Hno. set_solver.
Qed.

Lemma set_target_shapes_last pre ys o post h h' b bs :
  for_each (pre ++ (ys, o) :: post) h set_target_shape = Ok h' →
  HyperNode.in_hypermodels (node_at h o) = b :: bs → b < length (blocks h) →
  (∀ o', o' ∈ post.*2 →
         o' ≠ o ∧ head (HyperNode.in_hypermodels (node_at h o')) ≠ Some b) →
  HyperNode.shape (node_at h' o) = Some (tail (reshaped ys)) ∧
  HyperBlock.output_shape (block_at h' b) = Some (tail (reshaped ys)).
Proof.
  intros Hrun Hin Hlive Hpost. rewrite for_each_app in Hrun.
  destruct (for_each pre h set_target_shape) as [h0| |] eqn:Hpre; simpl in Hrun;
    [|done..].
  change (set_target_shape h0 (ys, o) ≫= (λ h, for_each post h set_target_shape) = Ok h')
    in Hrun.
  destruct (set_target_shape h0 (ys, o)) as [h1| |] eqn:Hstep; simpl in Hrun; [|done..].
  pose proof (set_target_shapes_links _ _ _ Hpre) as (_ & Hlen0 & Hnd0 & _).
  pose proof (set_target_shape_links _ _ _ Hstep) as (_ & _ & Hnd1 & _).
  apply set_target_shape_Ok in Hstep as (_ & b0 & bs0 & Hin0 & Hn1 & Hb1).
  rewrite (proj1 (Hnd0 o)), Hin in Hin0. injection Hin0 as <- <-.
  destruct (set_target_shapes_other _ _ _ Hrun) as [Hn Hb]. split.
  - rewrite Hn by (intros Ho; by destruct (Hpost o Ho)).
    by rewrite Hn1, decide_True.
  - rewrite Hb.
    + rewrite Hb1, decide_True; [done|]. split; [done|]. by rewrite Hlen0.
    + intros o' Ho'. rewrite (proj1 (Hnd1 o')), (proj1 (Hnd0 o')). by apply Hpost.
Qed.

Lemma zip_split {A B} (l : list A) (k : list B) i a b :
  l !! i = Some a → k !! i = Some b →
  zip l k = zip (take i l) (take i k) ++ (a, b) :: zip (drop (S i) l) (drop (S i) k).
Proof.
  revert k i. induction l as [|x l IH]; intros [|y k] [|i]; simpl; try done.
  - by intros [= ->] [= ->].
  - intros Hl Hk. f_equal. by apply IH.
Qed.

Lemma elem_of_zip_drop {A B} (l : list A) (k : list B) i b :
  b ∈ (zip (drop i l) (drop i k)).*2 →
  ∃ j, i ≤ j ∧ j < length l ∧ k !! j = Some b.
Proof.
  intros Hb. apply list_elem_of_fmap in Hb as ([a b'] & -> & Hab).
  apply list_elem_of_lookup in Hab as [j Hj].
  apply zip_lookup_Some in Hj as [Ha Hb]. rewrite lookup_drop in Ha. rewrite lookup_drop in Hb. simpl.
  exists (i + j). split_and!; [lia|by eapply lookup_lt_Some|done].
Qed.

Lemma elem_of_zip {A B} (l : list A) (k : list B) b :
  b ∈ (zip l k).*2 → ∃ j, j < length l ∧ k !! j = Some b.
Proof.
  intros Hb. destruct (elem_of_zip_drop l k 0 b) as (j & _ & ? & ?); eauto.
Qed.

(** X16.  After the shape loops of [fit], the designated output at
    position [k < len(y)] has the shape of the [k]-th target without its
    first dimension (a target of one dimension counts as a column: shape
    [[1]]), and so has the declared output shape of its first producer,
    provided the producer is a live block and no later target is assigned
    to the same node or to a node with the same first producer. *)
Theorem fit_records_target_shape h self x y h' k ys o b bs :
  fit_shapes h self x y = Ok h' →
  y !! k = Some ys → outputs self !! k = Some o →
  HyperNode.in_hypermodels (node_at h o) = b :: bs → b < length (blocks h) →
  (∀ j o', k < j → j < length y → outputs self !! j = Some o' →
           o' ≠ o ∧ head (HyperNode.in_hypermodels (node_at h o')) ≠ Some b) →
  HyperNode.shape (node_at h' o) = Some (tail (reshaped ys)) ∧
  HyperBlock.output_shape (block_at h' b) = Some (tail (reshaped ys)).
Proof.
  unfold fit_shapes. intros Hrun Hy Ho Hin Hlive Hlater.
  pose proof (set_input_shapes_links (zip x (inputs self)) h) as (_ & Hlen & Hnd & _).
  rewrite (zip_split _ _ k ys o Hy Ho) in Hrun.
  eapply set_target_shapes_last; [exact Hrun|by rewrite (proj1 (Hnd o))|by rewrite Hlen|].
  intros o' (j & Hj & Hjy & Ho')%elem_of_zip_drop.
  rewrite (proj1 (Hnd o')). apply (Hlater j); [lia|done..].
Qed.

Lemma fit_records_target_shape_witness :
  ∃ h', fit_shapes chain_heap (model [0] [1]) [[32; 28; 28]] [[32]] = Ok h' ∧
        HyperNode.shape (node_at h' 1) = Some [1] ∧
        HyperBlock.output_shape (block_at h' 0) = Some [1].
Proof.
  destruct (fit_shapes chain_heap (model [0] [1]) [[32; 28; 28]] [[32]])
    as [h'| |] eqn:Hrun; [|by vm_compute in Hrun..].
  exists h'. split; [reflexivity|].
  apply (fit_records_target_shape chain_heap (model [0] [1]) [[32; 28; 28]] [[32]]
           h' 0 [32] 1 0 [] Hrun); [reflexivity..|vm_compute; lia|].
  intros j o' Hj Hlen. simpl in Hlen. lia.
Defined.

(** X17.  After the shape loops of [fit], a node that is not among the
    first [len(y)] designated outputs has, when it is the designated input
    at position [k < len(x)] and at no later position, the shape of the
    [k]-th array without its first dimension; when it is not among the
    first [len(x)] designated inputs either (in particular a designated
    input beyond the arrays supplied), it is unchanged. *)
Theorem fit_records_input_shape h self x y h' n :
  fit_shapes h self x y = Ok h' →
  (∀ j, j < length y → outputs self !! j ≠ Some n) →
  (∀ k (xs : Shape), x !! k = Some xs → inputs self !! k = Some n →
           n < length (nodes h) →
           (∀ j, k < j → j < length x → inputs self !! j ≠ Some n) →
           HyperNode.shape (node_at h' n) = Some (tail xs)) ∧
  ((∀ j, j < length x → inputs self !! j ≠ Some n) → node_at h' n = node_at h n).
Proof.
  unfold fit_shapes. intros Hrun Hnot_out.
  destruct (set_target_shapes_other _ _ _ Hrun) as [Hother _].
  rewrite Hother by (intros (j & Hj & Hn)%elem_of_zip; by apply (Hnot_out j)).
  split.
  - intros k xs Hx Hi Hlive Hlater. rewrite (zip_split _ _ k xs n Hx Hi).
    apply set_input_shapes_last; [|done].
    intros (j & Hj & Hjx & Hn)%elem_of_zip_drop. apply (Hlater j); [lia|done..].
  - intros Hnot_in. apply set_input_shapes_other.
    intros (j & Hj & Hn)%elem_of_zip. by apply (Hnot_in j).
Qed.

Lemma fit_records_input_shape_witness :
  ∃ h', fit_shapes chain_heap (model [0] [1]) [[32; 28; 28]] [[32]] = Ok h' ∧
        HyperNode.shape (node_at h' 0) = Some [28; 28].
Proof.
  destruct (fit_shapes chain_heap (model [0] [1]) [[32; 28; 28]] [[32]])
    as [h'| |] eqn:Hrun; [|by vm_compute in Hrun..].
  exists h'. split; [reflexivity|].
  refine (proj1 (fit_records_input_shape chain_heap (model [0] [1])
                   [[32; 28; 28]] [[32]] h' 0 Hrun _) 0 [32; 28; 28] _ _ _ _).
  - intros [|j] Hj; [discriminate|simpl in Hj; lia].
  - reflexivity.
  - reflexivity.
  - vm_compute. lia.
  - intros j Hj Hlen. simpl in Hlen. lia.
Defined.

(** ** The order of the node ids *)

(** Every id is below the number of ids, and a node with an id has a larger
    id than each of its successors that leads to a designated output (and
    these successors have an id). *)
Definition descending (h : Heap) (outs : list nat) (m : gmap nat nat) : Prop :=
  (∀ u k, m !! u = Some k → k < size m) ∧
  (∀ u v ku, m !! u = Some ku → edge h u v → to_outputs h outs v →
             ∃ kv, m !! v = Some kv ∧ kv < ku).

Lemma descending_empty h outs : descending h outs ∅.
Proof. split; intros u; intros; by rewrite lookup_empty in *. Qed.

Lemma descending_add h outs self n :
  descending h outs (_node_to_id self) →
  (∀ v, edge h n v → to_outputs h outs v → v ∈ dom (_node_to_id self)) →
  descending h outs (_node_to_id (_add_node self n)).
Proof.
  intros [Hbound Hdesc] Hsucc. unfold _add_node.
  destruct (_node_to_id self !! n) as [k|] eqn:Hn; [done|]. simpl. split.
  - intros u k. rewrite map_size_insert_None by done.
    rewrite lookup_insert. case_decide.
    + intros [= <-]. lia.
    + intros Hu. apply Hbound in Hu. lia.
  - intros u v ku Hu Huv Hv. rewrite lookup_insert in Hu.
    assert (v ≠ n → v ∈ dom (_node_to_id self) →
            ∃ kv, _node_to_id self !! v = Some kv ∧
                  <[n:=size (_node_to_id self)]> (_node_to_id self) !! v = Some kv)
      as Hold.
    { intros Hne [kv Hkv]%elem_of_dom. exists kv. by rewrite lookup_insert_ne. }
    case_decide as Hun.
    + subst u. injection Hu as <-.
      pose proof (Hsucc v Huv Hv) as Hdom.
      assert (v ≠ n) as Hne
        by (intros ->; apply elem_of_dom in Hdom as [? ?]; congruence).
      destruct (Hold Hne Hdom) as (kv & Hkv & Hkv').
      exists kv. split; [done|]. by apply (Hbound v).
    + destruct (Hdesc u v ku Hu Huv Hv) as (kv & Hkv & Hlt).
      exists kv. split; [|done]. rewrite lookup_insert_ne; [done|].
      intros <-. congruence.
Qed.

Section Descending.
Variables (h : Heap) (ins outs : list nat) (r : nat).
Hypothesis Hroot : r ∈ ins.

Lemma search_descending fuel : ∀ n st st',
  search_inv h ins outs r st → n ∉ visited_nodes st → rtc (edge h) r n →
  (∀ u, u ∈ in_stack_nodes st → rtc (edge h) u n) →
  size (all_outputs h ∖ visited_nodes st ∖ {[n]}) < fuel →
  _search_network fuel h outs n st = Ok st' →
  descending h outs (_node_to_id (ss_self st)) →
  descending h outs (_node_to_id (ss_self st')).
Proof.
  induction fuel as [|fuel IH]; intros n st st' Hinv Hn Hrn Hstack Hfuel Hrun Hdesc;
    [lia|].
  pose proof (search_spec h ins outs r Hroot (S fuel) n st Hinv Hn Hrn Hstack Hfuel)
    as Hpost.
  rewrite Hrun in Hpost. simpl in Hpost.
  destruct Hpost as (Hinv' & Hstk' & _ & Hnv' & _).
  rewrite _search_network_S in Hrun.
  destruct (for_each _ _ _) as [acc| |] eqn:Hloop; simpl in Hrun; [|done..].
  injection Hrun as <-.
  apply (for_each_preserve (λ acc : search_state * bool,
           descending h outs (_node_to_id (ss_self acc.1)) ∧
           search_inv h ins outs r acc.1 ∧
           in_stack_nodes acc.1 = {[n]} ∪ in_stack_nodes st ∧
           {[n]} ∪ visited_nodes st ⊆ visited_nodes acc.1)) in Hloop.
  - destruct Hloop as (Hdesc1 & _). destruct acc as [st1 reached]. unfold leave in *.
    simpl in *. destruct reached; simpl in *; [|done].
    apply descending_add; [done|]. intros v Hnv Hv.
    assert (n ∈ finished (mkSearch (_add_node (ss_self st1) n)
                            (in_stack_nodes st1 ∖ {[n]}) (visited_nodes st1))) as Hnfin.
    { unfold finished. simpl. apply elem_of_difference. split; [done|]. set_solver. }
    pose proof (inv_closed _ _ _ _ _ Hinv' n v Hnfin Hnv) as Hvfin.
    pose proof (inv_complete _ _ _ _ _ Hinv' v Hvfin Hv) as Hvid.
    unfold ids in Hvid. simpl in Hvid. rewrite _add_node_dom in Hvid.
    apply elem_of_union in Hvid as [->%elem_of_singleton|?]; [|done].
    destruct (inv_acyclic _ _ _ _ _ Hinv' n Hnfin). by apply tc_once.
  - split_and!; [done|by apply search_inv_enter|done|unfold enter; simpl; set_solver].
  - intros [st1 r1] v [st2 r2] Hv (Hdesc1 & Hinv1 & Hstk1 & Hvis1) Hstep.
    unfold search_step in Hstep. simpl in *.
    destruct (decide (v ∈ in_stack_nodes st1)); [done|].
    destruct (decide (v ∈ visited_nodes st1)) as [Hvv|Hvv]; simpl in Hstep.
    + by injection Hstep as <- <-.
    + destruct (_search_network fuel h outs v st1) as [st3| |] eqn:Hrec;
        simpl in Hstep; [|done..].
      injection Hstep as <- <-.
      assert (rtc (edge h) r v) as Hrv by (by eapply rtc_r).
      assert (∀ u, u ∈ in_stack_nodes st1 → rtc (edge h) u v) as Hstack1.
      { intros u Hu. rewrite Hstk1 in Hu.
        apply elem_of_union in Hu as [->%elem_of_singleton|Hu].
        - by apply rtc_once.
        - eapply rtc_r; [by apply Hstack|done]. }
      assert (size (all_outputs h ∖ visited_nodes st1 ∖ {[v]}) < fuel) as Hfuel1.
      { assert (all_outputs h ∖ visited_nodes st1 ∖ {[v]}
                ⊂ all_outputs h ∖ visited_nodes st ∖ {[n]}) as Hsub.
        { pose proof (edge_all_outputs h n v Hv) as Hout.
          split; [set_solver|]. intros Hsub.
          assert (v ∈ all_outputs h ∖ visited_nodes st ∖ {[n]}) by set_solver.
          set_solver. }
        apply subset_size in Hsub. lia. }
      pose proof (search_spec h ins outs r Hroot fuel v st1 Hinv1 Hvv Hrv Hstack1 Hfuel1)
        as Hpost1.
      rewrite Hrec in Hpost1. simpl in Hpost1.
      destruct Hpost1 as (Hinv3 & Hstk3 & Hvis3 & _).
      split_and!; [by apply (IH v st1)|done|congruence|set_solver].
Qed.
End Descending.

Lemma discover_descending h self self' :
  (∀ u, u ∈ dom (_node_to_id self) → on_path h (inputs self) (outputs self) u) →
  discover h self = Ok self' →
  descending h (outputs self) (_node_to_id self) →
  descending h (outputs self) (_node_to_id self').
Proof.
  intros Hsound Hrun Hdesc. unfold discover in Hrun.
  refine (proj2 (proj2 (for_each_preserve (λ s,
            same_config self s ∧
            (∀ u, u ∈ dom (_node_to_id s) → on_path h (inputs self) (outputs self) u) ∧
            descending h (outputs self) (_node_to_id s)) _ _ _ _ _ _ Hrun)));
    [done|].
  intros s r s' Hr (Hcfg & Hsnd & Hd) Hstep.
  destruct (same_config_fields _ _ Hcfg) as (_ & Houts & _). rewrite <-Houts in Hstep.
  destruct (_search_network _ h (outputs self) r _) as [st| |] eqn:Hsearch;
    simpl in Hstep; [|done..].
  injection Hstep as <-.
  assert (search_inv h (inputs self) (outputs self) r (mkSearch s ∅ ∅)) as Hinv
    by (split; simpl; try done; unfold finished; simpl; set_solver).
  assert (size (all_outputs h ∖ ∅ ∖ {[r]}) < S (size (all_outputs h))) as Hfuel.
  { assert (all_outputs h ∖ ∅ ∖ {[r]} ⊆ all_outputs h) as ?%subseteq_size by set_solver.
    lia. }
  pose proof (search_spec h (inputs self) (outputs self) r Hr _ r (mkSearch s ∅ ∅)
                Hinv ltac:(simpl; set_solver) ltac:(done) ltac:(simpl; set_solver) Hfuel)
    as Hpost.
  rewrite Hsearch in Hpost. simpl in Hpost.
  destruct Hpost as (Hinv' & _ & _ & _ & _ & Hcfg').
  split_and!.
  - by etrans.
  - apply (inv_sound _ _ _ _ _ Hinv').
  - by apply (search_descending h (inputs self) (outputs self) r Hr _ r
                (mkSearch s ∅ ∅) st Hinv ltac:(simpl; set_solver) ltac:(done)
                ltac:(simpl; set_solver) Hfuel Hsearch).
Qed.

Lemma _build_network_discovered h self self' h' :
  _build_network h self = Ok (self', h') →
  ∃ self1, discover h (with_node_to_id self ∅) = Ok self1 ∧
           _node_to_id self1 ⊆ _node_to_id self' ∧
           _nodes self' = sorted_nodes (_node_to_id self1) ∧
           dense_ids (_node_to_id self1).
Proof.
  intros Hrun. destruct (_build_network_stages _ _ _ _ Hrun) as (self1 & Hdisc & Hord & _).
  exists self1. split; [done|].
  pose proof (discover_extend _ _ _ Hdisc) as Hext1. simpl in Hext1.
  apply (order_loop_preserve (λ s,
           ids_extend (_node_to_id self1) (_node_to_id s) ∧
           _nodes s = sorted_nodes (_node_to_id self1))) in Hord.
  - destruct Hord as [Hext2 Hnodes]. split_and!; [by apply ids_extend_subseteq|done|].
    eapply dense_ids_extend; [done|apply dense_ids_empty].
  - intros s b s' [Hext Hn] Hs. apply _add_hypermodel_extend in Hs as [Hext' Hn'].
    split; [by eapply ids_extend_trans|congruence].
  - simpl. split; [constructor|done].
Qed.

(** X18.  The ids given by discovery descend along the edges: after a
    successful construction, a node on a path between a designated input
    and a designated output has a larger id than each of its successors
    that leads to a designated output, so [_nodes] lists such a successor
    before the node (a node is numbered when its call returns, after its
    descendants, also across the traversals of several inputs). *)
Theorem node_ids_descend_along_edges h self self' h' n v :
  _build_network h self = Ok (self', h') →
  on_path h (inputs self) (outputs self) n →
  edge h n v → to_outputs h (outputs self) v →
  ∃ kn kv, kv < kn ∧
    _node_to_id self' !! n = Some kn ∧ _node_to_id self' !! v = Some kv ∧
    _nodes self' !! kn = Some n ∧ _nodes self' !! kv = Some v.
Proof.
  intros Hrun Hn Hnv Hv.
  destruct (_build_network_discovered _ _ _ _ Hrun) as (self1 & Hdisc & Hsub & Hnodes & Hd).
  pose proof (discover_spec h (with_node_to_id self ∅)) as Hspec.
  rewrite Hdisc in Hspec. simpl in Hspec.
  destruct Hspec as (_ & _ & _ & Hcompl & _); [set_solver|].
  destruct (discover_descending h (with_node_to_id self ∅) self1) as [_ Hdesc];
    [simpl; set_solver|done|apply descending_empty|]. simpl in *.
  apply Hcompl, elem_of_dom in Hn as [kn Hkn].
  destruct (Hdesc n v kn Hkn Hnv Hv) as (kv & Hkv & Hlt).
  exists kn, kv. rewrite Hnodes, !sorted_nodes_lookup by done.
  split_and!; [done|by eapply lookup_weaken|by eapply lookup_weaken|done|done].
Qed.

Lemma node_ids_descend_along_edges_witness :
  ∃ self' h', _build_network chain_heap (model [0] [1]) = Ok (self', h') ∧
    ∃ kn kv, kv < kn ∧
      _node_to_id self' !! 0 = Some kn ∧ _node_to_id self' !! 1 = Some kv ∧
      _nodes self' !! kn = Some 0 ∧ _nodes self' !! kv = Some 1.
Proof.
  destruct (_build_network chain_heap (model [0] [1])) as [[self' h']| |] eqn:Hrun;
    [|by vm_compute in Hrun..].
  exists self', h'. split; [reflexivity|].
  apply (node_ids_descend_along_edges chain_heap (model [0] [1]) self' h' 0 1 Hrun).
  - split; [exists 0; split; [by left|done]|].
    exists 1. split; [by left|]. apply rtc_once. unfold edge. vm_compute. by left.
  - unfold edge. vm_compute. by left.
  - exists 1. split; [by left|done].
Defined.

(** ** Constructing twice *)

(** [_build_network] starts by resetting the containers it fills: its
    result does not depend on what they held. *)
Definition reset (self : GraphAutoModel) : GraphAutoModel :=
  mkModel (inputs self) (outputs self) (max_trials self) (directory self) ∅ [] [] ∅.

(** [t] with the three containers that discovery does not touch taken
    from [s]. *)
Definition stale (s t : GraphAutoModel) : GraphAutoModel :=
  mkModel (inputs t) (outputs t) (max_trials t) (directory t)
          (_node_to_id t) (_nodes s) (_hypermodels s) (_hypermodel_to_id s).

Definition stale_state (s : GraphAutoModel) (st : search_state) : search_state :=
  mkSearch (stale s (ss_self st)) (in_stack_nodes st) (visited_nodes st).

Definition res_map {A B} (f : A → B) (r : res A) : res B :=
  match r with
  | Ok a => Ok (f a)
  | Raise e => Raise e
  | OutOfFuel => OutOfFuel
  end.

Lemma for_each_map {A S T} (f : S → T) (body1 : S → A → res S) (body2 : T → A → res T)
    (l : list A) :
  (∀ s x, body2 (f s) x = res_map f (body1 s x)) →
  ∀ s, for_each l (f s) body2 = res_map f (for_each l s body1).
Proof.
  intros Hbody. induction l as [|x l IH]; intros s; simpl; [done|].
  rewrite Hbody. destruct (body1 s x) as [s'| |]; simpl; [apply IH|done..].
Qed.

Lemma _add_node_stale s t n : _add_node (stale s t) n = stale s (_add_node t n).
Proof. unfold _add_node. simpl. by destruct (_node_to_id t !! n). Qed.

Lemma _search_network_stale fuel h outs s : ∀ n st,
  _search_network fuel h outs n (stale_state s st)
  = res_map (stale_state s) (_search_network fuel h outs n st).
Proof.
  induction fuel as [|fuel IH]; intros n st; [done|].
  rewrite !_search_network_S.
  set (f := λ acc : search_state * bool, (stale_state s acc.1, acc.2)).
  set (step := search_step (_search_network fuel h outs)).
  assert (∀ acc v, step (f acc) v = res_map f (step acc v)) as Hbody.
  { intros [st1 reached] v. unfold step, search_step, f. simpl.
    destruct (decide (v ∈ in_stack_nodes st1)); [done|].
    destruct (decide (v ∈ visited_nodes st1)); simpl; [done|].
    fold (stale_state s st1). rewrite IH.
    by destruct (_search_network fuel h outs v st1). }
  assert (for_each (successors h n) (enter (stale_state s st) n, bool_decide (n ∈ outs)) step
          = res_map f (for_each (successors h n) (enter st n, bool_decide (n ∈ outs)) step))
    as -> by exact (for_each_map f step step _ Hbody (enter st n, bool_decide (n ∈ outs))).
  destruct (for_each _ _ _) as [[st1 reached]| |]; simpl; [|done..].
  unfold leave, stale_state. simpl. destruct reached; simpl; [|done].
  by rewrite _add_node_stale.
Qed.

Lemma discover_stale h s t :
  discover h (stale s t) = res_map (stale s) (discover h t).
Proof.
  unfold discover. simpl.
  apply (for_each_map (stale s)
           (λ self input_node,
              st ← _search_network (S (size (all_outputs h))) h (outputs self) input_node
                     (mkSearch self ∅ ∅);
              Ok (ss_self st))).
  intros t1 r. simpl.
  change (mkSearch (stale s t1) ∅ ∅) with (stale_state s (mkSearch t1 ∅ ∅)).
  rewrite _search_network_stale.
  by destruct (_search_network _ h (outputs t1) r _).
Qed.

Lemma _build_network_reset h self :
  _build_network h self = _build_network h (reset self).
Proof.
  unfold _build_network.
  change (with_node_to_id self ∅) with (stale self (with_node_to_id (reset self) ∅)).
  rewrite discover_stale.
  by destruct (discover h (with_node_to_id (reset self) ∅)).
Qed.

(** The blocks after the finalization loop, as a function of the blocks
    before: the loop reads the nodes only, and it does not write them. *)
Definition finalized (nds : list HyperNode.t) (outs : list nat)
    (blks : list HyperBlock.t) : list HyperBlock.t :=
  foldl (λ blks o,
    let nd := default HyperNode.new (nds !! o) in
    alter (λ b, HyperBlock.set_output_shape b (HyperNode.shape nd))
          (default 0 (head (HyperNode.in_hypermodels nd))) blks) blks outs.

Lemma finalize_finalized outs : ∀ h h',
  for_each outs h set_output_shape = Ok h' →
  h' = mkHeap (nodes h) (finalized (nodes h) outs (blocks h)).
Proof.
  induction outs as [|o outs IH]; intros h h' Hrun.
  - injection Hrun as <-. by destruct h.
  - change (set_output_shape h o ≫= (λ h, for_each outs h set_output_shape) = Ok h')
      in Hrun.
    destruct (set_output_shape h o) as [h1| |] eqn:Hstep; simpl in Hrun; [|done..].
    rewrite (IH h1 h' Hrun). unfold set_output_shape, node_at in Hstep.
    unfold finalized. simpl.
    destruct (HyperNode.in_hypermodels (default HyperNode.new (nodes h !! o)))
      as [|b bs]; [done|].
    by injection Hstep as <-.
Qed.

Lemma finalized_lookup nds outs i :
  ∃ G : HyperBlock.t → HyperBlock.t,
    (∀ b, G (G b) = G b) ∧
    (∀ s b, G (HyperBlock.set_output_shape b s) = G b ∨ G = id) ∧
    ∀ blks, finalized nds outs blks !! i = G <$> blks !! i.
Proof.
  induction outs as [|o outs IH] using rev_ind.
  - exists id. split_and!; [done|by right|]. intros blks. simpl. by rewrite option_fmap_id.
  - destruct IH as (G & Hidem & Hover & HG).
    set (nd := default HyperNode.new (nds !! o)).
    destruct (decide (default 0 (head (HyperNode.in_hypermodels nd)) = i)) as [Hi|Hi].
    + exists (λ b, HyperBlock.set_output_shape (G b) (HyperNode.shape nd)).
      split_and!.
      * intros b. destruct (Hover (HyperNode.shape nd) (G b)) as [->| ->]; [|done].
        by rewrite Hidem.
      * intros s b. left. by destruct (Hover s b) as [->| ->].
      * intros blks. unfold finalized. rewrite foldl_app. simpl. fold nd.
        fold (finalized nds outs blks). rewrite Hi, list_lookup_alter_eq, HG.
        by destruct (blks !! i).
    + exists G. split_and!; [done..|].
      intros blks. unfold finalized. rewrite foldl_app. simpl. fold nd.
      fold (finalized nds outs blks). by rewrite list_lookup_alter_ne.
Qed.

Lemma finalized_idempotent nds outs blks :
  finalized nds outs (finalized nds outs blks) = finalized nds outs blks.
Proof.
  apply list_eq. intros i. destruct (finalized_lookup nds outs i) as (G & Hidem & _ & HG).
  rewrite !HG. destruct (blks !! i) as [b|]; simpl; [|done]. by rewrite Hidem.
Qed.

Lemma finalize_idempotent outs h h' :
  for_each outs h set_output_shape = Ok h' →
  for_each outs h' set_output_shape = Ok h'.
Proof.
  intros Hrun.
  assert (outputs_produced h' outs) as Hprod.
  { assert (outputs_produced h outs) as Hp by (apply finalize_succeeds; eauto).
    intros o Ho. unfold node_at. rewrite (finalize_nodes _ _ _ Hrun). by apply Hp. }
  apply finalize_succeeds in Hprod as [h'' Hrun'].
  rewrite Hrun'. f_equal.
  rewrite (finalize_finalized _ _ _ Hrun'), (finalize_finalized _ _ _ Hrun). simpl.
  by rewrite finalized_idempotent.
Qed.

Lemma _build_network_check h self self' h' :
  _build_network h self = Ok (self', h') →
  ∃ self1,
    discover h (with_node_to_id self ∅) = Ok self1 ∧
    for_each (inputs self1 ++ outputs self1) tt (λ _ node,
      if decide (node ∈ dom (_node_to_id self1)) then Ok tt
      else Raise not_connected_error) = Ok tt.
Proof.
  unfold _build_network. intros Hrun.
  destruct (discover h (with_node_to_id self ∅)) as [self1| |]; simpl in Hrun; [|done..].
  exists self1. split; [done|].
  by destruct (for_each (inputs self1 ++ outputs self1) tt _) as [[]| |].
Qed.

(** X19.  Construction is idempotent: [_build_network] resets the
    containers it fills and reads nothing it writes, so running it again on
    the model and the heap it returned yields the same model and the same
    heap. *)
Theorem construction_idempotent h self self' h' :
  _build_network h self = Ok (self', h') →
  _build_network h' self' = Ok (self', h').
Proof.
  intros Hrun. pose proof (_build_network_spec h self) as Hspec.
  rewrite Hrun in Hspec. simpl in Hspec.
  assert (reset self' = reset self) as Hreset.
  { unfold reset. by rewrite (c_inputs _ _ _ _ Hspec), (c_outputs _ _ _ _ Hspec),
      (c_max_trials _ _ _ _ Hspec), (c_directory _ _ _ _ Hspec). }
  rewrite (_build_network_reset h' self'), Hreset, <-(_build_network_reset h' self).
  assert (topology h' = topology h) as Htopo.
  { apply same_links_topology.
    pose proof (finalize_blocks _ _ _ (c_heap _ _ _ _ Hspec)) as Hbl.
    pose proof (finalize_nodes _ _ _ (c_heap _ _ _ _ Hspec)) as Hnd.
    destruct (finalize_frame _ _ _ (c_heap _ _ _ _ Hspec)) as (_ & Hlen & _).
    split_and!; [by rewrite Hnd|done| |done].
    intros n. unfold node_at. by rewrite Hnd. }
  destruct (_build_network_stages _ _ _ _ Hrun) as (self1 & Hdisc & Hord & Hfin).
  destruct (_build_network_check _ _ _ _ Hrun) as (self1' & Hdisc' & Hchk).
  rewrite Hdisc in Hdisc'. injection Hdisc' as <-.
  unfold _build_network.
  rewrite (discover_topology h' h Htopo), (same_all_outputs h' h Htopo), Hdisc. simpl.
  rewrite Hchk. simpl. rewrite seed_queue.
  pose proof (order_loop_topology h' h Htopo
    (length (inputs self1) + size (all_outputs h))
    (mkOrder (with_hypermodels (with_nodes self1 (sorted_nodes (_node_to_id self1))) [] ∅)
             (list_to_set (inputs self1) ∪ ∅) ([] ++ inputs self1))) as Hagree.
  rewrite Hord in Hagree.
  destruct (order_loop _ h' _) as [self2| |]; simpl in Hagree; [|done..].
  subst self2. simpl.
  by rewrite (finalize_idempotent _ _ _ Hfin).
Qed.

Lemma construction_idempotent_witness :
  ∃ self' h', _build_network fork_heap (model [0] [1]) = Ok (self', h') ∧
              _build_network h' self' = Ok (self', h').
Proof.
  destruct (_build_network fork_heap (model [0] [1])) as [[self' h']| |] eqn:Hrun;
    [|by vm_compute in Hrun..].
  exists self', h'. split; [reflexivity|].
  exact (construction_idempotent _ _ _ _ Hrun).
Defined.

(** ** The tensors that [build] hands over *)

Section Dataflow.
Context {Tensor HyperParameters : Type}.
Variable node_build : nat → HyperParameters → Tensor.
Variable hypermodel_build : nat → HyperParameters → list Tensor → list Tensor.
Variables (h : Heap) (self : GraphAutoModel) (hp : HyperParameters).
(** A value for every node. *)
Variable den : nat → Tensor.

Hypothesis Hinj : ∀ n1 n2 k,
  _node_to_id self !! n1 = Some k → _node_to_id self !! n2 = Some k → n1 = n2.
Hypothesis Hden_inputs : ∀ r, r ∈ inputs self → den r = node_build r hp.
Hypothesis Hden_blocks : ∀ b j o,
  b ∈ _hypermodels self → HyperBlock.outputs (block_at h b) !! j = Some o →
  hypermodel_build b hp (den <$> HyperBlock.inputs (block_at h b)) !! j = Some (den o).

(** Whatever [real_nodes] holds under the id of a node is the value of the
    node. *)
Definition holds_values (real_nodes : gmap nat Tensor) : Prop :=
  ∀ n k t, _node_to_id self !! n = Some k → real_nodes !! k = Some t → t = den n.

Lemma holds_values_insert real_nodes n k :
  holds_values real_nodes → _node_to_id self !! n = Some k →
  holds_values (<[k := den n]> real_nodes).
Proof.
  intros Hrn Hk n' k' t Hk'. rewrite lookup_insert. case_decide as Heq.
  - subst k'. intros [= <-]. by rewrite (Hinj n n' k).
  - by apply Hrn.
Qed.

Lemma real_node_den real_nodes n t :
  holds_values real_nodes → real_node self real_nodes n = Ok t → t = den n.
Proof.
  intros Hrn. unfold real_node, getitem.
  destruct (_node_to_id self !! n) as [k|] eqn:Hk; simpl; [|done].
  destruct (real_nodes !! k) as [t'|] eqn:Ht; [|done]. intros [= <-]. by eapply Hrn.
Qed.

Lemma comprehension_den real_nodes l : ∀ ts,
  holds_values real_nodes →
  comprehension (real_node self real_nodes) l = Ok ts → ts = den <$> l.
Proof.
  induction l as [|n l IH]; intros ts Hrn; simpl; [by intros [= <-]|].
  destruct (real_node self real_nodes n) as [t| |] eqn:Hn; simpl; [|done..].
  destruct (comprehension (real_node self real_nodes) l) as [ts'| |]; simpl; [|done..].
  intros [= <-]. by rewrite (real_node_den _ _ _ Hrn Hn), (IH ts').
Qed.

Lemma store_inputs_den real_nodes :
  for_each (inputs self) ∅ (λ real_nodes input_node,
    node_id ← getitem (_node_to_id self) input_node;
    Ok (<[node_id := node_build input_node hp]> real_nodes)) = Ok real_nodes →
  holds_values real_nodes.
Proof.
  intros Hrun. refine (for_each_preserve holds_values _ _ _ _ _ _ Hrun).
  - intros n k t _. by rewrite lookup_empty.
  - intros rn r rn' Hr Hrn. unfold getitem.
    destruct (_node_to_id self !! r) as [k|] eqn:Hk; simpl; [|done].
    intros [= <-]. rewrite <-(Hden_inputs r Hr). by apply holds_values_insert.
Qed.

Lemma build_hypermodel_den real_nodes b real_nodes' :
  b ∈ _hypermodels self → holds_values real_nodes →
  build_hypermodel hypermodel_build h self hp real_nodes b = Ok real_nodes' →
  holds_values real_nodes'.
Proof.
  intros Hb Hrn. unfold build_hypermodel.
  destruct (comprehension _ _) as [ts| |] eqn:Hts; simpl; [|done..].
  apply comprehension_den in Hts; [|done]. subst ts. intros Hrun.
  refine (for_each_preserve holds_values _ _ _ _ _ _ Hrun); [done|].
  intros rn [o t] rn' Hot Hrn1. unfold getitem.
  destruct (_node_to_id self !! o) as [k|] eqn:Hk; simpl; [|done].
  intros [= <-]. apply list_elem_of_lookup in Hot as [j Hj].
  apply zip_lookup_Some in Hj as [Ho Ht].
  rewrite (Hden_blocks b j o Hb Ho) in Ht. injection Ht as <-.
  by apply holds_values_insert.
Qed.

Lemma build_den model_inputs model_outputs :
  build node_build hypermodel_build h self hp = Ok (model_inputs, model_outputs) →
  model_inputs = den <$> inputs self ∧ model_outputs = den <$> outputs self.
Proof.
  unfold build.
  destruct (for_each (inputs self) ∅ _) as [rn0| |] eqn:Hin; simpl; [|done..].
  apply store_inputs_den in Hin.
  destruct (for_each (_hypermodels self) rn0 _) as [rn| |] eqn:Hblocks; simpl; [|done..].
  assert (holds_values rn) as Hrn.
  { refine (for_each_preserve holds_values _ _ _ _ _ _ Hblocks); [done|].
    intros rn1 b rn2 Hb Hrn1 Hstep. by eapply build_hypermodel_den. }
  destruct (comprehension _ (inputs self)) as [mi| |] eqn:Hmi; simpl; [|done..].
  destruct (comprehension _ (outputs self)) as [mo| |] eqn:Hmo; simpl; [|done..].
  intros [= <- <-].
  by rewrite (comprehension_den _ _ _ Hrn Hmi), (comprehension_den _ _ _ Hrn Hmo).
Qed.
End Dataflow.

(** X20.  [build] computes the values of the graph: for any assignment
    [den] of a tensor to every node that gives each designated input its
    own build step and each output of each ordered block the corresponding
    result of the block's build step on the values of the block's inputs
    (results beyond the output nodes are dropped by [zip]), whenever
    [build] returns on a constructed model it hands to the Keras model the
    values of the designated inputs and of the designated outputs, in
    order. *)
Theorem build_computes_dataflow {Tensor HyperParameters : Type}
    (node_build : nat → HyperParameters → Tensor)
    (hypermodel_build : nat → HyperParameters → list Tensor → list Tensor)
    (den : nat → Tensor) h0 self0 self h hp model_inputs model_outputs :
  _build_network h0 self0 = Ok (self, h) →
  (∀ r, r ∈ inputs self → den r = node_build r hp) →
  (∀ b j o, b ∈ _hypermodels self → HyperBlock.outputs (block_at h b) !! j = Some o →
     hypermodel_build b hp (den <$> HyperBlock.inputs (block_at h b)) !! j
     = Some (den o)) →
  build node_build hypermodel_build h self hp = Ok (model_inputs, model_outputs) →
  model_inputs = den <$> inputs self ∧ model_outputs = den <$> outputs self.
Proof.
  intros Hrun Hin Hblocks Hbuild.
  destruct (_build_network_ids _ _ _ _ Hrun) as (_ & _ & _ & [Hinj _] & _).
  by eapply build_den.
Qed.

Lemma build_computes_dataflow_witness :
  ∃ self h, _build_network chain_heap (model [0] [1]) = Ok (self, h) ∧
    build (λ n (_ : unit), 10 + n) (λ b _ ts, [foldr Nat.add b ts]) h self tt
    = Ok ([10], [10]).
Proof.
  destruct (_build_network chain_heap (model [0] [1])) as [[self h]| |] eqn:Hrun;
    [|by vm_compute in Hrun..].
  exists self, h. split; [reflexivity|].
  destruct (build (λ n (_ : unit), 10 + n) (λ b _ ts, [foldr Nat.add b ts]) h self tt)
    as [[mi mo]| |] eqn:Hbuild;
    [|vm_compute in Hrun; injection Hrun as <- <-; by vm_compute in Hbuild..].
  destruct (build_computes_dataflow (λ n (_ : unit), 10 + n)
              (λ b _ ts, [foldr Nat.add b ts]) (λ _, 10)
              chain_heap (model [0] [1]) self h tt mi mo Hrun) as [-> ->].
  - vm_compute in Hrun. injection Hrun as <- <-.
    intros r ->%list_elem_of_singleton. reflexivity.
  - vm_compute in Hrun. injection Hrun as <- <-.
    intros b j o ->%list_elem_of_singleton. destruct j as [|j]; [|done].
    intros [= <-]. reflexivity.
  - exact Hbuild.
  - vm_compute in Hrun. by injection Hrun as <- <-.
Defined.
